(** * Occupancy-grid accelerated renderer: [nerf/renderer.py]

    A shallow embedding of [NeRFRenderer] (constructor, ray passes, render
    orchestrator, visibility pass and grid updater) and of the sampler
    [sample_pdf], together with the properties its specification states and
    further properties of the code.

    Conventions of the embedding.
    - Python integers are [Z]; [//] is [Z.div] and [%] is [Z.modulo] (both
      floor towards minus infinity, like Python, for the positive divisors
      that occur here).
    - A float32 tensor element is a [tfloat]: the IEEE-754 special values
      (NaN, the two infinities) are explicit, and finite values are exact
      rationals, so rounding and overflow are abstracted away while division
      by zero, NaN propagation and comparisons behave as torch's do.  The
      statements about depths and samples are restricted to what rounding
      cannot change (the expression computed, shapes, exceptions, signs,
      special values); the module [Binary32] evaluates the depth
      normalisation on binary32 itself.
    - A 1-D tensor is a list, a 2-D tensor a list of rows.  [view] and
      [contiguous] only change shape metadata; the row-major data is kept.
    - The CUDA extension [raymarching] and the learned field (the methods a
      subclass of [NeRFRenderer] must supply) are not part of the file: they
      are the members of the classes [RayMarching] and [NeRFField].
    - Python exceptions are the left summand of the result monad [M]. *)

From Stdlib Require Import ZArith QArith Qminmax Qabs Qround Lqa Lia.
From Stdlib Require Import Floats.SpecFloat.
From stdpp Require Import base option list gmap strings.
From Equations Require Import Equations.

Set Default Proof Using "Type*".

(* ===================================================================== *)
(** ** Tensor elements *)
(* ===================================================================== *)

Module TFloat.

Inductive tfloat : Type :=
| FFin (q : Q)          (* a finite value *)
| FInf (neg : bool)     (* +inf ([false]) or -inf ([true]) *)
| FNaN.

Definition of_Z (z : Z) : tfloat := FFin (inject_Z z).

Definition fzero : tfloat := FFin 0.
Definition fone : tfloat := FFin 1.

(** [q < 0] and [q == 0] on rationals, as booleans. *)
Definition qneg (q : Q) : bool := negb (Qle_bool 0 q).
Definition qzero (q : Q) : bool := Qeq_bool q 0.

Definition fneg (x : tfloat) : tfloat :=
  match x with
  | FFin q => FFin (- q)
  | FInf s => FInf (negb s)
  | FNaN => FNaN
  end.

Definition fadd (x y : tfloat) : tfloat :=
  match x, y with
  | FNaN, _ | _, FNaN => FNaN
  | FInf s, FInf s' => if Bool.eqb s s' then FInf s else FNaN
  | FInf s, FFin _ => FInf s
  | FFin _, FInf s => FInf s
  | FFin a, FFin b => FFin (a + b)
  end.

Definition fsub (x y : tfloat) : tfloat := fadd x (fneg y).

Definition fmul (x y : tfloat) : tfloat :=
  match x, y with
  | FNaN, _ | _, FNaN => FNaN
  | FInf s, FInf s' => FInf (xorb s s')
  | FInf s, FFin b => if qzero b then FNaN else FInf (xorb s (qneg b))
  | FFin a, FInf s => if qzero a then FNaN else FInf (xorb (qneg a) s)
  | FFin a, FFin b => FFin (a * b)
  end.

(** IEEE division.  A finite zero divisor is the positive zero (the
    difference [x - x] of a finite value with itself is [+0] under
    round-to-nearest): [0 / 0] is NaN and [a / 0] is the infinity of the
    sign of [a].  Nothing is raised. *)
Definition fdiv (x y : tfloat) : tfloat :=
  match x, y with
  | FNaN, _ | _, FNaN => FNaN
  | FInf _, FInf _ => FNaN
  | FInf s, FFin b => FInf (xorb s (qneg b))
  | FFin _, FInf _ => FFin 0
  | FFin a, FFin b =>
      if qzero b then (if qzero a then FNaN else FInf (qneg a))
      else FFin (a / b)
  end.

(** [x <= y]; every comparison with NaN is false. *)
Definition fle (x y : tfloat) : bool :=
  match x, y with
  | FNaN, _ | _, FNaN => false
  | FInf true, _ => true
  | _, FInf false => true
  | FInf false, _ => false
  | _, FInf true => false
  | FFin a, FFin b => Qle_bool a b
  end.

Definition fge (x y : tfloat) : bool := fle y x.
Definition flt (x y : tfloat) : bool := fle x y && negb (fle y x).
Definition fgt (x y : tfloat) : bool := flt y x.
Definition feqb (x y : tfloat) : bool := fle x y && fle y x.

Definition is_nan (x : tfloat) : bool :=
  match x with FNaN => true | _ => false end.

(** [torch.clamp(x, min=m)]: NaN stays NaN. *)
Definition clamp_min (x m : tfloat) : tfloat := if flt x m then m else x.

(** [torch.maximum(x, y)]: NaN if either argument is NaN. *)
Definition maximum (x y : tfloat) : tfloat :=
  match x, y with
  | FNaN, _ | _, FNaN => FNaN
  | _, _ => if fle x y then y else x
  end.

(** Python's builtin [min(a, b)] on two numbers: [b] if [b < a], else [a]. *)
Definition py_min (a b : tfloat) : tfloat := if flt b a then b else a.

Definition fsum (l : list tfloat) : tfloat := foldl fadd fzero l.

(** [torch.mean] of a flat tensor: the sum over the number of elements
    (NaN for an empty tensor). *)
Definition fmean (l : list tfloat) : tfloat :=
  fdiv (fsum l) (of_Z (Z.of_nat (length l))).

End TFloat.
Export TFloat.

(** The same unguarded normalisation on IEEE binary32 itself (precision 24,
    maximal exponent 128), used to cross-check the special values of
    [tfloat] on concrete inputs. *)
Module Binary32.
Definition b32_one : spec_float := S754_finite false 8388608 (-23).
End Binary32.

(* ===================================================================== *)
(** ** Exceptions *)
(* ===================================================================== *)

Inductive exn : Type :=
| TypeError (msg : string)
| AttributeError (attr : string)
| RuntimeError (msg : string)
| ZeroDivisionError.

Definition M (A : Type) : Type := exn + A.
Definition raise {A} (e : exn) : M A := inl e.

#[global] Instance M_ret : MRet M := fun A a => inr a.
#[global] Instance M_bind : MBind M := fun A B k m =>
  match m with
  | inl e => inl e
  | inr a => k a
  end.

(* ===================================================================== *)
(** ** Tensors, slices and the results dictionary *)
(* ===================================================================== *)

Definition vec3 : Type := tfloat * tfloat * tfloat.

(** [t.view(B, N, ...)] of a flat tensor: [B] consecutive rows of [N]. *)
Fixpoint view2 {A} (B N : nat) (flat : list A) : list (list A) :=
  match B with
  | O => []
  | S B' => take N flat :: view2 B' N (drop N flat)
  end.

(** [rays.contiguous().view(-1, 3)]: the rows one after the other. *)
Definition flatten {A} (t : list (list A)) : list A := concat t.

(** [t.shape[:2]] of a [B, N, ...] tensor. *)
Definition shape2 {A} (t : list (list A)) : nat * nat :=
  (length t, length (default [] (head t))).

(** A Python slice bound: negative bounds count from the end, and the
    result is clipped to [0, len]. *)
Definition slice_bound (len i : Z) : Z :=
  Z.max 0 (Z.min len (if (i <? 0)%Z then (i + len)%Z else i)).

(** [l[lo:hi]] *)
Definition py_slice {A} (lo hi : Z) (l : list A) : list A :=
  let len := Z.of_nat (length l) in
  let a := slice_bound len lo in
  let b := slice_bound len hi in
  take (Z.to_nat (b - a)) (drop (Z.to_nat a) l).

(** [l[lo:hi] = v] on tensors: the shapes have to agree. *)
Definition py_slice_assign {A} (lo hi : Z) (l v : list A) : M (list A) :=
  let len := Z.of_nat (length l) in
  let a := slice_bound len lo in
  let b := slice_bound len hi in
  if decide (length v = Z.to_nat (b - a)) then
    mret (take (Z.to_nat a) l ++ v ++ drop (Z.to_nat a + length v) l)
  else raise (RuntimeError "shape mismatch").

(** [t[b:b+1, head:tail]] *)
Definition slice2 {A} (b head tail : Z) (t : list (list A)) : list (list A) :=
  py_slice head tail <$> py_slice b (b + 1) t.

(** [t[b:b+1, head:tail] = v] with [v] of shape [1, tail - head, ...]. *)
Definition slice2_assign {A} (b head tail : Z) (t v : list (list A))
  : M (list (list A)) :=
  match t !! Z.to_nat b, v with
  | Some row, [vrow] =>
      row' ← py_slice_assign head tail row vrow;
      mret (<[Z.to_nat b := row']> t)
  | _, _ => raise (RuntimeError "shape mismatch")
  end.

(** What a render pass stores under a key of [results]. *)
Inductive rvalue : Type :=
| RFlat (w : list tfloat)                      (* [N] *)
| RScalar (d : list (list tfloat))             (* [B, N] *)
| RVector (v : list (list (list tfloat))).     (* [B, N, C] *)

Abbreviation results_dict := (gmap string rvalue).

(** [results_[key]] *)
Definition getitem (r : results_dict) (key : string) : M rvalue :=
  match r !! key with
  | Some v => mret v
  | None => raise (RuntimeError "KeyError")
  end.

(** The [bg_color] argument: a Python number, a 1-D tensor or a 2-D tensor
    (the background model returns an [N, 3] one).  The rows of a 2-D tensor
    have one length, and a 2-D tensor without rows is [0, 3]. *)
Inductive bg_value : Type :=
| BgScalar (x : tfloat)
| BgChannels (c : list tfloat)
| BgPerRay (t : list (list tfloat)).

(** The number of columns of a 2-D tensor that has [d] columns when it has
    no row. *)
Definition columns {A} (d : nat) (t : list (list A)) : nat :=
  match t with
  | [] => d
  | row :: _ => length row
  end.

(** [bg_color] as torch broadcasts it against 2-D tensors: a number as
    [1, 1], a [k] tensor as [1, k]. *)
Definition bg_tensor (bg : bg_value) : nat * nat * list (list tfloat) :=
  match bg with
  | BgScalar x => (1, 1, [[x]])
  | BgChannels c => (1, length c, [c])
  | BgPerRay t => (length t, columns 3 t, t)
  end.

(** Broadcasting of one dimension: the two sizes are equal, or one of them
    is 1. *)
Definition broadcast_dim (a b : nat) : M nat :=
  if decide (a = b) then mret a
  else if decide (a = 1) then mret b
  else if decide (b = 1) then mret a
  else raise (RuntimeError
         "The size of tensor a must match the size of tensor b").

(** The position read in a dimension of size [n] for position [i] of the
    broadcast result. *)
Definition broadcast_index (n i : nat) : nat := if decide (n = 1) then 0 else i.

(** Entry [i, c] of a 2-D tensor. *)
Definition entry {A} (t : list (list A)) (i c : nat) : option A :=
  t !! i ≫= (.!! c).

(** [f(a, b)] elementwise on an [ra, ca] tensor and an [rb, cb] tensor, as
    torch broadcasts them; the result comes with its shape. *)
Definition broadcast2 (f : tfloat → tfloat → tfloat)
  (ra ca : nat) (a : list (list tfloat)) (rb cb : nat) (b : list (list tfloat))
  : M (nat * nat * list (list tfloat)) :=
  R ← broadcast_dim ra rb;
  C ← broadcast_dim ca cb;
  data ← mapM (fun i =>
            mapM (fun c =>
                    match entry a (broadcast_index ra i) (broadcast_index ca c),
                          entry b (broadcast_index rb i) (broadcast_index cb c)
                    with
                    | Some x, Some y => mret (f x y)
                    | _, _ => raise (RuntimeError "not a tensor")
                    end) (seq 0 C)) (seq 0 R);
  mret (R, C, data).

(** The size check of [t.view(...)]: the tensor has the elements asked
    for. *)
Definition check_view {A} (t : list A) (n : nat) : M unit :=
  if decide (length t = n) then mret ()
  else raise (RuntimeError "shape is invalid for input size").

(** Elementwise binary operation on two tensors of the same shape. *)
Fixpoint map2M {A B C} (f : A → B → C) (l1 : list A) (l2 : list B)
  : M (list C) :=
  match l1, l2 with
  | [], [] => mret []
  | a :: l1', b :: l2' => rest ← map2M f l1' l2'; mret (f a b :: rest)
  | _, _ => raise (RuntimeError "shape mismatch")
  end.

(** [torch.zeros_like(t)], [torch.ones_like(t)] scaled: every element of a
    2-D tensor replaced by [v], and the same for one row. *)
Definition full_like1 {A B} (v : B) (row : list A) : list B :=
  map (fun _ => v) row.
Definition full_like {A B} (v : B) (t : list (list A)) : list (list B) :=
  map (full_like1 v) t.

(* ===================================================================== *)
(** ** The renderer object *)
(* ===================================================================== *)

(** The buffers [__init__] registers only when [cuda_ray] is set. *)
Record extra_state : Type := {
  density_grid : list (list tfloat);      (* [CAS, H * H * H] *)
  density_bitfield : list Z;              (* uint8, [CAS * H * H * H // 8] *)
  mean_density : tfloat;
  iter_density : Z;
  step_counter : list (list Z);           (* int32, [16, 2] *)
  mean_count : Z;
  local_step : Z
}.

(** [self].  [extra] is [None] exactly when the object was built with
    [cuda_ray=False]: the attributes of [extra_state] do not exist then and
    reading one raises [AttributeError]. *)
Record NeRFRenderer : Type := {
  bound : tfloat;
  cascade : Z;
  grid_size : Z;
  density_scale : tfloat;
  min_near : tfloat;
  density_thresh : tfloat;
  bg_radius : tfloat;
  aabb_train : list tfloat;
  aabb_infer : list tfloat;
  training : bool;
  extra : option extra_state
}.

Definition cuda_ray (self : NeRFRenderer) : bool :=
  match extra self with Some _ => true | None => false end.

Definition set_extra (self : NeRFRenderer) (e : extra_state) : NeRFRenderer :=
  {| bound := bound self; cascade := cascade self; grid_size := grid_size self;
     density_scale := density_scale self; min_near := min_near self;
     density_thresh := density_thresh self; bg_radius := bg_radius self;
     aabb_train := aabb_train self; aabb_infer := aabb_infer self;
     training := training self; extra := Some e |}.

(** Reading an attribute of the extra state, e.g. [self.density_bitfield]. *)
Definition getattr {A} (self : NeRFRenderer) (name : string)
  (proj : extra_state → A) : M A :=
  match extra self with
  | Some e => mret (proj e)
  | None => raise (AttributeError name)
  end.

(** [self.aabb_train if self.training else self.aabb_infer] *)
Definition aabb (self : NeRFRenderer) : list tfloat :=
  if training self then aabb_train self else aabb_infer self.

(** [reset_extra_state] *)
Definition reset_extra_state (self : NeRFRenderer) : NeRFRenderer :=
  match extra self with
  | None => self
  | Some e =>
      set_extra self
        {| density_grid := full_like fzero (density_grid e);
           density_bitfield := density_bitfield e;
           mean_density := fzero;
           iter_density := 0;
           step_counter := full_like 0%Z (step_counter e);
           mean_count := 0;
           local_step := 0 |}
  end.

(* ===================================================================== *)
(** ** External collaborators *)
(* ===================================================================== *)

(** The CUDA extension [raymarching].  A kernel that writes into tensors it
    is given returns their new contents. *)
Class RayMarching : Type := {
  near_far_from_aabb :
    list vec3 → list vec3 → list tfloat → tfloat → list tfloat * list tfloat;
  sph_from_ray : list vec3 → list vec3 → tfloat → list (list tfloat);
  (* rays_o rays_d bound bitfield cascade grid_size nears fars counter
     mean_count perturb 128 force_all_rays dt_gamma max_steps;
     returns xyzs, dirs, deltas, rays and the counter row it filled *)
  march_rays_train :
    list vec3 → list vec3 → tfloat → list Z → Z → Z → list tfloat →
    list tfloat → list Z → Z → bool → Z → bool → tfloat → Z →
    list vec3 * list vec3 * list (list tfloat) * list (list Z) * list Z;
  (* sigmas rgbs deltas rays T_thresh; returns weights_sum, depth, image *)
  composite_rays_train_rgb :
    list tfloat → list (list tfloat) → list (list tfloat) → list (list Z) →
    tfloat → list tfloat * list tfloat * list (list tfloat);
  (* sigmas semantics semantic_class_length deltas rays T_thresh *)
  composite_rays_train_semantic :
    list tfloat → list (list tfloat) → Z → list (list tfloat) →
    list (list Z) → tfloat → list tfloat * list tfloat * list (list tfloat);
  (* n_alive n_step rays_alive rays_t rays_o rays_d bound bitfield cascade
     grid_size nears fars 128 perturb dt_gamma max_steps;
     returns xyzs, dirs, deltas *)
  march_rays :
    Z → Z → list Z → list tfloat → list vec3 → list vec3 → tfloat → list Z →
    Z → Z → list tfloat → list tfloat → Z → bool → tfloat → Z →
    list vec3 * list vec3 * list (list tfloat);
  (* n_alive n_step rays_alive rays_t sigmas rgbs deltas weights_sum depth
     image T_thresh; returns the new rays_alive, rays_t, weights_sum, depth
     and image *)
  composite_rays_rgb :
    Z → Z → list Z → list tfloat → list tfloat → list (list tfloat) →
    list (list tfloat) → list tfloat → list tfloat → list (list tfloat) →
    tfloat →
    list Z * list tfloat * list tfloat * list tfloat * list (list tfloat);
  (* n_alive n_step rays_alive rays_t sigmas semantics semantic_class_length
     deltas weights_sum depth semantic_image T_thresh *)
  composite_rays_semantic :
    Z → Z → list Z → list tfloat → list tfloat → list (list tfloat) → Z →
    list (list tfloat) → list tfloat → list tfloat → list (list tfloat) →
    tfloat →
    list Z * list tfloat * list tfloat * list tfloat * list (list tfloat);
  (* grid thresh bitfield; returns the new bitfield *)
  packbits : list (list tfloat) → tfloat → list Z → list Z;
  morton3D : list (Z * Z * Z) → list Z;
  morton3D_invert : list Z → list (Z * Z * Z)
}.

(** What a subclass of [NeRFRenderer] supplies: [forward] (sigmas, rgbs and
    semantics of a batch of points), [density] (its ['sigma'] entry) and the
    background model used when [bg_radius > 0]. *)
Class NeRFField : Type := {
  forward :
    list vec3 → list vec3 → list tfloat * list (list tfloat) * list (list tfloat);
  density : list vec3 → list tfloat;
  background : list (list tfloat) → list vec3 → list (list tfloat)
}.

(** [torch.rand_like] and [torch.randint], as functions of the generator
    state. *)
Class TorchRandom : Type := {
  rng : Type;
  (* a tensor of [n] uniform triples in [0, 1) *)
  rand_like3 : rng → nat → list vec3 * rng;
  (* [torch.randint(low, high, (n, 3))] *)
  randint3 : rng → Z → Z → nat → M (list (Z * Z * Z) * rng);
  (* [torch.randint(low, high, [n])] *)
  randint1 : rng → Z → Z → nat → M (list Z * rng)
}.

(* ===================================================================== *)
(** ** The ray passes *)
(* ===================================================================== *)

(** The keyword parameters shared by [rays_rgb], [rays_semantic] and
    [run_cuda], after Python has bound them. *)
Record run_opts : Type := {
  dt_gamma : tfloat;
  bg_color : option bg_value;
  perturb : bool;
  force_all_rays : bool;
  max_steps : Z;
  T_thresh : tfloat
}.

(** The tensors the inference loop works on. *)
Record march_state : Type := {
  rays_alive : list Z;                  (* int32, indices of the alive rays *)
  rays_t : list tfloat;
  weights_sum : list tfloat;
  depth_sum : list tfloat;
  channel_sum : list (list tfloat)      (* image, or semantic_image *)
}.

(** One executed round of the inference loop (kept for the statements about
    the loop; the code does not store it). *)
Record round : Type := {
  round_step : Z;        (* [step] when the round starts *)
  round_alive : Z;       (* [n_alive] *)
  round_n_step : Z       (* [n_step] *)
}.

Record loop_result : Type := {
  final_state : march_state;
  final_step : Z;
  rounds : list round
}.

(** [depth = torch.clamp(depth - nears, min=0) / (fars - nears)] for one
    ray. *)
Definition normalize_depth (depth near far : tfloat) : tfloat :=
  fdiv (clamp_min (fsub depth near) fzero) (fsub far near).

(** The same on the [N] tensors. *)
Definition normalize_depths (depth nears fars : list tfloat) : M (list tfloat) :=
  shifted ← map2M fsub depth nears;
  span ← map2M fsub fars nears;
  map2M fdiv ((fun x => clamp_min x fzero) <$> shifted) span.

(** [image + (1 - weights_sum).unsqueeze(-1) * bg_color] for the [N, 3]
    image: the product of the [N, 1] tensor with [bg_color] is formed
    first, then the sum, each with torch's broadcasting. *)
Definition mix_background (image : list (list tfloat)) (ws : list tfloat)
  (bg : bg_value) : M (list (list tfloat)) :=
  let complement := (fun w => [fsub fone w]) <$> ws in
  let '(rb, cb, t) := bg_tensor bg in
  '(rt, ct, scaled) ← broadcast2 fmul (length ws) 1 complement rb cb t;
  '(_, _, image) ← broadcast2 fadd (length image) 3 image rt ct scaled;
  mret image.

(** [n_step = max(min(N // n_alive, 8), 1)] *)
Definition compact_steps (N n_alive : Z) : Z :=
  Z.max (Z.min (N / n_alive) 8) 1.

(** [torch.arange(n)] *)
Definition arange (n : nat) : list Z := Z.of_nat <$> seq 0 n.

(** [sigmas = self.density_scale * sigmas] *)
Definition scale_sigmas (self : NeRFRenderer) (sigmas : list tfloat) : list tfloat :=
  fmul (density_scale self) <$> sigmas.

(** [row[0:len(row)] = 0] for [counter.zero_()] *)
Definition zero_row (row : list Z) : list Z := full_like1 0%Z row.

Section Passes.
Context `{RM : RayMarching} `{F : NeRFField}.

(** The "mix background color" prelude of both passes. *)
Definition resolve_bg (self : NeRFRenderer) (rays_o rays_d : list vec3)
  (bg_color : option bg_value) : bg_value :=
  if fgt (bg_radius self) fzero then
    let sph := sph_from_ray rays_o rays_d (bg_radius self) in
    BgPerRay (background sph rays_d)
  else
    match bg_color with
    | None => BgScalar fone
    | Some bg => bg
    end.

(** [nears] and [fars] of a [B, N, 3] batch, as both passes compute them. *)
Definition nears_of (self : NeRFRenderer) (rays_o rays_d : list (list vec3))
  : list tfloat :=
  (near_far_from_aabb (flatten rays_o) (flatten rays_d) (aabb self) (min_near self)).1.

Definition fars_of (self : NeRFRenderer) (rays_o rays_d : list (list vec3))
  : list tfloat :=
  (near_far_from_aabb (flatten rays_o) (flatten rays_d) (aabb self) (min_near self)).2.

(** The [while step < max_steps] loop of the inference branch.  [body step
    n_alive n_step st] is one round up to and including the compaction
    [rays_alive = rays_alive[rays_alive >= 0]]. *)
Equations? march_loop (body : Z → Z → Z → march_state → M march_state)
  (N max_steps : Z) (step : Z) (st : march_state) (seen : list round)
  : M loop_result by wf (Z.to_nat (max_steps - step)) lt :=
march_loop body N max_steps step st seen with Z_lt_dec step max_steps => {
  | right _ => mret {| final_state := st; final_step := step; rounds := seen |}
  | left Hlt with Z_le_dec (Z.of_nat (length (rays_alive st))) 0 => {
    | left _ => mret {| final_state := st; final_step := step; rounds := seen |}
    | right _ with body step (Z.of_nat (length (rays_alive st)))
                     (compact_steps N (Z.of_nat (length (rays_alive st)))) st => {
      | inl e => inl e
      | inr st' =>
          march_loop body N max_steps
            (step + compact_steps N (Z.of_nat (length (rays_alive st)))) st'
            (seen ++ [ {| round_step := step;
                          round_alive := Z.of_nat (length (rays_alive st));
                          round_n_step :=
                            compact_steps N (Z.of_nat (length (rays_alive st))) |} ])
      }
    }
  }.
Proof. unfold compact_steps. lia. Qed.

(** One round of the RGB loop: march, evaluate the field, composite (the
    kernel updates the five tensors in place), compact the alive rays. *)
Definition rgb_round (self : NeRFRenderer) (rays_o rays_d : list vec3)
  (nears fars : list tfloat) (o : run_opts)
  (step n_alive n_step : Z) (st : march_state) : M march_state :=
  bitfield ← getattr self "density_bitfield" density_bitfield;
  let '(xyzs, dirs, deltas) :=
    march_rays n_alive n_step (rays_alive st) (rays_t st) rays_o rays_d
      (bound self) bitfield (cascade self) (grid_size self) nears fars 128
      (if (step =? 0)%Z then perturb o else false) (dt_gamma o) (max_steps o) in
  let '(sigmas, rgbs, _) := forward xyzs dirs in
  let sigmas := scale_sigmas self sigmas in
  let '(alive, ts, ws, depth, image) :=
    composite_rays_rgb n_alive n_step (rays_alive st) (rays_t st) sigmas rgbs
      deltas (weights_sum st) (depth_sum st) (channel_sum st) (T_thresh o) in
  mret {| rays_alive := filter (fun r => (0 <= r)%Z) alive;
          rays_t := ts; weights_sum := ws; depth_sum := depth;
          channel_sum := image |}.

(** One round of the semantic loop. *)
Definition semantic_round (self : NeRFRenderer) (rays_o rays_d : list vec3)
  (semantic_class_length : Z) (nears fars : list tfloat) (o : run_opts)
  (step n_alive n_step : Z) (st : march_state) : M march_state :=
  bitfield ← getattr self "density_bitfield" density_bitfield;
  let '(xyzs, dirs, deltas) :=
    march_rays n_alive n_step (rays_alive st) (rays_t st) rays_o rays_d
      (bound self) bitfield (cascade self) (grid_size self) nears fars 128
      (if (step =? 0)%Z then perturb o else false) (dt_gamma o) (max_steps o) in
  let '(sigmas, _, semantics) := forward xyzs dirs in
  let sigmas := scale_sigmas self sigmas in
  let '(alive, ts, ws, depth, image) :=
    composite_rays_semantic n_alive n_step (rays_alive st) (rays_t st) sigmas
      semantics semantic_class_length deltas (weights_sum st) (depth_sum st)
      (channel_sum st) (T_thresh o) in
  mret {| rays_alive := filter (fun r => (0 <= r)%Z) alive;
          rays_t := ts; weights_sum := ws; depth_sum := depth;
          channel_sum := image |}.

(** What [torch.zeros] and [torch.empty] raise for a negative size. *)
Definition negative_dimension : exn :=
  RuntimeError "Trying to create tensor with negative dimension".

(** The tensors allocated before the inference loop, for [C] channels. *)
Definition initial_state (N : nat) (C : nat) (nears : list tfloat) : march_state :=
  {| rays_alive := arange N;
     rays_t := nears;
     weights_sum := replicate N fzero;
     depth_sum := replicate N fzero;
     channel_sum := replicate N (replicate C fzero) |}.

(** The set-up of the step counter in the training branch:
    [counter = self.step_counter[self.local_step % 16]; counter.zero_();
    self.local_step += 1].  [counter] is a view of the row, so the row
    itself is zeroed and later filled by [march_rays_train]. *)
Definition training_counter (self : NeRFRenderer) : M (extra_state * nat * list Z) :=
  e ← getattr self "step_counter" id;
  let slot := Z.to_nat (local_step e mod 16) in
  match step_counter e !! slot with
  | None => raise (RuntimeError "IndexError")
  | Some row => mret (e, slot, zero_row row)
  end.

Definition store_counter (self : NeRFRenderer) (e : extra_state) (slot : nat)
  (counter : list Z) : NeRFRenderer :=
  set_extra self
    {| density_grid := density_grid e;
       density_bitfield := density_bitfield e;
       mean_density := mean_density e;
       iter_density := iter_density e;
       step_counter := <[slot := counter]> (step_counter e);
       mean_count := mean_count e;
       local_step := local_step e + 1 |}.

(** The accumulation of [rays_rgb], up to the compositing kernel: the
    training branch (one [march_rays_train] and one
    [composite_rays_train_rgb]) or the inference branch (the round loop).
    Returns [weights_sum_rgb], the accumulated depth and the accumulated
    image, all of [N] rows. *)
Definition rgb_sums (self : NeRFRenderer) (rays_o rays_d : list vec3)
  (nears fars : list tfloat) (o : run_opts)
  : M (NeRFRenderer * (list tfloat * list tfloat * list (list tfloat))) :=
  if training self then
    '(e, slot, counter) ← training_counter self;
    let '(xyzs, dirs, deltas, rays, counter) :=
      march_rays_train rays_o rays_d (bound self) (density_bitfield e)
        (cascade self) (grid_size self) nears fars counter (mean_count e)
        (perturb o) 128 (force_all_rays o) (dt_gamma o) (max_steps o) in
    let self := store_counter self e slot counter in
    let '(sigmas, rgbs, _) := forward xyzs dirs in
    let sigmas := scale_sigmas self sigmas in
    mret (self, composite_rays_train_rgb sigmas rgbs deltas rays (T_thresh o))
  else
    let N := length rays_o in
    r ← march_loop (rgb_round self rays_o rays_d nears fars o)
          (Z.of_nat N) (max_steps o) 0 (initial_state N 3 nears) [];
    let st := final_state r in
    mret (self, (weights_sum st, depth_sum st, channel_sum st)).

(** The accumulation of [rays_semantic].  In the inference branch
    [torch.zeros(N, semantic_class_length)] raises for a negative number
    of classes, before the loop. *)
Definition semantic_sums (self : NeRFRenderer) (rays_o rays_d : list vec3)
  (semantic_class_length : Z) (nears fars : list tfloat) (o : run_opts)
  : M (NeRFRenderer * (list tfloat * list tfloat * list (list tfloat))) :=
  if training self then
    '(e, slot, counter) ← training_counter self;
    let '(xyzs, dirs, deltas, rays, counter) :=
      march_rays_train rays_o rays_d (bound self) (density_bitfield e)
        (cascade self) (grid_size self) nears fars counter (mean_count e)
        (perturb o) 128 (force_all_rays o) (dt_gamma o) (max_steps o) in
    let self := store_counter self e slot counter in
    let '(sigmas, _, semantics) := forward xyzs dirs in
    let sigmas := scale_sigmas self sigmas in
    mret (self, composite_rays_train_semantic sigmas semantics
                  semantic_class_length deltas rays (T_thresh o))
  else
    let N := length rays_o in
    if (semantic_class_length <? 0)%Z then raise negative_dimension
    else
      r ← march_loop
            (semantic_round self rays_o rays_d semantic_class_length nears fars o)
            (Z.of_nat N) (max_steps o) 0
            (initial_state N (Z.to_nat semantic_class_length) nears) [];
      let st := final_state r in
      mret (self, (weights_sum st, depth_sum st, channel_sum st)).

(** [rays_rgb]: writes [weights_sum_rgb] (training only), [depth] and
    [image] into [results].  The statements that follow the accumulation
    (background, depth normalisation, the two views) are the same in both
    branches of the source and are written once here.  The mixed image has
    three columns, so the view of it as [B, N, 3] needs [B * N] rows;
    broadcasting against [bg_color] can give another number. *)
Definition rays_rgb (self : NeRFRenderer) (results : results_dict)
  (rays_o rays_d : list (list vec3)) (semantic_class_length : Z)
  (o : run_opts) : M (NeRFRenderer * results_dict) :=
  let '(B, Np) := shape2 rays_o in
  let rays_o := flatten rays_o in
  let rays_d := flatten rays_d in
  let '(nears, fars) := near_far_from_aabb rays_o rays_d (aabb self) (min_near self) in
  let bg := resolve_bg self rays_o rays_d (bg_color o) in
  '(self', (weights_sum_rgb, depth, image)) ← rgb_sums self rays_o rays_d nears fars o;
  image ← mix_background image weights_sum_rgb bg;
  depth ← normalize_depths depth nears fars;
  _ ← check_view image (B * Np);
  let results :=
    if training self then <["weights_sum_rgb" := RFlat weights_sum_rgb]> results
    else results in
  let results := <["depth" := RScalar (view2 B Np depth)]> results in
  let results := <["image" := RVector (view2 B Np image)]> results in
  mret (self', results).

(** [rays_semantic]: writes [weights_sum_semantic] (training only), [depth]
    and [semantic] into [results].  [bg_color] is computed as in [rays_rgb]
    but not used: the lines that would composite it into the semantic image
    are commented out in the source, in both branches. *)
Definition rays_semantic (self : NeRFRenderer) (results : results_dict)
  (rays_o rays_d : list (list vec3)) (semantic_class_length : Z)
  (o : run_opts) : M (NeRFRenderer * results_dict) :=
  let '(B, Np) := shape2 rays_o in
  let rays_o := flatten rays_o in
  let rays_d := flatten rays_d in
  let '(nears, fars) := near_far_from_aabb rays_o rays_d (aabb self) (min_near self) in
  let bg := resolve_bg self rays_o rays_d (bg_color o) in
  '(self', (weights_sum_semantic, depth, semantic_image)) ←
    semantic_sums self rays_o rays_d semantic_class_length nears fars o;
  depth ← normalize_depths depth nears fars;
  let results :=
    if training self
    then <["weights_sum_semantic" := RFlat weights_sum_semantic]> results
    else results in
  let results := <["depth" := RScalar (view2 B Np depth)]> results in
  let results := <["semantic" := RVector (view2 B Np semantic_image)]> results in
  mret (self', results).

(** [run_cuda]: one fresh [results] dictionary, handed first to the RGB pass
    and then to the semantic pass. *)
Definition run_cuda (self : NeRFRenderer) (rays_o rays_d : list (list vec3))
  (semantic_class_length : Z) (o : run_opts) : M (NeRFRenderer * results_dict) :=
  let results : results_dict := ∅ in
  '(self, results) ← rays_rgb self results rays_o rays_d semantic_class_length o;
  '(self, results) ← rays_semantic self results rays_o rays_d semantic_class_length o;
  mret (self, results).

End Passes.

(* ===================================================================== *)
(** ** The render orchestrator *)
(* ===================================================================== *)

(** The [**kwargs] dictionary [render] forwards to [run_cuda]: an entry per
    keyword parameter of [run_cuda] that the caller supplied.  The name
    [semantic_class_length] cannot occur in it, because it is a parameter
    of [render] itself and Python binds it there. *)
Record kwargs : Type := {
  kw_dt_gamma : option tfloat;
  kw_bg_color : option (option bg_value);
  kw_perturb : option bool;
  kw_force_all_rays : option bool;
  kw_max_steps : option Z;
  kw_T_thresh : option tfloat
}.

(** Python's binding of the keyword parameters of [run_cuda], with the
    defaults of its signature. *)
Definition bind_kwargs (kw : kwargs) : run_opts :=
  {| dt_gamma := default fzero (kw_dt_gamma kw);
     bg_color := default None (kw_bg_color kw);
     perturb := default false (kw_perturb kw);
     force_all_rays := default false (kw_force_all_rays kw);
     max_steps := default 1024%Z (kw_max_steps kw);
     T_thresh := default (FFin (1 # 10000)) (kw_T_thresh kw) |}.

Section Render.
Context `{RM : RayMarching} `{F : NeRFField}.

(** A call [_run(rays_o, rays_d, <positional>, **kwargs)] of the bound
    method [self.run_cuda]: [semantic_class_length] is a required positional
    parameter, and a call that passes no third positional argument raises
    [TypeError] before the body runs. *)
Definition call_run_cuda (self : NeRFRenderer) (rays_o rays_d : list (list vec3))
  (positional : option Z) (kw : kwargs) : M (NeRFRenderer * results_dict) :=
  match positional with
  | Some semantic_class_length =>
      run_cuda self rays_o rays_d semantic_class_length (bind_kwargs kw)
  | None =>
      raise (TypeError
        "run_cuda() missing 1 required positional argument: 'semantic_class_length'")
  end.

(** The three preallocated output buffers of the staged branch. *)
Record buffers : Type := {
  buf_depth : list (list tfloat);
  buf_image : list (list (list tfloat));
  buf_semantic : list (list (list tfloat))
}.

(** The three slice assignments that follow a chunk's call. *)
Definition store_chunk (bufs : buffers) (b head tail : Z) (results_ : results_dict)
  : M buffers :=
  d ← getitem results_ "depth";
  depth ← match d with
          | RScalar d => slice2_assign b head tail (buf_depth bufs) d
          | _ => raise (RuntimeError "shape mismatch")
          end;
  i ← getitem results_ "image";
  image ← match i with
          | RVector i => slice2_assign b head tail (buf_image bufs) i
          | _ => raise (RuntimeError "shape mismatch")
          end;
  s ← getitem results_ "semantic";
  semantic ← match s with
             | RVector s => slice2_assign b head tail (buf_semantic bufs) s
             | _ => raise (RuntimeError "shape mismatch")
             end;
  mret {| buf_depth := depth; buf_image := image; buf_semantic := semantic |}.

(** [while head < N: ...; head += max_ray_batch] for one batch row [b].
    The result is [None] when [fuel] rounds did not reach [head >= N]. *)
Fixpoint staged_row (fuel : nat) (self : NeRFRenderer)
  (rays_o rays_d : list (list vec3)) (kw : kwargs) (N max_ray_batch : Z)
  (b head : Z) (bufs : buffers) : option (M (NeRFRenderer * buffers)) :=
  if (head <? N)%Z then
    match fuel with
    | O => None
    | S fuel' =>
        let tail := Z.min (head + max_ray_batch) N in
        match call_run_cuda self (slice2 b head tail rays_o)
                (slice2 b head tail rays_d) None kw with
        | inl e => Some (inl e)
        | inr (self', results_) =>
            match store_chunk bufs b head tail results_ with
            | inl e => Some (inl e)
            | inr bufs' =>
                staged_row fuel' self' rays_o rays_d kw N max_ray_batch b
                  (head + max_ray_batch) bufs'
            end
        end
    end
  else Some (inr (self, bufs)).

(** [for b in range(B): head = 0; while ...] *)
Fixpoint staged_rows (self : NeRFRenderer) (rays_o rays_d : list (list vec3))
  (kw : kwargs) (N max_ray_batch : Z) (bs : list Z) (bufs : buffers)
  : option (M (NeRFRenderer * buffers)) :=
  match bs with
  | [] => Some (inr (self, bufs))
  | b :: bs' =>
      match staged_row (S (Z.to_nat N)) self rays_o rays_d kw N max_ray_batch
              b 0 bufs with
      | None => None
      | Some (inl e) => Some (inl e)
      | Some (inr (self', bufs')) =>
          staged_rows self' rays_o rays_d kw N max_ray_batch bs' bufs'
      end
  end.

(** [render].  [None] stands for a call that does not return (a staged
    loop that never reaches [head >= N]); [Some (inl e)] for exception [e];
    [Some (inr (self', results))] for the returned dictionary, with the
    renderer as the call left it.  [torch.empty] buffers are filled with
    NaN; [torch.empty((B, N, semantic_class_length))] raises for a negative
    size, before any chunk is rendered. *)
Definition render (self : NeRFRenderer) (rays_o rays_d : list (list vec3))
  (semantic_class_length : Z) (staged : bool) (max_ray_batch : Z) (kw : kwargs)
  : option (M (NeRFRenderer * results_dict)) :=
  let '(B, N) := shape2 rays_o in
  if staged && negb (cuda_ray self) then
    if (semantic_class_length <? 0)%Z then Some (raise negative_dimension)
    else
      let bufs :=
        {| buf_depth := replicate B (replicate N FNaN);
           buf_image := replicate B (replicate N (replicate 3 FNaN));
           buf_semantic :=
             replicate B (replicate N
               (replicate (Z.to_nat semantic_class_length) FNaN)) |} in
      match staged_rows self rays_o rays_d kw (Z.of_nat N) max_ray_batch
              (arange B) bufs with
      | None => None
      | Some (inl e) => Some (inl e)
      | Some (inr (self', bufs)) =>
          let results : results_dict := ∅ in
          let results := <["depth" := RScalar (buf_depth bufs)]> results in
          let results := <["image" := RVector (buf_image bufs)]> results in
          let results := <["semantic" := RVector (buf_semantic bufs)]> results in
          Some (inr (self', results))
      end
  else
    Some (call_run_cuda self rays_o rays_d (Some semantic_class_length) kw).

End Render.

(* ===================================================================== *)
(** ** The grid updater *)
(* ===================================================================== *)

(** [t.split(S)]: consecutive chunks of [S] elements, the last one
    possibly shorter ([fuel] bounds the number of chunks). *)
Fixpoint split_chunks {A} (fuel n : nat) (l : list A) : list (list A) :=
  match fuel, l with
  | O, _ | _, [] => []
  | S fuel', _ => take n l :: split_chunks fuel' n (drop n l)
  end.

Definition torch_split {A} (S : Z) (l : list A) : M (list (list A)) :=
  if (0 <? S)%Z then mret (split_chunks (length l) (Z.to_nat S) l)
  else raise (RuntimeError "split expects a positive split_size").

(** [custom_meshgrid(xs, ys, zs)] followed by the three [reshape(-1, 1)]
    and [torch.cat(..., dim=-1)]: the points of the block, [xs] outermost. *)
Definition block_coords (xs ys zs : list Z) : list (Z * Z * Z) :=
  x ← xs; y ← ys; z ← zs; [(x, y, z)].

(** Python's [a / b] on numbers. *)
Definition py_div (a b : tfloat) : M tfloat :=
  if feqb b fzero then raise ZeroDivisionError else mret (fdiv a b).

(** [2 * coords.float() / (self.grid_size - 1) - 1] for one point. *)
Definition to_unit_cube (grid_size : Z) (c : Z * Z * Z) : vec3 :=
  let f (v : Z) :=
    fsub (fdiv (fmul (of_Z 2) (of_Z v)) (of_Z (grid_size - 1))) fone in
  let '(x, y, z) := c in (f x, f y, f z).

(** [xyzs * (bound - half_grid_size)] followed by
    [+= (noise * 2 - 1) * half_grid_size] for one point. *)
Definition jitter (bound half_grid_size : tfloat) (p noise : vec3) : vec3 :=
  let f (v u : tfloat) :=
    fadd (fmul v (fsub bound half_grid_size))
         (fmul (fsub (fmul u (of_Z 2)) fone) half_grid_size) in
  let '(x, y, z) := p in
  let '(u, v, w) := noise in (f x u, f y v, f z w).

(** [row[indices] = values]: the writes one after the other (with a
    repeated index the last one stays). *)
Fixpoint scatter (row : list tfloat) (indices : list Z) (values : list tfloat)
  : M (list tfloat) :=
  match indices, values with
  | [], [] => mret row
  | i :: indices', v :: values' =>
      if decide (0 <= i < Z.of_nat (length row))%Z then
        scatter (<[Z.to_nat i := v]> row) indices' values'
      else raise (RuntimeError "index out of range")
  | _, _ => raise (RuntimeError "shape mismatch")
  end.

(** [t[cas, indices] = values] *)
Definition scatter_row (t : list (list tfloat)) (cas : Z) (indices : list Z)
  (values : list tfloat) : M (list (list tfloat)) :=
  match t !! Z.to_nat cas with
  | Some row => row' ← scatter row indices values; mret (<[Z.to_nat cas := row']> t)
  | None => raise (RuntimeError "IndexError")
  end.

(** [torch.nonzero(row > 0).squeeze(-1)] *)
Definition occupied_indices (row : list tfloat) : list Z :=
  (fun p => Z.of_nat p.1) <$> filter (fun p => fgt p.2 fzero = true) (imap pair row).

(** [idx[mask]]: gather. *)
Definition gather (idx : list Z) (mask : list Z) : M (list Z) :=
  mapM (fun k => match idx !! Z.to_nat k with
                 | Some v => if decide (0 <= k)%Z then mret v
                             else raise (RuntimeError "index out of range")
                 | None => raise (RuntimeError "index out of range")
                 end) mask.

(** The "ema update" of one voxel:
    [valid_mask = (density_grid >= 0) & (tmp_grid >= 0)] selects it, and a
    selected voxel becomes [torch.maximum(old * decay, tmp)]. *)
Definition valid_mask (old tmp : tfloat) : bool := fge old fzero && fge tmp fzero.

Definition ema_cell (decay old tmp : tfloat) : tfloat :=
  if valid_mask old tmp then maximum (fmul old decay) tmp else old.

(** [self.density_grid[count == 0] = -1], the last statement of
    [mark_untrained_grid]; [count] is the [CAS, H * H * H] tensor of the
    number of training cameras that see each voxel. *)
Definition mark_cell (old : tfloat) (count : Z) : tfloat :=
  if (count =? 0)%Z then of_Z (-1) else old.

Definition mark_untrained (grid : list (list tfloat)) (count : list (list Z))
  : list (list tfloat) :=
  zip_with (zip_with mark_cell) grid count.

(** The ema update on the whole [CAS, H * H * H] grid. *)
Definition ema_update (decay : tfloat) (grid tmp_grid : list (list tfloat))
  : list (list tfloat) :=
  zip_with (zip_with (ema_cell decay)) grid tmp_grid.

(** [torch.mean(self.density_grid.clamp(min=0)).item()] *)
Definition clamped_mean (grid : list (list tfloat)) : tfloat :=
  fmean ((fun x => clamp_min x fzero) <$> concat grid).

(** [int(self.step_counter[:total_step, 0].sum().item() / total_step)]:
    the quotient truncated towards zero (the float rounding of the
    quotient is not modelled). *)
Definition averaged_count (step_counter : list (list Z)) (total_step : Z) : Z :=
  let col := (fun row => default 0%Z (head row)) <$> py_slice 0 total_step step_counter in
  Z.quot (foldr Z.add 0%Z col) total_step.

Section Updater.
Context `{RM : RayMarching} `{F : NeRFField} `{TR : TorchRandom}.

(** The lines shared by both sweeps: scale, jitter, query the density and
    assign row [cas] of [tmp_grid]. *)
Definition query_and_assign (self : NeRFRenderer) (g : rng) (cas : Z)
  (coords : list (Z * Z * Z)) (indices : list Z) (tmp_grid : list (list tfloat))
  : M (list (list tfloat) * rng) :=
  let xyzs := to_unit_cube (grid_size self) <$> coords in
  let bound := py_min (of_Z (2 ^ cas)) (bound self) in
  half_grid_size ← py_div bound (of_Z (grid_size self));
  let '(noise, g) := rand_like3 g (length xyzs) in
  cas_xyzs ← map2M (jitter bound half_grid_size) xyzs noise;
  let sigmas := density cas_xyzs in
  let sigmas := (fun s => fmul s (density_scale self)) <$> sigmas in
  tmp_grid ← scatter_row tmp_grid cas indices sigmas;
  mret (tmp_grid, g).

(** [for cas in range(self.cascade)] of the full sweep, for one block. *)
Fixpoint full_cascades (self : NeRFRenderer) (g : rng) (cass : list Z)
  (coords : list (Z * Z * Z)) (indices : list Z) (tmp_grid : list (list tfloat))
  : M (list (list tfloat) * rng) :=
  match cass with
  | [] => mret (tmp_grid, g)
  | cas :: cass' =>
      '(tmp_grid, g) ← query_and_assign self g cas coords indices tmp_grid;
      full_cascades self g cass' coords indices tmp_grid
  end.

(** The three nested loops over the blocks, flattened into one list of
    blocks in the order the loops visit them. *)
Fixpoint full_blocks (self : NeRFRenderer) (g : rng)
  (blocks : list (list Z * list Z * list Z)) (tmp_grid : list (list tfloat))
  : M (list (list tfloat) * rng) :=
  match blocks with
  | [] => mret (tmp_grid, g)
  | (xs, ys, zs) :: blocks' =>
      let coords := block_coords xs ys zs in
      let indices := morton3D coords in
      '(tmp_grid, g) ←
        full_cascades self g (arange (Z.to_nat (cascade self))) coords indices tmp_grid;
      full_blocks self g blocks' tmp_grid
  end.

(** The "full update" branch. *)
Definition full_sweep (self : NeRFRenderer) (g : rng) (S : Z)
  (tmp_grid : list (list tfloat)) : M (list (list tfloat) * rng) :=
  X ← torch_split S (arange (Z.to_nat (grid_size self)));
  Y ← torch_split S (arange (Z.to_nat (grid_size self)));
  Zs ← torch_split S (arange (Z.to_nat (grid_size self)));
  full_blocks self g (xs ← X; ys ← Y; zs ← Zs; [(xs, ys, zs)]) tmp_grid.

(** The "partial update" branch. *)
Fixpoint partial_sweep (self : NeRFRenderer) (e : extra_state) (g : rng)
  (cass : list Z) (tmp_grid : list (list tfloat)) : M (list (list tfloat) * rng) :=
  match cass with
  | [] => mret (tmp_grid, g)
  | cas :: cass' =>
      let N := Z.to_nat (grid_size self ^ 3 / 4) in
      '(coords, g) ← randint3 g 0 (grid_size self) N;
      let indices := morton3D coords in
      row ← match density_grid e !! Z.to_nat cas with
            | Some row => mret row
            | None => raise (RuntimeError "IndexError")
            end;
      let occ_indices := occupied_indices row in
      '(rand_mask, g) ← randint1 g 0 (Z.of_nat (length occ_indices)) N;
      occ_indices ← gather occ_indices rand_mask;
      let occ_coords := morton3D_invert occ_indices in
      let indices := indices ++ occ_indices in
      let coords := coords ++ occ_coords in
      '(tmp_grid, g) ← query_and_assign self g cas coords indices tmp_grid;
      partial_sweep self e g cass' tmp_grid
  end.

(** Lines 419-480: [tmp_grid], the freshly evaluated densities ([-1] where
    nothing was evaluated). *)
Definition sweep (self : NeRFRenderer) (e : extra_state) (g : rng) (S : Z)
  : M (list (list tfloat) * rng) :=
  let tmp_grid := full_like (of_Z (-1)) (density_grid e) in
  if (iter_density e <? 16)%Z then full_sweep self g S tmp_grid
  else partial_sweep self e g (arange (Z.to_nat (cascade self))) tmp_grid.

(** Lines 487-502: the ema update, the new threshold and bitfield, and the
    step counter. *)
Definition apply_update (self : NeRFRenderer) (e : extra_state) (decay : tfloat)
  (tmp_grid : list (list tfloat)) : extra_state :=
  let grid := ema_update decay (density_grid e) tmp_grid in
  let mean := clamped_mean grid in
  let thresh := py_min mean (density_thresh self) in
  let bitfield := packbits grid thresh (density_bitfield e) in
  let total_step := Z.min 16 (local_step e) in
  {| density_grid := grid;
     density_bitfield := bitfield;
     mean_density := mean;
     iter_density := iter_density e + 1;
     step_counter := step_counter e;
     mean_count :=
       if (0 <? total_step)%Z then averaged_count (step_counter e) total_step
       else mean_count e;
     local_step := 0 |}.

(** [update_extra_state(decay, S)] *)
Definition update_extra_state (self : NeRFRenderer) (g : rng) (decay : tfloat)
  (S : Z) : M (NeRFRenderer * rng) :=
  match extra self with
  | None => mret (self, g)
  | Some e =>
      '(tmp_grid, g) ← sweep self e g S;
      mret (set_extra self (apply_update self e decay tmp_grid), g)
  end.

End Updater.

(* ===================================================================== *)
(** ** Vocabulary of the statements *)
(* ===================================================================== *)


(** What holds of an executed round: it started below the cap with at least
    one alive ray, and its step count is the one the code computes. *)
Definition round_ok (N max_steps : Z) (rd : round) : Prop :=
  (round_step rd < max_steps)%Z
  ∧ (0 < round_alive rd)%Z
  ∧ round_n_step rd = compact_steps N (round_alive rd).

(** The steps a list of rounds adds to the counter. *)
Definition steps_total (l : list round) : Z :=
  foldr (fun rd acc => (round_n_step rd + acc)%Z) 0%Z l.

(** Consecutive rounds: each one starts where the previous one left the
    counter. *)
Fixpoint chained (step : Z) (l : list round) : Prop :=
  match l with
  | [] => True
  | rd :: l' => round_step rd = step ∧ chained (step + round_n_step rd) l'
  end.

(** How a run of the inference loop ends: with the exception of a round
    (the missing [density_bitfield] of a renderer without [cuda_ray]), or
    after at most [max_steps] rounds, each of which advanced the counter by
    at least one, with the counter at the cap or no ray alive. *)
Definition loop_exit (self : NeRFRenderer) (max_steps : Z) (res : M loop_result)
  : Prop :=
  match res with
  | inl e => cuda_ray self = false ∧ e = AttributeError "density_bitfield"
  | inr r =>
      (Z.of_nat (length (rounds r)) <= Z.max 0 max_steps)%Z
      ∧ Forall (fun rd => (1 <= round_n_step rd)%Z
                          ∧ (round_step rd < max_steps)%Z) (rounds r)
      ∧ final_step r = steps_total (rounds r)
      ∧ ((max_steps <= final_step r)%Z ∨ rays_alive (final_state r) = [])
  end.

(** [depth] is the per-ray normalisation of the accumulated depths [ds]. *)
Definition per_ray_depth (ds nears fars depth : list tfloat) : Prop :=
  length depth = length ds
  ∧ ∀ i d n f, ds !! i = Some d → nears !! i = Some n → fars !! i = Some f →
      depth !! i = Some (normalize_depth d n f).



(** Entry [i, c] of [bg_color] as torch broadcasts it against an image of
    rows [i] and channels [c]: a number is every entry; a dimension of
    size 1 is repeated. *)
Definition bg_at (bg : bg_value) (i c : nat) : option tfloat :=
  match bg with
  | BgScalar x => Some x
  | BgChannels ch => ch !! broadcast_index (length ch) c
  | BgPerRay t =>
      row ← t !! broadcast_index (length t) i;
      row !! broadcast_index (columns 3 t) c
  end.

(** [image] is the background mix of the accumulated image [img] with the
    accumulated weights [ws]: it has three channels, and each of its
    entries is [v + (1 - w) * b] for the entries [v], [w] and [b] that
    broadcasting reads in [img], [ws] and [bg_color]. *)
Definition per_ray_mix (img : list (list tfloat)) (ws : list tfloat)
  (bg : bg_value) (image : list (list tfloat)) : Prop :=
  Forall (fun px => length px = 3) image
  ∧ ∀ i c, i < length image → c < 3 →
      ∃ v w b,
        entry img (broadcast_index (length img) i) c = Some v
        ∧ ws !! broadcast_index (length ws) i = Some w
        ∧ bg_at bg i c = Some b
        ∧ entry image i c = Some (fadd v (fmul (fsub fone w) b)).

(** [o] with another [bg_color] argument. *)
Definition with_bg (o : run_opts) (bg : option bg_value) : run_opts :=
  {| dt_gamma := dt_gamma o; bg_color := bg; perturb := perturb o;
     force_all_rays := force_all_rays o; max_steps := max_steps o;
     T_thresh := T_thresh o |}.

(** What the call of [run_cuda] without [semantic_class_length] raises. *)
Definition missing_argument : exn :=
  TypeError
    "run_cuda() missing 1 required positional argument: 'semantic_class_length'".

(** Element [i] of row [cas] of a 2-D tensor. *)
Definition cell {A} (t : list (list A)) (cas i : nat) : option A :=
  t !! cas ≫= (.!! i).

(** The row lengths of a 2-D tensor. *)
Definition shape_of {A} (t : list (list A)) : list nat := length <$> t.

Section Successive.
Context `{RM : RayMarching} `{F : NeRFField} `{TR : TorchRandom}.

(** Successive calls [update_extra_state(decay, S)], one per element of
    [calls]. *)
Fixpoint update_many (self : NeRFRenderer) (g : rng) (calls : list (tfloat * Z))
  : M (NeRFRenderer * rng) :=
  match calls with
  | [] => mret (self, g)
  | (decay, size) :: calls' =>
      '(self, g) ← update_extra_state self g decay size;
      update_many self g calls'
  end.

End Successive.


(* ===================================================================== *)
(** ** Inverse-CDF sampling: [sample_pdf] *)
(* ===================================================================== *)

(** The literal [1e-5]. *)
Definition pdf_eps : tfloat := FFin (1 # 100000).

(** [torch.cumsum(l, -1)] of one row. *)
Fixpoint cumsum_from (acc : tfloat) (l : list tfloat) : list tfloat :=
  match l with
  | [] => []
  | x :: l' => fadd acc x :: cumsum_from (fadd acc x) l'
  end.

Definition cumsum (l : list tfloat) : list tfloat :=
  match l with
  | [] => []
  | x :: l' => x :: cumsum_from x l'
  end.

(** One row of the "Get pdf" part: [weights + 1e-5], normalised by its sum,
    accumulated, with a leading zero taken from [zeros_like(cdf[..., :1])]
    (so the row is empty when there is no weight). *)
Definition cdf_of (weights : list tfloat) : list tfloat :=
  let weights := (fun w => fadd w pdf_eps) <$> weights in
  let pdf := (fun w => fdiv w (fsum weights)) <$> weights in
  let cdf := cumsum pdf in
  full_like1 fzero (take 1 cdf) ++ cdf.

(** [torch.linspace(start, end, steps)] *)
Definition linspace (start stop : tfloat) (steps : Z) : M (list tfloat) :=
  if (steps <? 0)%Z then
    raise (RuntimeError "number of steps must be non-negative")
  else if (steps =? 1)%Z then mret [start]
  else
    mret ((fun k => fadd start
                      (fmul (of_Z k) (fdiv (fsub stop start) (of_Z (steps - 1)))))
            <$> arange (Z.to_nat steps)).

(** [torch.searchsorted(cdf, u, right=True)] for one value, on the sorted
    sequences it is specified for: the number of elements [<= u]. *)
Definition searchsorted_right (cdf : list tfloat) (u : tfloat) : Z :=
  Z.of_nat (length (filter (fun c => fle c u = true) cdf)).

(** Rows of two tensors with the same leading dimension, combined by an
    operation that can fail. *)
Fixpoint zipM {A B C} (f : A → B → M C) (l1 : list A) (l2 : list B)
  : M (list C) :=
  match l1, l2 with
  | [], [] => mret []
  | a :: l1', b :: l2' => c ← f a b; rest ← zipM f l1' l2'; mret (c :: rest)
  | _, _ => raise (RuntimeError "shape mismatch")
  end.

(** One dimension of [t.expand(...)]: the size asked for is the size the
    tensor has, or the tensor has size 1 there and its entry is repeated. *)
Definition expand_dim {A} (l : list A) (n : nat) : M (list A) :=
  if decide (length l = n) then mret l
  else match l with
       | [x] => mret (replicate n x)
       | _ => raise (RuntimeError
                "The expanded size of the tensor must match the existing size")
       end.

(** The first and the last dimension of
    [t.unsqueeze(1).expand(matched_shape)] for a 2-D tensor [t]; the middle
    one repeats each row for the samples of the row, which [gather_pairs]
    does. *)
Definition expand_rows {A} (t : list (list A)) (B T : nat) : M (list (list A)) :=
  rows ← expand_dim t B;
  mapM (fun row => expand_dim row T) rows.

(** One element of [torch.gather(row, -1, index)]. *)
Definition gather1 (row : list tfloat) (i : Z) : M tfloat :=
  if (i <? 0)%Z then raise (RuntimeError "index out of range")
  else match row !! Z.to_nat i with
       | Some v => mret v
       | None => raise (RuntimeError "index out of range")
       end.

Definition gather_pair (row : list tfloat) (i : Z * Z) : M (tfloat * tfloat) :=
  lo ← gather1 row i.1; hi ← gather1 row i.2; mret (lo, hi).

(** [torch.gather(t, 2, inds_g)] for [t] expanded to [matched_shape]: for
    every sample of row [b], the two entries of row [b] of [t] that
    [inds_g] names.  The cdf has the first and the last dimension of
    [matched_shape] as it is; the bins are expanded to them first. *)
Definition gather_pairs (t : list (list tfloat)) (inds_g : list (list (Z * Z)))
  : M (list (list (tfloat * tfloat))) :=
  zipM (fun row idx => mapM (gather_pair row) idx) t inds_g.

(** Elementwise operations on 2-D tensors of one shape. *)
Definition map2d {A B} (f : A → B) (t : list (list A)) : list (list B) :=
  (fun row : list A => f <$> row) <$> t.
Definition zip2d {A B C} (f : A → B → C) (t1 : list (list A))
  (t2 : list (list B)) : list (list C) :=
  zip_with (zip_with f) t1 t2.

(** [sample_pdf(bins, weights, n_samples, det)]; [draw] is what
    [torch.rand] returns when [det] is false, of shape [B, n_samples].
    In [0.5 / n_samples] Python divides two numbers. *)
Definition sample_pdf (bins weights : list (list tfloat)) (n_samples : Z)
  (det : bool) (draw : list (list tfloat)) : M (list (list tfloat)) :=
  (* Get pdf *)
  let cdf := cdf_of <$> weights in
  (* Take uniform samples *)
  u ← (if det then
         half ← py_div (FFin (1 # 2)) (of_Z n_samples);
         row ← linspace (fadd fzero half) (fsub fone half) n_samples;
         mret (replicate (length cdf) row)
       else mret draw);
  (* Invert CDF *)
  inds ← map2M (fun row us => searchsorted_right row <$> us) cdf u;
  let below := map2d (fun i => Z.max 0 (i - 1)) inds in
  let above :=
    map2d (fun i => Z.min (Z.of_nat (shape2 cdf).2 - 1) i) inds in
  let inds_g := zip2d pair below above in
  cdf_g ← gather_pairs cdf inds_g;
  bins_e ← expand_rows bins (length inds_g) (shape2 cdf).2;
  bins_g ← gather_pairs bins_e inds_g;
  let denom := map2d (fun p : tfloat * tfloat => fsub p.2 p.1) cdf_g in
  let denom := map2d (fun d => if flt d pdf_eps then fone else d) denom in
  let t := zip2d fdiv (zip2d fsub u (map2d fst cdf_g)) denom in
  mret (zip2d fadd (map2d fst bins_g)
          (zip2d fmul t (zip2d fsub (map2d snd bins_g) (map2d fst bins_g)))).

(* ===================================================================== *)
(** ** The constructor *)
(* ===================================================================== *)

(** [math.log2] on the finite positive numbers.  Its result is rounded, so
    it is not computed here.  The laws are those of a rounding that never
    crosses a representable value: the result is a finite float, it is [k]
    at [2 ** k], and it is on the side of [k] on which its argument is of
    [2 ** k] (the laws are stated for the powers from 1 on). *)
Class PyMath : Type := {
  math_log2 : Q → tfloat;
  math_log2_finite : ∀ q : Q, (0 < q)%Q → ∃ r, math_log2 q = FFin r;
  math_log2_exact : ∀ (k : Z) (q : Q),
    (0 <= k)%Z → (q == inject_Z (2 ^ k))%Q → math_log2 q = FFin (inject_Z k);
  math_log2_le : ∀ (k : Z) (q : Q),
    (0 <= k)%Z → (0 < q)%Q → (q <= inject_Z (2 ^ k))%Q →
    fle (math_log2 q) (of_Z k) = true;
  math_log2_ge : ∀ (k : Z) (q : Q),
    (0 <= k)%Z → (inject_Z (2 ^ k) <= q)%Q →
    fle (of_Z k) (math_log2 q) = true
}.

(** [math.ceil] of a float: exact, and it raises [OverflowError] on an
    infinity and [ValueError] on NaN.  The exceptions that are no
    constructor of [exn] are carried by [RuntimeError] under their name. *)
Definition math_ceil (x : tfloat) : M Z :=
  match x with
  | FFin r => mret (Qceiling r)
  | FInf _ =>
      raise (RuntimeError "OverflowError: cannot convert float infinity to integer")
  | FNaN => raise (RuntimeError "ValueError: cannot convert float NaN to integer")
  end.

Section Constructor.
Context `{PM : PyMath}.

(** [1 + math.ceil(math.log2(bound))]: [math.log2] raises [ValueError] on
    a bound that is not positive, and returns its argument for +inf and
    NaN. *)
Definition cascade_of (bound : tfloat) : M Z :=
  match bound with
  | FFin q =>
      if Qle_bool q 0 then raise (RuntimeError "ValueError: math domain error")
      else c ← math_ceil (math_log2 q); mret (1 + c)%Z
  | FInf false => c ← math_ceil (FInf false); mret (1 + c)%Z
  | FInf true => raise (RuntimeError "ValueError: math domain error")
  | FNaN => c ← math_ceil FNaN; mret (1 + c)%Z
  end.

(** The buffers registered under [if cuda_ray:]. *)
Definition fresh_extra (cascade grid_size : Z) : extra_state :=
  {| density_grid :=
       replicate (Z.to_nat cascade) (replicate (Z.to_nat (grid_size ^ 3)) fzero);
     density_bitfield := replicate (Z.to_nat (cascade * grid_size ^ 3 / 8)) 0%Z;
     mean_density := fzero;
     iter_density := 0;
     step_counter := replicate 16 [0%Z; 0%Z];
     mean_count := 0;
     local_step := 0 |}.

(** [NeRFRenderer.__init__(bound, cuda_ray, density_scale, min_near,
    density_thresh, bg_radius)].  A module is in training mode when it is
    constructed; [torch.zeros] refuses a negative dimension. *)
Definition init (bound : tfloat) (cuda_ray : bool)
  (density_scale min_near density_thresh bg_radius : tfloat) : M NeRFRenderer :=
  cascade ← cascade_of bound;
  let grid_size := 128%Z in
  let aabb_train :=
    [fneg bound; fneg bound; fneg bound; bound; bound; bound] in
  extra ← (if cuda_ray then
             if (cascade <? 0)%Z
             then raise (RuntimeError "negative dimension")
             else mret (Some (fresh_extra cascade grid_size))
           else mret None);
  mret {| bound := bound; cascade := cascade; grid_size := grid_size;
          density_scale := density_scale; min_near := min_near;
          density_thresh := density_thresh; bg_radius := bg_radius;
          aabb_train := aabb_train; aabb_infer := aabb_train;
          training := true; extra := extra |}.

End Constructor.

(* ===================================================================== *)
(** ** The visibility pass *)
(* ===================================================================== *)

(** [torch.abs] *)
Definition fabs (x : tfloat) : tfloat :=
  match x with
  | FFin q => FFin (Qabs q)
  | FInf _ => FInf false
  | FNaN => FNaN
  end.

(** One [4, 4] camera-to-world matrix of [poses], of which the pass reads
    the rows of [poses[s, :3, :3]] and the column [poses[s, :3, 3]]. *)
Record pose : Type := {
  rotation : vec3 * vec3 * vec3;
  translation : vec3
}.

(** [fx, fy, cx, cy = intrinsic] *)
Record intrinsics : Type := {
  intr_fx : tfloat; intr_fy : tfloat; intr_cx : tfloat; intr_cy : tfloat
}.

(** One point of [(cas_world_xyzs - poses[s, :3, 3]) @ poses[s, :3, :3]]. *)
Definition to_camera (p : pose) (w : vec3) : vec3 :=
  let '(r0, r1, r2) := rotation p in
  let '(r00, r01, r02) := r0 in
  let '(r10, r11, r12) := r1 in
  let '(r20, r21, r22) := r2 in
  let '(tx, ty, tz) := translation p in
  let '(wx, wy, wz) := w in
  let dx := fsub wx tx in
  let dy := fsub wy ty in
  let dz := fsub wz tz in
  let dot (a b c : tfloat) := fadd (fadd (fmul dx a) (fmul dy b)) (fmul dz c) in
  (dot r00 r10 r20, dot r01 r11 r21, dot r02 r12 r22).

(** [mask_z & mask_x & mask_y] for one camera and one point.  The four
    entries of [intrinsic] are array scalars, so [cx / fx] is the IEEE
    division. *)
Definition covered (k : intrinsics) (half_grid_size : tfloat) (p : pose)
  (w : vec3) : bool :=
  let '(x, y, z) := to_camera p w in
  fgt z fzero
  && flt (fabs x)
       (fadd (fmul (fdiv (intr_cx k) (intr_fx k)) z)
             (fmul half_grid_size (of_Z 2)))
  && flt (fabs y)
       (fadd (fmul (fdiv (intr_cy k) (intr_fy k)) z)
             (fmul half_grid_size (of_Z 2))).

(** [(mask_z & mask_x & mask_y).sum(0)] over a batch of cameras: for each
    point, the number of cameras of the batch that cover it. *)
Definition batch_mask (k : intrinsics) (half_grid_size : tfloat)
  (batch : list pose) (points : list vec3) : list Z :=
  (fun w => Z.of_nat (length (filter (fun p => covered k half_grid_size p w = true) batch)))
    <$> points.

(** [row[indices] += mask]: the sums [row[i] + m] are formed from the row
    as it was, then written one after the other. *)
Fixpoint scatter_sums (orig row : list Z) (indices mask : list Z) : M (list Z) :=
  match indices, mask with
  | [], [] => mret row
  | i :: indices', m :: mask' =>
      match orig !! Z.to_nat i with
      | Some v =>
          if decide (0 <= i)%Z
          then scatter_sums orig (<[Z.to_nat i := (v + m)%Z]> row) indices' mask'
          else raise (RuntimeError "index out of range")
      | None => raise (RuntimeError "index out of range")
      end
  | _, _ => raise (RuntimeError "shape mismatch")
  end.

(** [count[cas, indices] += mask] *)
Definition scatter_add (count : list (list Z)) (cas : Z) (indices mask : list Z)
  : M (list (list Z)) :=
  match count !! Z.to_nat cas with
  | Some row =>
      row' ← scatter_sums row row indices mask;
      mret (<[Z.to_nat cas := row']> count)
  | None => raise (RuntimeError "IndexError")
  end.

(** [xyzs * (bound - half_grid_size)] for one point. *)
Definition scale_point (bound half_grid_size : tfloat) (p : vec3) : vec3 :=
  let '(x, y, z) := p in
  (fmul x (fsub bound half_grid_size), fmul y (fsub bound half_grid_size),
   fmul z (fsub bound half_grid_size)).

Section Visibility.
Context `{RM : RayMarching}.

(** [while head < B: ...; head += S], the batches of cameras.  [size] is
    [S], positive here: [split(S)] has succeeded before. *)
Equations? count_poses (size : positive) (poses : list pose) (k : intrinsics)
  (half_grid_size : tfloat) (points : list vec3) (cas : Z) (indices : list Z)
  (start : Z) (count : list (list Z)) : M (list (list Z))
  by wf (Z.to_nat (Z.of_nat (length poses) - start)) lt :=
count_poses size poses k half_grid_size points cas indices start count
  with Z_lt_dec start (Z.of_nat (length poses)) => {
  | right _ => mret count
  | left _ with scatter_add count cas indices
                  (batch_mask k half_grid_size
                     (py_slice start
                        (Z.min (start + Z.pos size) (Z.of_nat (length poses))) poses)
                     points) => {
    | inl e => inl e
    | inr count' =>
        count_poses size poses k half_grid_size points cas indices
          (start + Z.pos size) count'
    }
  }.
Proof. lia. Qed.

(** [for cas in range(self.cascade)] for one block. *)
Fixpoint count_cascades (self : NeRFRenderer) (S : positive) (poses : list pose)
  (k : intrinsics) (world_xyzs : list vec3) (indices : list Z) (cass : list Z)
  (count : list (list Z)) : M (list (list Z)) :=
  match cass with
  | [] => mret count
  | cas :: cass' =>
      let bound := py_min (of_Z (2 ^ cas)) (bound self) in
      half_grid_size ← py_div bound (of_Z (grid_size self));
      let cas_world_xyzs := scale_point bound half_grid_size <$> world_xyzs in
      count ← count_poses S poses k half_grid_size cas_world_xyzs cas indices 0 count;
      count_cascades self S poses k world_xyzs indices cass' count
  end.

(** The three loops over the blocks. *)
Fixpoint count_blocks (self : NeRFRenderer) (S : positive) (poses : list pose)
  (k : intrinsics) (blocks : list (list Z * list Z * list Z))
  (count : list (list Z)) : M (list (list Z)) :=
  match blocks with
  | [] => mret count
  | (xs, ys, zs) :: blocks' =>
      let coords := block_coords xs ys zs in
      let indices := morton3D coords in
      let world_xyzs := to_unit_cube (grid_size self) <$> coords in
      count ← count_cascades self S poses k world_xyzs indices
                (arange (Z.to_nat (cascade self))) count;
      count_blocks self S poses k blocks' count
  end.

(** [mark_untrained_grid(poses, intrinsic, S)] *)
Definition mark_untrained_grid (self : NeRFRenderer) (poses : list pose)
  (k : intrinsics) (S : Z) : M NeRFRenderer :=
  match extra self with
  | None => mret self
  | Some e =>
      X ← torch_split S (arange (Z.to_nat (grid_size self)));
      Y ← torch_split S (arange (Z.to_nat (grid_size self)));
      Zs ← torch_split S (arange (Z.to_nat (grid_size self)));
      let count := full_like 0%Z (density_grid e) in
      count ← count_blocks self (Z.to_pos S) poses k
                (xs ← X; ys ← Y; zs ← Zs; [(xs, ys, zs)]) count;
      mret (set_extra self
              {| density_grid := mark_untrained (density_grid e) count;
                 density_bitfield := density_bitfield e;
                 mean_density := mean_density e;
                 iter_density := iter_density e;
                 step_counter := step_counter e;
                 mean_count := mean_count e;
                 local_step := local_step e |})
  end.

End Visibility.

(* ===================================================================== *)
(** ** Vocabulary of the further statements *)
(* ===================================================================== *)

(** The exception of a pass on a renderer without the extra buffers. *)
Definition no_buffers_error (self : NeRFRenderer) : exn :=
  if training self then AttributeError "step_counter"
  else AttributeError "density_bitfield".

(** The ring-buffer slot a training pass uses. *)
Definition counter_slot (e : extra_state) : nat := Z.to_nat (local_step e mod 16).

(** A round that respects the budget of [N] samples: at most [N] alive
    rays, and [n_alive * n_step] at most [N]. *)
Definition within_budget (N : Z) (rd : round) : Prop :=
  (round_alive rd <= N)%Z ∧ (round_alive rd * round_n_step rd <= N)%Z.

(** The alive counts of consecutive rounds never grow. *)
Fixpoint alive_decreasing (n : Z) (l : list round) : Prop :=
  match l with
  | [] => True
  | rd :: l' => (round_alive rd <= n)%Z ∧ alive_decreasing (round_alive rd) l'
  end.

(** The attributes [update_extra_state], [reset_extra_state] and
    [mark_untrained_grid] leave alone. *)
Definition same_configuration (self self' : NeRFRenderer) : Prop :=
  bound self' = bound self ∧ cascade self' = cascade self
  ∧ grid_size self' = grid_size self
  ∧ density_scale self' = density_scale self
  ∧ min_near self' = min_near self
  ∧ density_thresh self' = density_thresh self
  ∧ bg_radius self' = bg_radius self
  ∧ aabb_train self' = aabb_train self ∧ aabb_infer self' = aabb_infer self
  ∧ training self' = training self.

Section KernelContracts.
Context `{RM : RayMarching}.

(** The two inference compositors write into [rays_alive] in place: the
    tensor keeps its length. *)
Definition composites_in_place : Prop :=
  (∀ a b alive ts sg ch dl ws dp im T,
     length (composite_rays_rgb a b alive ts sg ch dl ws dp im T).1.1.1.1
     = length alive)
  ∧ (∀ a b alive ts sg ch K dl ws dp im T,
       length (composite_rays_semantic a b alive ts sg ch K dl ws dp im T).1.1.1.1
       = length alive).

(** The camera counts of a call of [mark_untrained_grid]: a function of the
    arguments, of the configuration and of the shape of the grid only. *)
Definition visibility_count (self : NeRFRenderer) (shape : list (list tfloat))
  (poses : list pose) (k : intrinsics) (S : Z) : M (list (list Z)) :=
  X ← torch_split S (arange (Z.to_nat (grid_size self)));
  Y ← torch_split S (arange (Z.to_nat (grid_size self)));
  Zs ← torch_split S (arange (Z.to_nat (grid_size self)));
  count_blocks self (Z.to_pos S) poses k
    (xs ← X; ys ← Y; zs ← Zs; [(xs, ys, zs)]) (full_like 0%Z shape).

End KernelContracts.


(** A tensor of finite values. *)
Definition finite (t : list (list Q)) : list (list tfloat) :=
  (fun row : list Q => FFin <$> row) <$> t.

(** The running sums of a row of rationals. *)
Fixpoint qcumsum_from (acc : Q) (l : list Q) : list Q :=
  match l with
  | [] => []
  | x :: l' => (acc + x)%Q :: qcumsum_from (acc + x)%Q l'
  end.

(** Strictly increasing and non-decreasing rows, by positions. *)
Definition increasing (l : list Q) : Prop :=
  ∀ i j a b, i < j → l !! i = Some a → l !! j = Some b → (a < b)%Q.

Definition nondecreasing (l : list Q) : Prop :=
  ∀ i j a b, i ≤ j → l !! i = Some a → l !! j = Some b → (a <= b)%Q.

(** Every sample of a row lies between the first and the last bin edge. *)
Definition in_range (bs samples : list Q) : Prop :=
  ∀ lo hi, head bs = Some lo → last bs = Some hi →
    Forall (fun s => (lo <= s)%Q ∧ (s <= hi)%Q) samples.

(** A row of [T] bin edges that can be sampled: the edges in order,
    [T - 1] weights, at least one, none negative. *)
Definition samplable (T : nat) (bs ws : list Q) : Prop :=
  ws ≠ [] ∧ length bs = T ∧ S (length ws) = T
  ∧ Forall (fun w => (0 <= w)%Q) ws ∧ nondecreasing bs.

(** What [torch.rand] draws from: the interval [0, 1). *)
Definition unit_interval (us : list Q) : Prop :=
  Forall (fun u => (0 <= u)%Q ∧ (u < 1)%Q) us.

(** ** Inverse-CDF sampling *)

(** What the sampler uses of the cdf of a row. *)
Definition cdf_row (T : nat) (cq : list Q) : Prop :=
  length cq = T ∧ increasing cq ∧ cq !! 0 = Some 0%Q
  ∧ ∃ last_c, last cq = Some last_c ∧ (last_c == 1)%Q.

(** The positions gathered for the samples of one row, and the samples
    computed from the gathered pairs. *)
Definition row_inds_g (T : nat) (cdf u : list tfloat) : list (Z * Z) :=
  zip_with pair
    ((fun i => Z.max 0 (i - 1)) <$> (searchsorted_right cdf <$> u))
    ((fun i => Z.min (Z.of_nat T - 1) i) <$> (searchsorted_right cdf <$> u)).

Definition row_samples (u : list tfloat) (cdf_g bins_g : list (tfloat * tfloat))
  : list tfloat :=
  zip_with fadd (fst <$> bins_g)
    (zip_with fmul
       (zip_with fdiv (zip_with fsub u (fst <$> cdf_g))
          ((fun d => if flt d pdf_eps then fone else d)
             <$> ((fun p : tfloat * tfloat => fsub p.2 p.1) <$> cdf_g)))
       (zip_with fsub (snd <$> bins_g) (fst <$> bins_g))).

(** The positions gathered and the samples computed, for whole tensors, as
    [sample_pdf] forms them from the row length [T] of the cdf. *)
Definition inds_g_of (T : nat) (cdf u : list (list tfloat))
  : list (list (Z * Z)) :=
  zip2d pair
    (map2d (fun i => Z.max 0 (i - 1))
       (zip_with (fun row us => searchsorted_right row <$> us) cdf u))
    (map2d (fun i => Z.min (Z.of_nat T - 1) i)
       (zip_with (fun row us => searchsorted_right row <$> us) cdf u)).

Definition samples_of (u : list (list tfloat))
  (cdf_g bins_g : list (list (tfloat * tfloat))) : list (list tfloat) :=
  zip2d fadd (map2d fst bins_g)
    (zip2d fmul
       (zip2d fdiv (zip2d fsub u (map2d fst cdf_g))
          (map2d (fun d => if flt d pdf_eps then fone else d)
             (map2d (fun p : tfloat * tfloat => fsub p.2 p.1) cdf_g)))
       (zip2d fsub (map2d snd bins_g) (map2d fst bins_g))).

(* ===================================================================== *)
(** ** A small concrete renderer *)
(* ===================================================================== *)

(** Collaborators simple enough to evaluate by hand: every ray enters the
    box at [min_near] and leaves it at 6; a round of the inference
    compositor adds weight 1/2 at distance 3 to the alive rays and retires
    the rays of even index; the field is constant. *)
Module Toy.

Definition half : tfloat := FFin (1 # 2).
Definition quarter : tfloat := FFin (1 # 4).

(** Bit [k] of the three coordinates interleaved, x lowest. *)
Definition morton_point (c : Z * Z * Z) : Z :=
  let '(x, y, z) := c in
  foldr (fun k acc =>
           let k := Z.of_nat k in
           Z.lor acc
             (Z.lor (Z.shiftl (Z.b2z (Z.testbit x k)) (3 * k))
                (Z.lor (Z.shiftl (Z.b2z (Z.testbit y k)) (3 * k + 1))
                       (Z.shiftl (Z.b2z (Z.testbit z k)) (3 * k + 2)))))
        0%Z (seq 0 10).

Definition unmorton_point (i : Z) : Z * Z * Z :=
  let pick (off : Z) :=
    foldr (fun k acc =>
             let k := Z.of_nat k in
             Z.lor acc (Z.shiftl (Z.b2z (Z.testbit i (3 * k + off))) k))
          0%Z (seq 0 10) in
  (pick 0%Z, pick 1%Z, pick 2%Z).

(** One byte per eight voxels, bit [j] set when voxel [8 n + j] exceeds the
    threshold; the old contents of the buffer are not read. *)
Fixpoint pack_bytes (fuel : nat) (bits : list bool) : list Z :=
  match fuel, bits with
  | O, _ | _, [] => []
  | S fuel', _ =>
      foldr (fun b acc => (Z.b2z b + 2 * acc)%Z) 0%Z (take 8 bits)
        :: pack_bytes fuel' (drop 8 bits)
  end.

Definition toy_packbits (grid : list (list tfloat)) (thresh : tfloat)
  (old : list Z) : list Z :=
  let bits := (fun v => fgt v thresh) <$> concat grid in
  pack_bytes (length bits) bits.

Definition retire_even (r : Z) : Z := if Z.even r then (-1)%Z else r.

(** Adds [x] at the positions listed in [alive]. *)
Definition bump {A} (f : A → A) (alive : list Z) (t : list A) : list A :=
  imap (fun i v => if decide (Z.of_nat i ∈ alive) then f v else v) t.

#[local] Instance toy_raymarching : RayMarching := {|
  near_far_from_aabb := fun rays_o _ _ min_near =>
    ((fun _ => min_near) <$> rays_o, (fun _ => FFin 6) <$> rays_o);
  sph_from_ray := fun rays_o _ _ => (fun _ => [fzero; fzero]) <$> rays_o;
  march_rays_train := fun rays_o _ _ _ _ _ _ _ counter _ _ _ _ _ _ =>
    (rays_o, rays_o, (fun _ => [fone; fone]) <$> rays_o,
     (fun i => [Z.of_nat i; Z.of_nat i; 1%Z]) <$> seq 0 (length rays_o),
     [Z.of_nat (length rays_o); Z.of_nat (length rays_o)]);
  composite_rays_train_rgb := fun _ rgbs _ rays _ =>
    ((fun _ => half) <$> rays, (fun _ => FFin 3) <$> rays,
     (fun _ => [quarter; quarter; quarter]) <$> rays);
  composite_rays_train_semantic := fun _ _ K _ rays _ =>
    ((fun _ => half) <$> rays, (fun _ => FFin 4) <$> rays,
     (fun _ => replicate (Z.to_nat K) quarter) <$> rays);
  march_rays := fun _ _ alive _ rays_o _ _ _ _ _ _ _ _ _ _ _ =>
    ((fun _ => (fzero, fzero, fzero)) <$> alive,
     (fun _ => (fzero, fzero, fzero)) <$> alive,
     (fun _ => [fone; fone]) <$> alive);
  composite_rays_rgb := fun _ _ alive ts _ _ _ ws depth image _ =>
    (retire_even <$> alive, ts,
     bump (fun w => fadd w half) alive ws,
     bump (fun d => fadd d (FFin 3)) alive depth,
     bump (fun px => (fun v => fadd v quarter) <$> px) alive image);
  composite_rays_semantic := fun _ _ alive ts _ _ _ _ ws depth image _ =>
    (retire_even <$> alive, ts,
     bump (fun w => fadd w half) alive ws,
     bump (fun d => fadd d (FFin 4)) alive depth,
     bump (fun px => (fun v => fadd v quarter) <$> px) alive image);
  packbits := toy_packbits;
  morton3D := fun coords => morton_point <$> coords;
  morton3D_invert := fun idx => unmorton_point <$> idx
|}.

#[local] Instance toy_field : NeRFField := {|
  forward := fun xyzs _ =>
    ((fun _ => fone) <$> xyzs, (fun _ => [half; half; half]) <$> xyzs,
     (fun _ => [quarter; quarter]) <$> xyzs);
  density := fun xyzs => (fun _ => half) <$> xyzs;
  background := fun _ rays_d => (fun _ => [fzero; fzero; fzero]) <$> rays_d
|}.

(** A logarithm that rounds up to an integer: for [q >= 1] the least [k]
    with [q <= 2^k], and 0 below 1. *)
#[local] Instance toy_math : PyMath.
Proof.
  refine {| math_log2 := fun q =>
              FFin (inject_Z (if Qle_bool 1 q then Z.log2_up (Qceiling q)
                              else 0%Z)) |}.
  - intros q _. eexists. reflexivity.
  - intros k q Hk Hq.
    assert (Hpow : (1 <= 2 ^ k)%Z)
      by (pose proof (Z.pow_pos_nonneg 2 k ltac:(lia) Hk); lia).
    assert (H1 : (1 <= q)%Q).
    { rewrite Hq. change 1%Q with (inject_Z 1). by rewrite <- Zle_Qle. }
    apply Qle_bool_iff in H1. rewrite H1. do 2 f_equal.
    rewrite (Qceiling_comp _ _ Hq), Qceiling_Z.
    by apply Z.log2_up_pow2.
  - intros k q Hk Hpos Hle. cbn [fle of_Z]. apply Qle_bool_iff.
    rewrite <- Zle_Qle.
    destruct (Qle_bool 1 q); [|done].
    rewrite <- (Z.log2_up_pow2 k Hk). apply Z.log2_up_le_mono.
    rewrite <- (Qceiling_Z (2 ^ k)). by apply Qceiling_resp_le.
  - intros k q Hk Hle. cbn [fle of_Z]. apply Qle_bool_iff.
    rewrite <- Zle_Qle.
    assert (Hpow : (1 <= 2 ^ k)%Z)
      by (pose proof (Z.pow_pos_nonneg 2 k ltac:(lia) Hk); lia).
    assert (H1 : (1 <= q)%Q).
    { eapply Qle_trans; [|exact Hle]. change 1%Q with (inject_Z 1).
      by rewrite <- Zle_Qle. }
    apply Qle_bool_iff in H1. rewrite H1.
    rewrite <- (Z.log2_up_pow2 k Hk) at 1. apply Z.log2_up_le_mono.
    rewrite <- (Qceiling_Z (2 ^ k)). by apply Qceiling_resp_le.
Defined.

(** A generator that always draws the middle of the interval (so the
    jitter of the sweep is zero) and the lower bound of an integer range. *)
#[local] Instance toy_random : TorchRandom := {|
  rng := unit;
  rand_like3 := fun g n => (replicate n (half, half, half), g);
  randint3 := fun g low high n =>
    if (low <? high)%Z then mret (replicate n (low, low, low), g)
    else raise (RuntimeError "random_ expects 'from' to be less than 'to'");
  randint1 := fun g low high n =>
    if (low <? high)%Z then mret (replicate n low, g)
    else raise (RuntimeError "random_ expects 'from' to be less than 'to'")
|}.

Definition toy_extra : extra_state :=
  {| density_grid := [[fzero; fone; of_Z (-1); half; fzero; fzero; of_Z (-1); quarter]];
     density_bitfield := [0%Z];
     mean_density := fzero;
     iter_density := 0;
     step_counter := replicate 16 [0%Z; 0%Z];
     mean_count := 0;
     local_step := 0 |}.

(** A renderer in inference mode on a 2 x 2 x 2 grid with one cascade. *)
Definition toy_renderer (cuda : bool) (train : bool) : NeRFRenderer :=
  {| bound := fone; cascade := 1; grid_size := 2; density_scale := fone;
     min_near := FFin (1 # 5); density_thresh := FFin (1 # 100);
     bg_radius := of_Z (-1);
     aabb_train := [of_Z (-1); of_Z (-1); of_Z (-1); fone; fone; fone];
     aabb_infer := [of_Z (-1); of_Z (-1); of_Z (-1); fone; fone; fone];
     training := train;
     extra := if cuda then Some toy_extra else None |}.

Definition ray0 : vec3 := (fzero, fzero, fone).
Definition toy_rays : list (list vec3) := [[ray0; ray0; ray0]].

Definition no_kwargs : kwargs :=
  {| kw_dt_gamma := None; kw_bg_color := None; kw_perturb := None;
     kw_force_all_rays := None; kw_max_steps := None; kw_T_thresh := None |}.

(** [max_steps=n] as the only keyword argument. *)
Definition steps_kwargs (n : Z) : kwargs :=
  {| kw_dt_gamma := None; kw_bg_color := None; kw_perturb := None;
     kw_force_all_rays := None; kw_max_steps := Some n; kw_T_thresh := None |}.

(** [bg_color=bg, max_steps=n] as the keyword arguments. *)
Definition bg_kwargs (bg : bg_value) (n : Z) : kwargs :=
  {| kw_dt_gamma := None; kw_bg_color := Some (Some bg); kw_perturb := None;
     kw_force_all_rays := None; kw_max_steps := Some n; kw_T_thresh := None |}.


End Toy.

(** A camera at the origin that looks along +z with a field of view of 90
    degrees, and rows of bins and weights, for the visibility pass and the
    sampler. *)
Module Scene.

Definition camera : pose :=
  {| rotation := ((fone, fzero, fzero), (fzero, fone, fzero), (fzero, fzero, fone));
     translation := (fzero, fzero, fzero) |}.

Definition pinhole : intrinsics :=
  {| intr_fx := fone; intr_fy := fone; intr_cx := fone; intr_cy := fone |}.

(** The toy renderer after 16 updates, with no voxel above 0. *)
Definition starved : NeRFRenderer :=
  set_extra (Toy.toy_renderer true false)
    {| density_grid := [replicate 8 fzero];
       density_bitfield := [0%Z];
       mean_density := fzero;
       iter_density := 16;
       step_counter := replicate 16 [0%Z; 0%Z];
       mean_count := 0;
       local_step := 0 |}.

Definition bins : list (list Q) := [[0; 1; 2]%Q].
Definition weights : list (list Q) := [[1; 3]%Q].
Definition draws : list (list Q) := [[1 # 4; 3 # 4]%Q].

End Scene.

(* ===================================================================== *)
(** * Properties *)
(* ===================================================================== *)

(** ** Arithmetic of tensor elements *)

Lemma Qle_bool_false (a b : Q) : Qle_bool a b = false → (b < a)%Q.
Proof.
  intros H. apply Qnot_le_lt. intros Hle.
  apply Qle_bool_iff in Hle. congruence.
Qed.

Lemma qzero_true (a : Q) : qzero a = true → (a == 0)%Q.
Proof. unfold qzero. apply Qeq_bool_iff. Qed.

Lemma qzero_false (a : Q) : qzero a = false → ¬ (a == 0)%Q.
Proof. unfold qzero. intros H Heq. apply Qeq_bool_iff in Heq. congruence. Qed.

Lemma qneg_false (a : Q) : (0 <= a)%Q → qneg a = false.
Proof. intros H. unfold qneg. apply Qle_bool_iff in H. by rewrite H. Qed.



Lemma fle_refl (x : tfloat) : is_nan x = false → fle x x = true.
Proof.
  destruct x as [a|[]|]; simpl; try done.
  intros _. apply Qle_bool_iff. apply Qle_refl.
Qed.

Lemma fge_not_nan (x y : tfloat) : fge x y = true → is_nan x = false.
Proof. unfold fge. by destruct x, y as [?|[]|]. Qed.





(** ** The result monad *)

Lemma bind_inr {A B} (m : M A) (k : A → M B) (b : B) :
  m ≫= k = inr b → ∃ a, m = inr a ∧ k a = inr b.
Proof. destruct m as [e|a]; [done|]. intros H. by exists a. Qed.

Ltac inv_bind H :=
  let a := fresh "a" in
  let Ha := fresh "Ha" in
  apply bind_inr in H as (a & Ha & H).

(** ** Elementwise operations *)

Lemma map2M_inr {A B C} (f : A → B → C) l1 l2 r :
  map2M f l1 l2 = inr r → length l1 = length l2 ∧ r = zip_with f l1 l2.
Proof.
  revert l2 r. induction l1 as [|a l1 IH]; intros [|b l2] r H; simpl in *;
    try done.
  - by injection H as <-.
  - inv_bind H. injection H as <-.
    destruct (IH _ _ Ha) as [-> ->]. done.
Qed.

Lemma normalize_depths_inr ds ns fs r :
  normalize_depths ds ns fs = inr r →
  length r = length ds
  ∧ ∀ i d n f, ds !! i = Some d → ns !! i = Some n → fs !! i = Some f →
      r !! i = Some (normalize_depth d n f).
Proof.
  unfold normalize_depths. intros H.
  inv_bind H. inv_bind H.
  apply map2M_inr in Ha as [L1 ->], Ha0 as [L2 ->], H as [L3 ->].
  rewrite length_fmap, !length_zip_with in L3.
  split.
  - rewrite length_zip_with, length_fmap, !length_zip_with. lia.
  - intros i d n f Hd Hn Hf.
    rewrite lookup_zip_with, list_lookup_fmap, !lookup_zip_with.
    rewrite Hd, Hn, Hf. done.
Qed.

Lemma mapM_inr {A B} (f : A → M B) (l : list A) (r : list B) :
  mapM f l = inr r → Forall2 (fun x y => f x = inr y) l r.
Proof.
  revert r. induction l as [|x l IH]; intros r H; simpl in H.
  - injection H as <-. constructor.
  - inv_bind H. inv_bind H. injection H as <-. constructor; [done|by apply IH].
Qed.

(** ** Broadcasting *)

Lemma broadcast_dim_inr (a b R : nat) :
  broadcast_dim a b = inr R → (a = R ∨ a = 1) ∧ (b = R ∨ b = 1).
Proof.
  unfold broadcast_dim. intros E.
  repeat case_decide; try done; injection E as <-; lia.
Qed.

Lemma broadcast_index_lt (a R i : nat) :
  a = R ∨ a = 1 → i < R → broadcast_index a i < a.
Proof. unfold broadcast_index. case_decide; lia. Qed.

Lemma broadcast_index_twice (a R i : nat) :
  a = R ∨ a = 1 → broadcast_index a (broadcast_index R i) = broadcast_index a i.
Proof. unfold broadcast_index. repeat case_decide; lia. Qed.

Lemma broadcast_index_same (n i : nat) : i < n → broadcast_index n i = i.
Proof. unfold broadcast_index. case_decide; lia. Qed.

Lemma broadcast2_inr f ra ca a rb cb b R C data :
  broadcast2 f ra ca a rb cb b = inr (R, C, data) →
  broadcast_dim ra rb = inr R ∧ broadcast_dim ca cb = inr C
  ∧ length data = R ∧ Forall (fun row => length row = C) data
  ∧ ∀ i c, i < R → c < C →
      ∃ x y,
        entry a (broadcast_index ra i) (broadcast_index ca c) = Some x
        ∧ entry b (broadcast_index rb i) (broadcast_index cb c) = Some y
        ∧ entry data i c = Some (f x y).
Proof.
  unfold broadcast2. intros H. inv_bind H. inv_bind H. inv_bind H.
  injection H as -> -> ->. apply mapM_inr in Ha1.
  split; [done|]. split; [done|].
  pose proof (Forall2_length _ _ _ Ha1) as Hlen. rewrite length_seq in Hlen.
  split; [done|]. split.
  - apply Forall_lookup. intros i row Hi.
    destruct (Forall2_lookup_r _ _ _ _ _ Ha1 Hi) as (k & _ & Hk).
    apply mapM_inr, Forall2_length in Hk. by rewrite length_seq in Hk.
  - intros i c Hi Hc.
    destruct (Forall2_lookup_l _ _ _ i i Ha1) as (row & Hrow & Hf).
    { by apply lookup_seq_lt. }
    apply mapM_inr in Hf.
    destruct (Forall2_lookup_l _ _ _ c c Hf) as (v & Hv & Hfv).
    { by apply lookup_seq_lt. }
    destruct (entry a _ _) as [x|]; [|done].
    destruct (entry b _ _) as [y|]; [|done].
    injection Hfv as <-. exists x, y. split; [done|]. split; [done|].
    unfold entry. by rewrite Hrow.
Qed.

Lemma bg_at_tensor bg rb cb t i c :
  bg_tensor bg = (rb, cb, t) →
  bg_at bg i c = entry t (broadcast_index rb i) (broadcast_index cb c).
Proof.
  destruct bg as [x|ch|t']; simpl; intros H; injection H as <- <- <-;
    unfold entry, broadcast_index; simpl; done.
Qed.

(** The mixed image, entry by entry. *)
Lemma mix_background_inr image ws bg r :
  mix_background image ws bg = inr r → per_ray_mix image ws bg r.
Proof.
  unfold mix_background. destruct (bg_tensor bg) as [[rb cb] t] eqn:Ebg.
  intros H. inv_bind H. destruct a as [[rt ct] scaled].
  inv_bind H. destruct a as [[R C] out]. injection H as <-.
  apply broadcast2_inr in Ha as (Hrt & Hct & _ & _ & Hscaled).
  apply broadcast2_inr in Ha0 as (HR & HC & Hlen & Hrows & Hout).
  apply broadcast_dim_inr in Hrt as [Hrt1 Hrt2].
  apply broadcast_dim_inr in HR as [HR1 HR2].
  assert (ct = cb) as ->.
  { unfold broadcast_dim in Hct. repeat case_decide; try done;
      injection Hct as <-; lia. }
  assert (C = 3) as ->.
  { unfold broadcast_dim in HC. repeat case_decide; try done;
      injection HC as <-; lia. }
  assert (Hcb : cb = 3 ∨ cb = 1).
  { unfold broadcast_dim in HC. repeat case_decide; try done; lia. }
  split; [done|]. intros i c Hi Hc. rewrite Hlen in Hi.
  destruct (Hout i c Hi Hc) as (v & y & Hv & Hy & Ho).
  rewrite (broadcast_index_same 3 c Hc) in Hv.
  destruct (Hscaled (broadcast_index rt i) (broadcast_index cb c))
    as (x & b & Hx & Hb & Hs).
  { by apply (broadcast_index_lt rt R). }
  { by apply (broadcast_index_lt cb 3). }
  rewrite Hs in Hy. injection Hy as <-.
  rewrite (broadcast_index_twice (length ws) rt i Hrt1) in Hx.
  rewrite (broadcast_index_twice rb rt i Hrt2) in Hb.
  rewrite (broadcast_index_twice cb cb c) in Hb by (by left).
  unfold entry in Hx. rewrite list_lookup_fmap in Hx.
  destruct (ws !! broadcast_index (length ws) i) as [w|] eqn:Hw; [|done].
  simpl in Hx. injection Hx as <-.
  exists v, w, b. split; [done|]. split; [done|].
  split; [by rewrite (bg_at_tensor bg rb cb t)|done].
Qed.

(** ** Views *)

Lemma view2_lookup {A} (B N : nat) (flat : list A) (b j : nat) :
  b < B → j < N →
  view2 B N flat !! b ≫= (.!! j) = flat !! (b * N + j).
Proof.
  revert flat b. induction B as [|B IH]; intros flat b Hb Hj; [lia|].
  destruct b as [|b]; simpl.
  - by rewrite lookup_take_lt.
  - rewrite IH by lia. rewrite lookup_drop. f_equal. lia.
Qed.

Lemma length_view2 {A} (B N : nat) (flat : list A) : length (view2 B N flat) = B.
Proof. revert flat. induction B; intros; simpl; [done|]. by rewrite IHB. Qed.

Section PassFacts.
Context `{RM : RayMarching} `{F : NeRFField}.

Lemma rays_rgb_inr self results rays_o rays_d K o self' results' :
  rays_rgb self results rays_o rays_d K o = inr (self', results') →
  ∃ ws ds img image depth,
    rgb_sums self (flatten rays_o) (flatten rays_d)
      (nears_of self rays_o rays_d) (fars_of self rays_o rays_d) o
      = inr (self', (ws, ds, img))
    ∧ mix_background img ws
        (resolve_bg self (flatten rays_o) (flatten rays_d) (bg_color o))
      = inr image
    ∧ normalize_depths ds (nears_of self rays_o rays_d)
        (fars_of self rays_o rays_d) = inr depth
    ∧ results' =
        <["image" := RVector (view2 (shape2 rays_o).1 (shape2 rays_o).2 image)]>
          (<["depth" := RScalar (view2 (shape2 rays_o).1 (shape2 rays_o).2 depth)]>
             (if training self then <["weights_sum_rgb" := RFlat ws]> results
              else results)).
Proof.
  unfold rays_rgb, nears_of, fars_of. simpl.
  destruct (near_far_from_aabb _ _ _ _) as [nears fars]. simpl.
  intros H. inv_bind H. destruct a as [s1 [[ws ds] img]].
  inv_bind H. inv_bind H. inv_bind H. injection H as <- <-.
  by exists ws, ds, img, a, a0.
Qed.

(** The view of the mixed image succeeded: it has one row per ray. *)
Lemma rays_rgb_view self results rays_o rays_d K o self' results' :
  rays_rgb self results rays_o rays_d K o = inr (self', results') →
  ∃ ws ds img image,
    rgb_sums self (flatten rays_o) (flatten rays_d)
      (nears_of self rays_o rays_d) (fars_of self rays_o rays_d) o
      = inr (self', (ws, ds, img))
    ∧ mix_background img ws
        (resolve_bg self (flatten rays_o) (flatten rays_d) (bg_color o))
      = inr image
    ∧ results' !! "image"
      = Some (RVector (view2 (shape2 rays_o).1 (shape2 rays_o).2 image))
    ∧ length image = (shape2 rays_o).1 * (shape2 rays_o).2.
Proof.
  unfold rays_rgb, nears_of, fars_of. simpl.
  destruct (near_far_from_aabb _ _ _ _) as [nears fars]. simpl.
  intros H. inv_bind H. destruct a as [s1 [[ws ds] img]].
  inv_bind H. inv_bind H. inv_bind H. injection H as <- <-.
  exists ws, ds, img, a. split; [done|]. split; [done|].
  split; [by rewrite lookup_insert_eq|].
  unfold check_view in Ha2. by case_decide.
Qed.

Lemma rays_semantic_inr self results rays_o rays_d K o self' results' :
  rays_semantic self results rays_o rays_d K o = inr (self', results') →
  ∃ ws ds cs depth,
    semantic_sums self (flatten rays_o) (flatten rays_d) K
      (nears_of self rays_o rays_d) (fars_of self rays_o rays_d) o
      = inr (self', (ws, ds, cs))
    ∧ normalize_depths ds (nears_of self rays_o rays_d)
        (fars_of self rays_o rays_d) = inr depth
    ∧ results' =
        <["semantic" := RVector (view2 (shape2 rays_o).1 (shape2 rays_o).2 cs)]>
          (<["depth" := RScalar (view2 (shape2 rays_o).1 (shape2 rays_o).2 depth)]>
             (if training self then <["weights_sum_semantic" := RFlat ws]> results
              else results)).
Proof.
  unfold rays_semantic, nears_of, fars_of. simpl.
  destruct (near_far_from_aabb _ _ _ _) as [nears fars]. simpl.
  intros H. inv_bind H. destruct a as [s1 [[ws ds] cs]].
  inv_bind H. injection H as <- <-.
  by exists ws, ds, cs, a.
Qed.

(** Neither pass changes what [near_far_from_aabb] reads from [self]. *)
Lemma rgb_sums_frame self ro rd ns fs o self' r :
  rgb_sums self ro rd ns fs o = inr (self', r) →
  aabb self' = aabb self ∧ min_near self' = min_near self
  ∧ training self' = training self ∧ bg_radius self' = bg_radius self.
Proof.
  unfold rgb_sums. destruct (training self) eqn:Ht; intros H.
  - inv_bind H. destruct a as [[e slot] counter].
    destruct (march_rays_train _ _ _ _ _ _ _ _ _ _ _ _ _ _ _) as [[[[? ?] ?] ?] ?].
    destruct (forward _ _) as [[? ?] ?].
    injection H as <- <-. unfold aabb; simpl. by rewrite Ht.
  - inv_bind H. by injection H as <- <-.
Qed.

End PassFacts.

(** ** The inference loop *)

Lemma compact_steps_bounds (N n : Z) : (1 <= compact_steps N n <= 8)%Z.
Proof. unfold compact_steps. lia. Qed.


(** Everything the loop guarantees about a run that returns. *)
Lemma march_loop_inr body N max_steps step st seen r :
  march_loop body N max_steps step st seen = inr r →
  ∃ new,
    rounds r = seen ++ new
    ∧ Forall (round_ok N max_steps) new
    ∧ chained step new
    ∧ final_step r = (step + steps_total new)%Z
    ∧ (Z.of_nat (length new) <= Z.max 0 (max_steps - step))%Z
    ∧ ((max_steps <= final_step r)%Z ∨ rays_alive (final_state r) = []).
Proof.
  funelim (march_loop body N max_steps step st seen); intros Hr.
  - injection Hr as <-. exists []. simpl. rewrite app_nil_r.
    repeat split; [done|lia|lia|left; lia].
  - injection Hr as <-. exists []. simpl. rewrite app_nil_r.
    repeat split; [done|lia|lia|].
    right. destruct (rays_alive st); [done|simpl in *; lia].
  - done.
  - destruct (H r Hr) as (new & Hrounds & Hok & Hch & Hfin & Hlen & Hexit).
    pose proof (compact_steps_bounds N (Z.of_nat (length (rays_alive st)))).
    eexists (_ :: new). rewrite <- app_assoc in Hrounds.
    split; [exact Hrounds|]. simpl.
    repeat split; try done; try lia.
    apply Forall_cons. split; [|done].
    unfold round_ok; simpl. repeat split; lia.
Qed.

(** The loop returns as soon as every round does. *)
Lemma march_loop_returns body N max_steps step st seen :
  (∀ s n k x, ∃ x', body s n k x = inr x') →
  ∃ r, march_loop body N max_steps step st seen = inr r.
Proof.
  intros Hbody.
  funelim (march_loop body N max_steps step st seen); eauto.
  destruct (Hbody step (Z.of_nat (length (rays_alive st)))
              (compact_steps N (Z.of_nat (length (rays_alive st)))) st)
    as [x' Hx].
  congruence.
Qed.

(** One round of the loop, unfolded. *)
Lemma march_loop_round body N max_steps step st seen :
  (step < max_steps)%Z → (0 < Z.of_nat (length (rays_alive st)))%Z →
  march_loop body N max_steps step st seen
  = st' ← body step (Z.of_nat (length (rays_alive st)))
            (compact_steps N (Z.of_nat (length (rays_alive st)))) st;
    march_loop body N max_steps
      (step + compact_steps N (Z.of_nat (length (rays_alive st)))) st'
      (seen ++ [ {| round_step := step;
                    round_alive := Z.of_nat (length (rays_alive st));
                    round_n_step :=
                      compact_steps N (Z.of_nat (length (rays_alive st))) |} ]).
Proof.
  intros Hs Ha. rewrite march_loop_equation_1.
  destruct (Z_lt_dec step max_steps) as [?|?]; [|lia]. simpl.
  destruct (Z_le_dec (Z.of_nat (length (rays_alive st))) 0) as [?|?]; [lia|].
  simpl. by destruct (body _ _ _ _).
Qed.

Lemma march_loop_inl body N max_steps step st seen e :
  march_loop body N max_steps step st seen = inl e →
  ∃ s n k x, body s n k x = inl e.
Proof.
  funelim (march_loop body N max_steps step st seen); intros Hr; try done.
  - injection Hr as <-. eauto.
  - eauto.
Qed.


Lemma loop_exit_of_body self body N max_steps st :
  (∀ s n k x e, body s n k x = inl e →
     cuda_ray self = false ∧ e = AttributeError "density_bitfield") →
  loop_exit self max_steps (march_loop body N max_steps 0 st []).
Proof.
  intros Hbody. unfold loop_exit.
  destruct (march_loop body N max_steps 0 st []) as [e|r] eqn:E.
  - destruct (march_loop_inl _ _ _ _ _ _ _ E) as (s & n & k & x & Hx).
    by eapply Hbody.
  - destruct (march_loop_inr _ _ _ _ _ _ _ E)
      as (new & Hr & Hok & Hch & Hfin & Hlen & Hexit).
    simpl in Hr. rewrite Hr.
    split; [lia|]. split; [|split; [lia|done]].
    eapply Forall_impl; [exact Hok|].
    intros rd (Hs & _ & Hn). split; [|done].
    rewrite Hn. apply compact_steps_bounds.
Qed.

Section LoopTheorems.
Context `{RM : RayMarching} `{F : NeRFField}.

Lemma getattr_inl {A} self name (proj : extra_state → A) e :
  getattr self name proj = inl e →
  cuda_ray self = false ∧ e = AttributeError name.
Proof.
  unfold getattr, cuda_ray. destruct (extra self); [done|].
  intros H. by injection H as <-.
Qed.

Lemma rgb_round_inl self ro rd ns fs o s n k x e :
  rgb_round self ro rd ns fs o s n k x = inl e →
  cuda_ray self = false ∧ e = AttributeError "density_bitfield".
Proof.
  unfold rgb_round.
  destruct (getattr self "density_bitfield" density_bitfield) as [e'|b] eqn:E.
  - intros H. injection H as <-. by apply getattr_inl in E.
  - simpl. destruct (march_rays _ _ _ _ _ _ _ _ _ _ _ _ _ _ _ _) as [[? ?] ?].
    destruct (forward _ _) as [[? ?] ?].
    by destruct (composite_rays_rgb _ _ _ _ _ _ _ _ _ _ _) as [[[[? ?] ?] ?] ?].
Qed.

Lemma semantic_round_inl self ro rd K ns fs o s n k x e :
  semantic_round self ro rd K ns fs o s n k x = inl e →
  cuda_ray self = false ∧ e = AttributeError "density_bitfield".
Proof.
  unfold semantic_round.
  destruct (getattr self "density_bitfield" density_bitfield) as [e'|b] eqn:E.
  - intros H. injection H as <-. by apply getattr_inl in E.
  - simpl. destruct (march_rays _ _ _ _ _ _ _ _ _ _ _ _ _ _ _ _) as [[? ?] ?].
    destruct (forward _ _) as [[? ?] ?].
    by destruct (composite_rays_semantic _ _ _ _ _ _ _ _ _ _ _ _)
      as [[[[? ?] ?] ?] ?].
Qed.

(** C9.  The round loop of either pass ends: it raises the missing-buffer
    exception of its first round (renderer without [cuda_ray]), or it
    returns after at most [max_steps] rounds, each of which advanced the
    counter by [n_step >= 1], with the counter at [max_steps] or with no
    alive ray left. *)
Theorem inference_loop_terminates self rays_o rays_d K nears fars o N st :
  loop_exit self (max_steps o)
    (march_loop (rgb_round self rays_o rays_d nears fars o)
       N (max_steps o) 0 st [])
  ∧ loop_exit self (max_steps o)
      (march_loop (semantic_round self rays_o rays_d K nears fars o)
         N (max_steps o) 0 st []).
Proof.
  split; apply loop_exit_of_body; intros s n k x e.
  - apply rgb_round_inl.
  - apply semantic_round_inl.
Qed.

End LoopTheorems.



Section PassTheorems.
Context `{RM : RayMarching} `{F : NeRFField}.

Lemma rays_rgb_depth self results rays_o rays_d K o self' results' :
  rays_rgb self results rays_o rays_d K o = inr (self', results') →
  ∃ ws ds img depth,
    rgb_sums self (flatten rays_o) (flatten rays_d)
      (nears_of self rays_o rays_d) (fars_of self rays_o rays_d) o
      = inr (self', (ws, ds, img))
    ∧ results' !! "depth"
      = Some (RScalar (view2 (shape2 rays_o).1 (shape2 rays_o).2 depth))
    ∧ per_ray_depth ds (nears_of self rays_o rays_d)
        (fars_of self rays_o rays_d) depth.
Proof.
  intros H.
  destruct (rays_rgb_inr _ _ _ _ _ _ _ _ H)
    as (ws & ds & img & image & depth & Hs & _ & Hd & ->).
  exists ws, ds, img, depth. split; [done|]. split.
  - rewrite lookup_insert_ne by done. by rewrite lookup_insert_eq.
  - by apply normalize_depths_inr.
Qed.

Lemma rays_semantic_depth self results rays_o rays_d K o self' results' :
  rays_semantic self results rays_o rays_d K o = inr (self', results') →
  ∃ ws ds cs depth,
    semantic_sums self (flatten rays_o) (flatten rays_d) K
      (nears_of self rays_o rays_d) (fars_of self rays_o rays_d) o
      = inr (self', (ws, ds, cs))
    ∧ results' !! "depth"
      = Some (RScalar (view2 (shape2 rays_o).1 (shape2 rays_o).2 depth))
    ∧ per_ray_depth ds (nears_of self rays_o rays_d)
        (fars_of self rays_o rays_d) depth.
Proof.
  intros H.
  destruct (rays_semantic_inr _ _ _ _ _ _ _ _ H)
    as (ws & ds & cs & depth & Hs & Hd & ->).
  exists ws, ds, cs, depth. split; [done|]. split.
  - rewrite lookup_insert_ne by done. by rewrite lookup_insert_eq.
  - by apply normalize_depths_inr.
Qed.


Lemma semantic_sums_bg self ro rd K ns fs o bg :
  semantic_sums self ro rd K ns fs (with_bg o bg)
  = semantic_sums self ro rd K ns fs o.
Proof. reflexivity. Qed.

Lemma semantic_sums_branches self ro rd K ns fs o self' ws ds cs :
  semantic_sums self ro rd K ns fs o = inr (self', (ws, ds, cs)) →
  (training self = true →
   ∃ sigmas semantics deltas rays,
     (ws, ds, cs)
     = composite_rays_train_semantic sigmas semantics K deltas rays (T_thresh o))
  ∧ (training self = false →
     ∃ r, march_loop (semantic_round self ro rd K ns fs o)
            (Z.of_nat (length ro)) (max_steps o) 0
            (initial_state (length ro) (Z.to_nat K) ns) [] = inr r
          ∧ cs = channel_sum (final_state r)).
Proof.
  unfold semantic_sums. intros H. split; intros Ht; rewrite Ht in H.
  - inv_bind H. destruct a as [[e slot] counter].
    destruct (march_rays_train _ _ _ _ _ _ _ _ _ _ _ _ _ _ _)
      as [[[[xyzs dirs] deltas] rays] counter'].
    destruct (forward _ _) as [[sigmas rgbs] semantics].
    injection H as _ H. eauto.
  - destruct (K <? 0)%Z; [done|].
    inv_bind H. injection H as _ _ _ <-. eauto.
Qed.

(** C3.  The semantic image a pass returns is the accumulated channel sum
    itself, in the training branch (the output of the training compositor)
    and in the inference branch (the tensor the round loop ends with): no
    background term is added, and the [bg_color] argument has no effect on
    the result. *)
Theorem semantic_not_composited self results rays_o rays_d K o self' results' :
  rays_semantic self results rays_o rays_d K o = inr (self', results') →
  ∃ ws ds cs,
    semantic_sums self (flatten rays_o) (flatten rays_d) K
      (nears_of self rays_o rays_d) (fars_of self rays_o rays_d) o
      = inr (self', (ws, ds, cs))
    ∧ results' !! "semantic"
      = Some (RVector (view2 (shape2 rays_o).1 (shape2 rays_o).2 cs))
    ∧ (training self = true →
       ∃ sigmas semantics deltas rays,
         (ws, ds, cs)
         = composite_rays_train_semantic sigmas semantics K deltas rays
             (T_thresh o))
    ∧ (training self = false →
       ∃ r, march_loop
              (semantic_round self (flatten rays_o) (flatten rays_d) K
                 (nears_of self rays_o rays_d) (fars_of self rays_o rays_d) o)
              (Z.of_nat (length (flatten rays_o))) (max_steps o) 0
              (initial_state (length (flatten rays_o)) (Z.to_nat K)
                 (nears_of self rays_o rays_d)) [] = inr r
            ∧ cs = channel_sum (final_state r))
    ∧ ∀ bg, rays_semantic self results rays_o rays_d K (with_bg o bg)
            = inr (self', results').
Proof.
  intros H.
  destruct (rays_semantic_inr _ _ _ _ _ _ _ _ H)
    as (ws & ds & cs & depth & Hs & Hd & ->).
  exists ws, ds, cs. split; [done|]. split; [by rewrite lookup_insert_eq|].
  destruct (semantic_sums_branches _ _ _ _ _ _ _ _ _ _ _ Hs) as [Ht Hi].
  split; [done|]. split; [done|].
  intros bg. rewrite <- H. reflexivity.
Qed.

(** C4.  The RGB pass returns one pixel of three channels per ray, and
    every entry of it is [channel_sum + (1 - weight_sum) * background_value]
    for the entries that torch's broadcasting reads in the accumulated
    image, the accumulated weights and the background.  The background is
    the output of the background model when [bg_radius > 0], else the
    [bg_color] argument, else the number 1; in this last case every entry
    is [channel_sum + (1 - weight_sum) * 1]. *)
Theorem image_background_mix self results rays_o rays_d K o self' results' :
  rays_rgb self results rays_o rays_d K o = inr (self', results') →
  ∃ ws ds img image bg,
    rgb_sums self (flatten rays_o) (flatten rays_d)
      (nears_of self rays_o rays_d) (fars_of self rays_o rays_d) o
      = inr (self', (ws, ds, img))
    ∧ results' !! "image"
      = Some (RVector (view2 (shape2 rays_o).1 (shape2 rays_o).2 image))
    ∧ length image = (shape2 rays_o).1 * (shape2 rays_o).2
    ∧ bg = (if fgt (bg_radius self) fzero
            then BgPerRay
                   (background
                      (sph_from_ray (flatten rays_o) (flatten rays_d)
                         (bg_radius self))
                      (flatten rays_d))
            else match bg_color o with
                 | None => BgScalar fone
                 | Some given => given
                 end)
    ∧ per_ray_mix img ws bg image
    ∧ (fgt (bg_radius self) fzero = false → bg_color o = None →
       ∀ i c, i < length image → c < 3 →
         ∃ v w,
           entry img (broadcast_index (length img) i) c = Some v
           ∧ ws !! broadcast_index (length ws) i = Some w
           ∧ entry image i c = Some (fadd v (fmul (fsub fone w) fone))).
Proof.
  intros H.
  destruct (rays_rgb_view _ _ _ _ _ _ _ _ H)
    as (ws & ds & img & image & Hs & Hm & Hi & Hlen).
  exists ws, ds, img, image. eexists. split; [done|]. split; [done|].
  split; [done|]. split; [reflexivity|].
  pose proof (mix_background_inr _ _ _ _ Hm) as Hmix.
  unfold resolve_bg in Hmix. split; [exact Hmix|].
  intros Hr Hb. rewrite Hr, Hb in Hmix. destruct Hmix as [_ Hmix].
  intros i c Hlt Hc.
  destruct (Hmix i c Hlt Hc) as (v & w & b & Hv & Hw & Hb' & He).
  simpl in Hb'. injection Hb' as <-. by exists v, w.
Qed.

Lemma rays_semantic_overwrites_depth self results x rays_o rays_d K o :
  rays_semantic self (<["depth" := x]> results) rays_o rays_d K o
  = rays_semantic self results rays_o rays_d K o.
Proof.
  unfold rays_semantic. simpl.
  destruct (near_far_from_aabb _ _ _ _) as [nears fars].
  destruct (semantic_sums _ _ _ _ _ _ _) as [e|[s1 [[ws ds] cs]]]; [done|].
  simpl. destruct (normalize_depths _ _ _) as [e|depth]; [done|]. simpl.
  do 2 f_equal. f_equal.
  destruct (training self).
  - rewrite (insert_insert_ne results "weights_sum_semantic" "depth") by done.
    by rewrite insert_insert_eq.
  - by rewrite insert_insert_eq.
Qed.

(** What [run_cuda] returns under ["depth"]. *)
Lemma run_cuda_depth self rays_o rays_d K o self2 results :
  run_cuda self rays_o rays_d K o = inr (self2, results) →
  ∃ self1 results1 ws ds cs depth,
    rays_rgb self ∅ rays_o rays_d K o = inr (self1, results1)
    ∧ is_Some (results1 !! "depth")
    ∧ semantic_sums self1 (flatten rays_o) (flatten rays_d) K
        (nears_of self1 rays_o rays_d) (fars_of self1 rays_o rays_d) o
        = inr (self2, (ws, ds, cs))
    ∧ per_ray_depth ds (nears_of self1 rays_o rays_d)
        (fars_of self1 rays_o rays_d) depth
    ∧ results !! "depth"
      = Some (RScalar (view2 (shape2 rays_o).1 (shape2 rays_o).2 depth))
    ∧ ∀ x, rays_semantic self1 (<["depth" := x]> results1) rays_o rays_d K o
           = inr (self2, results).
Proof.
  unfold run_cuda. intros H.
  inv_bind H. destruct a as [self1 results1].
  inv_bind H. destruct a as [s2 r2]. injection H as -> ->.
  destruct (rays_rgb_depth _ _ _ _ _ _ _ _ Ha) as (? & ? & ? & d1 & _ & Hd1 & _).
  destruct (rays_semantic_depth _ _ _ _ _ _ _ _ Ha0)
    as (ws & ds & cs & depth & Hs & Hd & Hp).
  exists self1, results1, ws, ds, cs, depth.
  split; [done|]. split; [by rewrite Hd1|].
  split; [done|]. split; [done|]. split; [done|].
  intros y. by rewrite rays_semantic_overwrites_depth.
Qed.

End PassTheorems.

Section RenderFacts.
Context `{RM : RayMarching} `{F : NeRFField}.

Lemma staged_row_raises fuel self rays_o rays_d kw N max_ray_batch b head bufs :
  (head < N)%Z →
  staged_row (S fuel) self rays_o rays_d kw N max_ray_batch b head bufs
  = Some (inl missing_argument).
Proof.
  intros Hlt. simpl.
  destruct (Z.ltb_spec head N) as [_|]; [done|lia].
Qed.

Lemma staged_rows_raises self rays_o rays_d kw N max_ray_batch b bs bufs :
  (0 < N)%Z →
  staged_rows self rays_o rays_d kw N max_ray_batch (b :: bs) bufs
  = Some (inl missing_argument).
Proof.
  intros HN. cbn [staged_rows]. by rewrite staged_row_raises.
Qed.

(** The staged branch cannot allocate its semantic buffer for a negative
    number of classes. *)
Lemma render_staged_negative self rays_o rays_d K max_ray_batch kw :
  cuda_ray self = false → (K < 0)%Z →
  render self rays_o rays_d K true max_ray_batch kw
  = Some (inl negative_dimension).
Proof.
  intros Hc HK. unfold render.
  destruct (shape2 rays_o) as [B N]; simpl. rewrite Hc; simpl.
  by destruct (Z.ltb_spec K 0) as [_|]; [|lia].
Qed.

(** With the buffers allocated, the staged branch raises as soon as there
    is one ray to render. *)
Lemma render_staged_raises self rays_o rays_d K max_ray_batch kw :
  cuda_ray self = false → (0 <= K)%Z →
  0 < (shape2 rays_o).1 → 0 < (shape2 rays_o).2 →
  render self rays_o rays_d K true max_ray_batch kw
  = Some (inl missing_argument).
Proof.
  intros Hc HK HB HN. unfold render.
  destruct (shape2 rays_o) as [B N]; simpl in *. rewrite Hc; simpl.
  destruct (Z.ltb_spec K 0) as [|_]; [lia|].
  destruct B as [|B]; [lia|].
  destruct (arange (S B)) as [|b bs] eqn:E; [done|].
  rewrite staged_rows_raises by lia. done.
Qed.

(** Outside the staged branch [render] is one call of [run_cuda]. *)
Lemma render_unstaged self rays_o rays_d K staged max_ray_batch kw :
  staged && negb (cuda_ray self) = false →
  render self rays_o rays_d K staged max_ray_batch kw
  = Some (run_cuda self rays_o rays_d K (bind_kwargs kw)).
Proof.
  intros H. unfold render. destruct (shape2 rays_o) as [B N].
  by rewrite H.
Qed.

(** With [cuda_ray] set, [staged] and [max_ray_batch] are ignored. *)
Lemma render_staged_ignored self rays_o rays_d K staged max_ray_batch
    staged' max_ray_batch' kw :
  cuda_ray self = true →
  render self rays_o rays_d K staged max_ray_batch kw
  = render self rays_o rays_d K staged' max_ray_batch' kw.
Proof.
  intros Hc. rewrite !render_unstaged; [done|..]; rewrite Hc; simpl;
    apply andb_false_r.
Qed.

Lemma render_inr self rays_o rays_d K staged max_ray_batch kw self2 results :
  render self rays_o rays_d K staged max_ray_batch kw
  = Some (inr (self2, results)) →
  0 < (shape2 rays_o).1 → 0 < (shape2 rays_o).2 →
  run_cuda self rays_o rays_d K (bind_kwargs kw) = inr (self2, results).
Proof.
  intros H HB HN.
  destruct (staged && negb (cuda_ray self)) eqn:E.
  - apply andb_true_iff in E as [-> Hc]. apply negb_true_iff in Hc.
    destruct (Z.lt_ge_cases K 0) as [HK|HK].
    + rewrite render_staged_negative in H by done. done.
    + rewrite render_staged_raises in H by done. done.
  - rewrite render_unstaged in H by done. by injection H.
Qed.

(** C10.  In [run_cuda] the RGB pass writes ["depth"] first and the
    semantic pass overwrites it: the returned depth is the normalised
    accumulated depth of the semantic pass, and the returned dictionary is
    the same whatever the RGB pass had stored under ["depth"].  A [render]
    of at least one ray that returns, returns that dictionary. *)
Theorem returned_depth_is_semantic_depth :
  (∀ self rays_o rays_d K o self2 results,
     run_cuda self rays_o rays_d K o = inr (self2, results) →
     ∃ self1 results1 ws ds cs depth,
       rays_rgb self ∅ rays_o rays_d K o = inr (self1, results1)
       ∧ is_Some (results1 !! "depth")
       ∧ semantic_sums self1 (flatten rays_o) (flatten rays_d) K
           (nears_of self1 rays_o rays_d) (fars_of self1 rays_o rays_d) o
           = inr (self2, (ws, ds, cs))
       ∧ per_ray_depth ds (nears_of self1 rays_o rays_d)
           (fars_of self1 rays_o rays_d) depth
       ∧ results !! "depth"
         = Some (RScalar (view2 (shape2 rays_o).1 (shape2 rays_o).2 depth))
       ∧ ∀ x, rays_semantic self1 (<["depth" := x]> results1) rays_o rays_d K o
              = inr (self2, results))
  ∧ (∀ self rays_o rays_d K staged max_ray_batch kw self2 results,
       render self rays_o rays_d K staged max_ray_batch kw
       = Some (inr (self2, results)) →
       0 < (shape2 rays_o).1 → 0 < (shape2 rays_o).2 →
       run_cuda self rays_o rays_d K (bind_kwargs kw) = inr (self2, results)).
Proof.
  split.
  - intros. by apply run_cuda_depth.
  - intros. by eapply render_inr.
Qed.

End RenderFacts.

(** ** Shapes *)

Lemma shape_of_cell {A B} (t1 : list (list A)) (t2 : list (list B)) cas i x :
  shape_of t1 = shape_of t2 → cell t1 cas i = Some x →
  ∃ y, cell t2 cas i = Some y.
Proof.
  unfold cell, shape_of. intros Hs Hc.
  destruct (t1 !! cas) as [row|] eqn:Hrow; [|done]. simpl in Hc.
  assert (Hl : (length <$> t2) !! cas = Some (length row)).
  { rewrite <- Hs, list_lookup_fmap, Hrow. done. }
  rewrite list_lookup_fmap in Hl.
  destruct (t2 !! cas) as [row2|]; [|done]. simpl in *.
  injection Hl as Hl.
  apply lookup_lt_Some in Hc. rewrite <- Hl in Hc.
  by apply lookup_lt_is_Some_2 in Hc as [y Hy]; exists y.
Qed.

Lemma shape_of_full_like {A B} (v : B) (t : list (list A)) :
  shape_of (full_like v t) = shape_of t.
Proof.
  unfold shape_of, full_like, full_like1.
  rewrite <- list_fmap_compose. apply list_fmap_ext.
  intros _ row _. simpl. apply length_map.
Qed.

Lemma scatter_length row indices values row' :
  scatter row indices values = inr row' → length row' = length row.
Proof.
  revert row values. induction indices as [|i indices IH];
    intros row [|v values] H; simpl in *; try done.
  - by injection H as <-.
  - case_decide; [|done]. rewrite (IH _ _ H). apply length_insert.
Qed.

Lemma scatter_row_shape t cas indices values t' :
  scatter_row t cas indices values = inr t' → shape_of t' = shape_of t.
Proof.
  unfold scatter_row. destruct (t !! Z.to_nat cas) as [row|] eqn:Hrow; [|done].
  intros H. inv_bind H. injection H as <-.
  unfold shape_of. rewrite list_fmap_insert.
  apply list_insert_id. rewrite list_lookup_fmap, Hrow. simpl.
  by rewrite (scatter_length _ _ _ _ Ha).
Qed.

Section UpdaterFacts.
Context `{RM : RayMarching} `{F : NeRFField} `{TR : TorchRandom}.

Lemma query_and_assign_shape self g cas coords indices t t' g' :
  query_and_assign self g cas coords indices t = inr (t', g') →
  shape_of t' = shape_of t.
Proof.
  unfold query_and_assign. intros H.
  inv_bind H. destruct (rand_like3 _ _) as [noise g1].
  inv_bind H. inv_bind H. injection H as <- <-.
  by eapply scatter_row_shape.
Qed.

Lemma full_cascades_shape self g cass coords indices t t' g' :
  full_cascades self g cass coords indices t = inr (t', g') →
  shape_of t' = shape_of t.
Proof.
  revert g t. induction cass as [|cas cass IH]; intros g t H; simpl in *.
  - by injection H as <- <-.
  - inv_bind H. destruct a as [t1 g1].
    rewrite (IH _ _ H). by eapply query_and_assign_shape.
Qed.

Lemma full_blocks_shape self g blocks t t' g' :
  full_blocks self g blocks t = inr (t', g') → shape_of t' = shape_of t.
Proof.
  revert g t. induction blocks as [|[[xs ys] zs] blocks IH]; intros g t H;
    simpl in *.
  - by injection H as <- <-.
  - inv_bind H. destruct a as [t1 g1].
    rewrite (IH _ _ H). by eapply full_cascades_shape.
Qed.

Lemma partial_sweep_shape self e g cass t t' g' :
  partial_sweep self e g cass t = inr (t', g') → shape_of t' = shape_of t.
Proof.
  revert g t. induction cass as [|cas cass IH]; intros g t H; simpl in *.
  - by injection H as <- <-.
  - inv_bind H. destruct a as [coords g1].
    inv_bind H. inv_bind H. destruct a0 as [rand_mask g2].
    inv_bind H. inv_bind H. destruct a1 as [t1 g3].
    rewrite (IH _ _ H). by eapply query_and_assign_shape.
Qed.

(** [tmp_grid] has the shape of the density grid. *)
Lemma sweep_shape self e g S tmp_grid g' :
  sweep self e g S = inr (tmp_grid, g') →
  shape_of tmp_grid = shape_of (density_grid e).
Proof.
  unfold sweep. intros H.
  rewrite <- (shape_of_full_like (of_Z (-1)) (density_grid e)).
  destruct (iter_density e <? 16)%Z.
  - unfold full_sweep in H. inv_bind H. inv_bind H. inv_bind H.
    by eapply full_blocks_shape.
  - by eapply partial_sweep_shape.
Qed.

End UpdaterFacts.

(** ** The ema update *)

Lemma ema_update_cell decay grid tmp cas i :
  cell (ema_update decay grid tmp) cas i
  = old ← cell grid cas i; fresh ← cell tmp cas i; Some (ema_cell decay old fresh).
Proof.
  unfold cell, ema_update. rewrite lookup_zip_with.
  destruct (grid !! cas) as [row|]; [|done]; simpl.
  destruct (tmp !! cas) as [trow|]; simpl.
  - rewrite lookup_zip_with. done.
  - by destruct (row !! i).
Qed.

Lemma shape_of_ema_update decay grid tmp :
  shape_of tmp = shape_of grid → shape_of (ema_update decay grid tmp) = shape_of grid.
Proof.
  unfold shape_of, ema_update. revert tmp.
  induction grid as [|row grid IH]; intros [|trow tmp] H; simpl in *; try done.
  injection H as H1 H2. rewrite length_zip_with. f_equal; [lia|by apply IH].
Qed.

Lemma valid_mask_minus_one v tmp :
  feqb v (of_Z (-1)) = true → valid_mask v tmp = false.
Proof.
  unfold valid_mask, fge, feqb, of_Z, inject_Z.
  destruct v as [q|[]|]; cbn [fle fzero]; try done.
  intros H. apply andb_true_iff in H as [H _]. apply Qle_bool_iff in H.
  destruct (Qle_bool 0 q) eqn:E; [|done].
  apply Qle_bool_iff in E. lra.
Qed.

Lemma ema_cell_invalid decay old tmp :
  valid_mask old tmp = false → ema_cell decay old tmp = old.
Proof. unfold ema_cell. by intros ->. Qed.


Lemma zip_with_idempotent {A B} (f : A → B → A) (l : list A) (k : list B) :
  (∀ a b, f (f a b) b = f a b) →
  zip_with f (zip_with f l k) k = zip_with f l k.
Proof.
  intros Hf. revert k. induction l as [|a l IH]; intros [|b k]; simpl; try done.
  by rewrite Hf, IH.
Qed.


Lemma mark_untrained_cell grid count cas i old :
  cell grid cas i = Some old → cell count cas i = Some 0%Z →
  cell (mark_untrained grid count) cas i = Some (of_Z (-1)).
Proof.
  unfold cell, mark_untrained. intros Hg Hc. rewrite lookup_zip_with.
  destruct (grid !! cas) as [row|]; [|done]; simpl in *.
  destruct (count !! cas) as [crow|]; [|done]; simpl in *.
  rewrite lookup_zip_with, Hg; simpl. by rewrite Hc.
Qed.

Section UpdaterTheorems.
Context `{RM : RayMarching} `{F : NeRFField} `{TR : TorchRandom}.

Lemma update_extra_state_inr self g decay S self' g' e :
  extra self = Some e →
  update_extra_state self g decay S = inr (self', g') →
  ∃ tmp_grid,
    sweep self e g S = inr (tmp_grid, g')
    ∧ self' = set_extra self (apply_update self e decay tmp_grid).
Proof.
  unfold update_extra_state. intros -> H.
  inv_bind H. destruct a as [tmp_grid g1]. injection H as <- <-.
  by exists tmp_grid.
Qed.

Lemma update_cells self g decay S self' g' e :
  extra self = Some e →
  update_extra_state self g decay S = inr (self', g') →
  ∃ tmp_grid e',
    sweep self e g S = inr (tmp_grid, g')
    ∧ extra self' = Some e'
    ∧ ∀ cas i old,
        cell (density_grid e) cas i = Some old →
        ∃ fresh,
          cell tmp_grid cas i = Some fresh
          ∧ cell (density_grid e') cas i
            = Some (if fge old fzero && fge fresh fzero
                    then maximum (fmul old decay) fresh
                    else old).
Proof.
  intros He H.
  destruct (update_extra_state_inr _ _ _ _ _ _ _ He H) as (tmp & Hs & ->).
  exists tmp, (apply_update self e decay tmp).
  split; [done|]. split; [done|].
  intros cas i old Hold.
  pose proof (sweep_shape _ _ _ _ _ _ Hs) as Hshape.
  destruct (shape_of_cell _ tmp _ _ _ (eq_sym Hshape) Hold) as [fresh Hf].
  exists fresh. split; [done|].
  simpl. rewrite ema_update_cell, Hold, Hf. done.
Qed.

(** C5.  In a grid update every voxel whose stored value and freshly
    evaluated value are both [>= 0] becomes
    [max(old_value * decay, freshly_evaluated_value)], and every other voxel
    keeps its value. *)
Theorem ema_update_rule self g decay S self' g' e :
  extra self = Some e →
  update_extra_state self g decay S = inr (self', g') →
  ∃ tmp_grid e',
    sweep self e g S = inr (tmp_grid, g')
    ∧ extra self' = Some e'
    ∧ ∀ cas i old,
        cell (density_grid e) cas i = Some old →
        ∃ fresh,
          cell tmp_grid cas i = Some fresh
          ∧ cell (density_grid e') cas i
            = Some (if fge old fzero && fge fresh fzero
                    then maximum (fmul old decay) fresh
                    else old).
Proof. apply update_cells. Qed.

Lemma update_keeps_invalid self g decay S self' g' e cas i v :
  update_extra_state self g decay S = inr (self', g') →
  extra self = Some e →
  cell (density_grid e) cas i = Some v →
  fge v fzero = false →
  ∃ e', extra self' = Some e' ∧ cell (density_grid e') cas i = Some v.
Proof.
  intros H He Hc Hv.
  destruct (update_cells _ _ _ _ _ _ _ He H) as (tmp & e' & _ & He' & Hrule).
  exists e'. split; [done|].
  destruct (Hrule cas i v Hc) as (fresh & _ & ->). by rewrite Hv.
Qed.

Lemma minus_one_invalid v : feqb v (of_Z (-1)) = true → fge v fzero = false.
Proof.
  intros H. pose proof (valid_mask_minus_one v fzero H) as Hv.
  unfold valid_mask in Hv. apply andb_false_iff in Hv as [Hv|Hv]; done.
Qed.

Lemma update_many_keeps self g calls self' g' e cas i v :
  update_many self g calls = inr (self', g') →
  extra self = Some e →
  cell (density_grid e) cas i = Some v →
  fge v fzero = false →
  ∃ e', extra self' = Some e' ∧ cell (density_grid e') cas i = Some v.
Proof.
  revert self g e. induction calls as [|[decay size] calls IH];
    intros self g e H He Hc Hv; simpl in H.
  - injection H as <- <-. eauto.
  - inv_bind H. destruct a as [self1 g1].
    destruct (update_keeps_invalid _ _ _ _ _ _ _ _ _ _ Ha He Hc Hv)
      as (e1 & He1 & Hc1).
    by eapply IH.
Qed.

(** C6.  A voxel that stores -1 still stores -1 after a call of
    [update_extra_state], and after any number of successive calls; the
    voxels the visibility pass marks (camera count 0) store -1; and without
    [cuda_ray] the call changes nothing. *)
Theorem never_visible_cells_kept :
  (∀ self g decay S self' g' e cas i v,
     update_extra_state self g decay S = inr (self', g') →
     extra self = Some e →
     cell (density_grid e) cas i = Some v →
     feqb v (of_Z (-1)) = true →
     ∃ e', extra self' = Some e' ∧ cell (density_grid e') cas i = Some v)
  ∧ (∀ self g calls self' g' e cas i v,
       update_many self g calls = inr (self', g') →
       extra self = Some e →
       cell (density_grid e) cas i = Some v →
       feqb v (of_Z (-1)) = true →
       ∃ e', extra self' = Some e' ∧ cell (density_grid e') cas i = Some v)
  ∧ (∀ grid count cas i old,
       cell grid cas i = Some old → cell count cas i = Some 0%Z →
       cell (mark_untrained grid count) cas i = Some (of_Z (-1)))
  ∧ (∀ self g decay S, extra self = None →
       update_extra_state self g decay S = inr (self, g)).
Proof.
  split; [|split; [|split]].
  - intros. eapply update_keeps_invalid; eauto using minus_one_invalid.
  - intros. eapply update_many_keeps; eauto using minus_one_invalid.
  - apply mark_untrained_cell.
  - intros self g decay S He. unfold update_extra_state. by rewrite He.
Qed.


End UpdaterTheorems.

(** ** Renders without buffers, of no ray, and in inference mode *)

Section RenderEdges.
Context `{RM : RayMarching} `{F : NeRFField}.

Lemma training_counter_no_cuda self :
  cuda_ray self = false →
  training_counter self = inl (AttributeError "step_counter").
Proof.
  unfold training_counter, getattr, cuda_ray. by destruct (extra self).
Qed.

Lemma initial_state_alive N C ns :
  length (rays_alive (initial_state N C ns)) = N.
Proof. simpl. unfold arange. by rewrite length_fmap, length_seq. Qed.

Lemma rgb_round_no_cuda self ro rd ns fs o s n k x :
  cuda_ray self = false →
  rgb_round self ro rd ns fs o s n k x = inl (AttributeError "density_bitfield").
Proof.
  unfold rgb_round, getattr, cuda_ray. by destruct (extra self).
Qed.

Lemma rgb_sums_no_cuda self ro rd ns fs o :
  cuda_ray self = false →
  training self = true ∨ (0 < length ro ∧ (0 < max_steps o)%Z) →
  rgb_sums self ro rd ns fs o = inl (no_buffers_error self).
Proof.
  intros Hc Hcase. unfold rgb_sums, no_buffers_error.
  destruct (training self) eqn:Ht.
  - by rewrite training_counter_no_cuda.
  - destruct Hcase as [?|[HN Hs]]; [done|].
    rewrite march_loop_round; [|done|rewrite initial_state_alive; lia].
    by rewrite rgb_round_no_cuda.
Qed.

Lemma flatten_nonempty {A} (t : list (list A)) :
  0 < (shape2 t).1 → 0 < (shape2 t).2 → 0 < length (flatten t).
Proof.
  unfold shape2, flatten. destruct t as [|row t]; simpl; [lia|].
  intros _ H. rewrite length_app. lia.
Qed.

Lemma run_cuda_no_cuda self rays_o rays_d K o :
  cuda_ray self = false →
  0 < (shape2 rays_o).1 → 0 < (shape2 rays_o).2 →
  training self = true ∨ (0 < max_steps o)%Z →
  run_cuda self rays_o rays_d K o = inl (no_buffers_error self).
Proof.
  intros Hc HB HN Hcase. unfold run_cuda, rays_rgb.
  destruct (shape2 rays_o) as [B Np] eqn:Hshape.
  destruct (near_far_from_aabb _ _ _ _) as [nears fars].
  assert (Hlen : 0 < length (flatten rays_o)).
  { apply flatten_nonempty; by rewrite Hshape. }
  rewrite rgb_sums_no_cuda; [done..|].
  destruct Hcase; [by left|right; by split].
Qed.

Lemma render_no_cuda self rays_o rays_d K staged max_ray_batch kw :
  cuda_ray self = false →
  0 < (shape2 rays_o).1 → 0 < (shape2 rays_o).2 →
  training self = true ∨ (0 < max_steps (bind_kwargs kw))%Z →
  render self rays_o rays_d K staged max_ray_batch kw
  = Some (inl (if staged
               then if (K <? 0)%Z then negative_dimension else missing_argument
               else if training self then AttributeError "step_counter"
               else AttributeError "density_bitfield")).
Proof.
  intros Hc HB HN Hcase. destruct staged.
  - destruct (Z.ltb_spec K 0).
    + by apply render_staged_negative.
    + by apply render_staged_raises.
  - rewrite render_unstaged by done. by rewrite run_cuda_no_cuda.
Qed.

(** X1.  A render of at least one ray on a renderer constructed without
    [cuda_ray] never returns.  The staged branch raises: [RuntimeError]
    when it allocates the semantic buffer if [semantic_class_length] is
    negative, and otherwise the [TypeError] of its first chunk's call,
    which passes no [semantic_class_length].  The other branch raises
    [AttributeError] at the first missing buffer, [step_counter] in
    training mode and [density_bitfield] in inference mode (there, as soon
    as [max_steps] allows one round). *)
Theorem render_without_cuda_ray_raises self rays_o rays_d K staged
    max_ray_batch kw :
  cuda_ray self = false →
  0 < (shape2 rays_o).1 → 0 < (shape2 rays_o).2 →
  training self = true ∨ (0 < max_steps (bind_kwargs kw))%Z →
  render self rays_o rays_d K staged max_ray_batch kw
  = Some (inl (if staged
               then if (K <? 0)%Z then negative_dimension else missing_argument
               else if training self then AttributeError "step_counter"
               else AttributeError "density_bitfield")).
Proof. apply render_no_cuda. Qed.

End RenderEdges.

Section RenderEdges2.
Context `{RM : RayMarching} `{F : NeRFField}.

Lemma staged_rows_empty self rays_o rays_d kw max_ray_batch bs bufs :
  staged_rows self rays_o rays_d kw 0 max_ray_batch bs bufs
  = Some (inr (self, bufs)).
Proof. induction bs as [|b bs IH]; simpl; [done|exact IH]. Qed.

(** X2.  A staged render of a batch whose rows hold no ray, on a renderer
    without [cuda_ray], calls nothing.  With a negative
    [semantic_class_length] it raises [RuntimeError] when it allocates the
    semantic buffer; otherwise it returns the renderer unchanged and the
    three empty buffers, one empty row per batch entry. *)
Theorem staged_render_of_no_rays self rays_o rays_d K max_ray_batch kw :
  cuda_ray self = false →
  (shape2 rays_o).2 = 0 →
  render self rays_o rays_d K true max_ray_batch kw
  = Some (if (K <? 0)%Z then inl negative_dimension
          else inr (self,
            <["semantic" := RVector (replicate (length rays_o) [])]>
              (<["image" := RVector (replicate (length rays_o) [])]>
                 (<["depth" := RScalar (replicate (length rays_o) [])]> ∅)))).
Proof.
  intros Hc HN. unfold render.
  destruct (shape2 rays_o) as [B N] eqn:Hs. simpl in HN. subst N.
  rewrite Hc. simpl. destruct (K <? 0)%Z; [done|].
  rewrite staged_rows_empty. simpl.
  unfold shape2 in Hs. by injection Hs as <- _.
Qed.

Lemma rgb_sums_inference self ro rd ns fs o self' r :
  training self = false →
  rgb_sums self ro rd ns fs o = inr (self', r) → self' = self.
Proof.
  unfold rgb_sums. intros -> H. inv_bind H. by injection H as <- _.
Qed.

Lemma semantic_sums_inference self ro rd K ns fs o self' r :
  training self = false →
  semantic_sums self ro rd K ns fs o = inr (self', r) → self' = self.
Proof.
  unfold semantic_sums. intros -> H. destruct (K <? 0)%Z; [done|].
  inv_bind H. by injection H as <- _.
Qed.

Lemma run_cuda_inr self rays_o rays_d K o self2 results :
  run_cuda self rays_o rays_d K o = inr (self2, results) →
  ∃ self1 results1,
    rays_rgb self ∅ rays_o rays_d K o = inr (self1, results1)
    ∧ rays_semantic self1 results1 rays_o rays_d K o = inr (self2, results).
Proof.
  unfold run_cuda. intros H. inv_bind H. destruct a as [self1 results1].
  inv_bind H. destruct a as [s2 r2]. injection H as <- <-. eauto.
Qed.

(** X3.  A render in inference mode that returns leaves the renderer as
    it was: no buffer and no counter is written. *)
Theorem inference_render_keeps_renderer self rays_o rays_d K staged
    max_ray_batch kw self' results :
  training self = false →
  render self rays_o rays_d K staged max_ray_batch kw
  = Some (inr (self', results)) →
  self' = self.
Proof.
  intros Ht H. unfold render in H.
  destruct (shape2 rays_o) as [B N].
  destruct (staged && negb (cuda_ray self)) eqn:E.
  - destruct (K <? 0)%Z; [done|].
    assert (Hrows : ∀ bs bufs r,
        staged_rows self rays_o rays_d kw (Z.of_nat N) max_ray_batch bs bufs
        = Some (inr r) → r.1 = self).
    { induction bs as [|b bs IH]; intros bufs r Hr; simpl in Hr.
      - by injection Hr as <-.
      - cbn [staged_row call_run_cuda] in Hr.
        destruct (0 <? Z.of_nat N)%Z; [done|]. by apply IH in Hr. }
    destruct (staged_rows _ _ _ _ _ _ _ _) as [[e|[s b]]|] eqn:Er; try done.
    injection H as <- _. by apply Hrows in Er.
  - injection H as H. unfold call_run_cuda in H.
    apply run_cuda_inr in H as (self1 & results1 & H1 & H2).
    apply rays_rgb_inr in H1 as (? & ? & ? & ? & ? & H1 & _).
    apply rgb_sums_inference in H1 as ->; [|done].
    apply rays_semantic_inr in H2 as (? & ? & ? & ? & H2 & _).
    by apply semantic_sums_inference in H2.
Qed.

End RenderEdges2.

(** ** Training passes and the results dictionary *)

Section TrainingFacts.
Context `{RM : RayMarching} `{F : NeRFField}.

Lemma training_counter_inr self e slot counter :
  training_counter self = inr (e, slot, counter) →
  extra self = Some e ∧ slot = counter_slot e
  ∧ slot < length (step_counter e).
Proof.
  unfold training_counter, getattr. destruct (extra self) as [e0|]; [|done].
  simpl. destruct (step_counter e0 !! _) as [row|] eqn:Hrow; [|done].
  intros H. injection H as <- <- _.
  split; [done|]. split; [done|]. by apply lookup_lt_Some in Hrow.
Qed.

Lemma rgb_sums_training self ro rd ns fs o self' r :
  training self = true →
  rgb_sums self ro rd ns fs o = inr (self', r) →
  ∃ e counter,
    extra self = Some e
    ∧ counter_slot e < length (step_counter e)
    ∧ self' = store_counter self e (counter_slot e) counter.
Proof.
  unfold rgb_sums. intros -> H. inv_bind H. destruct a as [[e slot] counter].
  apply training_counter_inr in Ha as (He & -> & Hlt).
  destruct (march_rays_train _ _ _ _ _ _ _ _ _ _ _ _ _ _ _)
    as [[[[xyzs dirs] deltas] rays] counter'].
  destruct (forward _ _) as [[sigmas rgbs] semantics].
  injection H as <- _. by exists e, counter'.
Qed.

Lemma semantic_sums_training self ro rd K ns fs o self' r :
  training self = true →
  semantic_sums self ro rd K ns fs o = inr (self', r) →
  ∃ e counter,
    extra self = Some e
    ∧ counter_slot e < length (step_counter e)
    ∧ self' = store_counter self e (counter_slot e) counter.
Proof.
  unfold semantic_sums. intros -> H. inv_bind H. destruct a as [[e slot] counter].
  apply training_counter_inr in Ha as (He & -> & Hlt).
  destruct (march_rays_train _ _ _ _ _ _ _ _ _ _ _ _ _ _ _)
    as [[[[xyzs dirs] deltas] rays] counter'].
  destruct (forward _ _) as [[sigmas rgbs] semantics].
  injection H as <- _. by exists e, counter'.
Qed.

(** X4.  One training call of [run_cuda] runs two passes, so it advances
    [local_step] by two and writes two slots of the ring of 16 step
    counters, [local_step % 16] and [(local_step + 1) % 16]; the other
    slots, the grid, the bitfield and the means are left alone. *)
Theorem training_render_uses_two_slots self rays_o rays_d K o self2 results :
  training self = true →
  run_cuda self rays_o rays_d K o = inr (self2, results) →
  ∃ e e2,
    extra self = Some e ∧ extra self2 = Some e2
    ∧ local_step e2 = (local_step e + 2)%Z
    ∧ length (step_counter e2) = length (step_counter e)
    ∧ (∀ k, k ≠ Z.to_nat (local_step e mod 16) →
            k ≠ Z.to_nat ((local_step e + 1) mod 16) →
            step_counter e2 !! k = step_counter e !! k)
    ∧ density_grid e2 = density_grid e
    ∧ density_bitfield e2 = density_bitfield e
    ∧ mean_density e2 = mean_density e
    ∧ iter_density e2 = iter_density e
    ∧ mean_count e2 = mean_count e.
Proof.
  intros Ht H.
  apply run_cuda_inr in H as (self1 & results1 & H1 & H2).
  apply rays_rgb_inr in H1 as (? & ? & ? & ? & ? & H1 & _).
  apply rgb_sums_training in H1 as (e & c1 & He & Hlt1 & ->); [|done].
  apply rays_semantic_inr in H2 as (? & ? & ? & ? & H2 & _).
  apply semantic_sums_training in H2 as (e1 & c2 & He1 & Hlt2 & ->); [|done].
  simpl in He1. injection He1 as <-.
  eexists e, _. split; [done|]. split; [reflexivity|]. simpl.
  split; [lia|]. split; [by rewrite !length_insert|].
  split; [|done].
  intros k Hk1 Hk2. unfold counter_slot; simpl.
  rewrite list_lookup_insert_ne by done.
  by rewrite list_lookup_insert_ne.
Qed.

(** X5.  The results of [run_cuda] hold exactly the keys [depth],
    [image] and [semantic], and in training mode also [weights_sum_rgb]
    and [weights_sum_semantic]; the three tensors have one row per batch
    entry of [rays_o]. *)
Theorem returned_keys self rays_o rays_d K o self2 results :
  run_cuda self rays_o rays_d K o = inr (self2, results) →
  dom results
  = (if training self
     then {["weights_sum_rgb"; "weights_sum_semantic"]} else ∅)
    ∪ {["depth"; "image"; "semantic"]}
  ∧ (∃ d, results !! "depth" = Some (RScalar d)
          ∧ length d = length rays_o)
  ∧ (∃ i, results !! "image" = Some (RVector i) ∧ length i = length rays_o)
  ∧ (∃ s, results !! "semantic" = Some (RVector s)
          ∧ length s = length rays_o).
Proof.
  intros H.
  apply run_cuda_inr in H as (self1 & results1 & H1 & H2).
  apply rays_rgb_inr in H1 as (ws & ? & ? & image & ? & H1 & _ & _ & ->).
  assert (Ht : training self1 = training self).
  { by apply rgb_sums_frame in H1 as (_ & _ & ? & _). }
  apply rays_semantic_inr in H2 as (ws' & ? & cs & depth & H2 & _ & ->).
  rewrite Ht. split.
  - destruct (training self); rewrite !dom_insert_L, dom_empty_L; set_solver.
  - unfold shape2; simpl. split; [|split].
    + eexists. rewrite lookup_insert_ne by done. rewrite lookup_insert_eq.
      split; [done|]. apply length_view2.
    + eexists.
      rewrite lookup_insert_ne by done. rewrite lookup_insert_ne by done.
      destruct (training self).
      * rewrite lookup_insert_ne by done. rewrite lookup_insert_eq.
        split; [done|]. apply length_view2.
      * rewrite lookup_insert_eq. split; [done|]. apply length_view2.
    + eexists. rewrite lookup_insert_eq. split; [done|]. apply length_view2.
Qed.

End TrainingFacts.

(** ** The sample budget of the inference loop *)

Lemma compact_steps_budget (N n : Z) :
  (0 < n <= N)%Z → (n * compact_steps N n <= N)%Z.
Proof.
  intros [Hn HN]. unfold compact_steps.
  assert (1 <= N / n)%Z by (apply Z.div_le_lower_bound; lia).
  pose proof (Z.mul_div_le N n Hn). nia.
Qed.

Lemma march_loop_budget body N max_steps step st seen r :
  (∀ s n k x x', body s n k x = inr x' →
     length (rays_alive x') ≤ length (rays_alive x)) →
  march_loop body N max_steps step st seen = inr r →
  (Z.of_nat (length (rays_alive st)) <= N)%Z →
  ∃ new,
    rounds r = seen ++ new
    ∧ Forall (within_budget N) new
    ∧ alive_decreasing (Z.of_nat (length (rays_alive st))) new
    ∧ length (rays_alive (final_state r)) ≤ length (rays_alive st).
Proof.
  intros Hbody.
  funelim (march_loop body N max_steps step st seen); intros Hr HN.
  - injection Hr as <-. exists []. simpl. by rewrite app_nil_r.
  - injection Hr as <-. exists []. simpl. by rewrite app_nil_r.
  - done.
  - pose proof (Hbody _ _ _ _ _ Heq) as Hlen.
    destruct (H r Hbody Hr ltac:(lia)) as (new & Hrounds & Hb & Hd & Hfin).
    eexists (_ :: new). rewrite <- app_assoc in Hrounds.
    split; [exact Hrounds|]. split; [|split].
    + apply Forall_cons. split; [|done]. unfold within_budget; simpl.
      split; [lia|]. apply compact_steps_budget. lia.
    + simpl. split; [lia|].
      clear -Hd Hlen. revert Hd.
      generalize (length (rays_alive st')) (length (rays_alive st)) Hlen.
      intros a b Hab. destruct new as [|rd new]; simpl; [done|].
      intros [? ?]. split; [lia|done].
    + lia.
Qed.

Section BudgetFacts.
Context `{RM : RayMarching} `{F : NeRFField}.

Lemma rgb_round_alive self ro rd ns fs o s n k x x' :
  composites_in_place →
  rgb_round self ro rd ns fs o s n k x = inr x' →
  length (rays_alive x') ≤ length (rays_alive x).
Proof.
  intros [Hrgb _]. unfold rgb_round. intros H. inv_bind H.
  destruct (march_rays _ _ _ _ _ _ _ _ _ _ _ _ _ _ _ _) as [[xyzs dirs] deltas].
  destruct (forward _ _) as [[sigmas rgbs] sem].
  match type of H with
  | context [composite_rays_rgb ?a ?b ?al ?ts ?sg ?ch ?dl ?ws ?dp ?im ?T] =>
      pose proof (Hrgb a b al ts sg ch dl ws dp im T) as Hl;
      destruct (composite_rays_rgb a b al ts sg ch dl ws dp im T)
        as [[[[alive' ts'] ws'] dp'] im']
  end.
  injection H as <-. simpl in *. rewrite <- Hl. apply length_filter.
Qed.

Lemma semantic_round_alive self ro rd K ns fs o s n k x x' :
  composites_in_place →
  semantic_round self ro rd K ns fs o s n k x = inr x' →
  length (rays_alive x') ≤ length (rays_alive x).
Proof.
  intros [_ Hsem]. unfold semantic_round. intros H. inv_bind H.
  destruct (march_rays _ _ _ _ _ _ _ _ _ _ _ _ _ _ _ _) as [[xyzs dirs] deltas].
  destruct (forward _ _) as [[sigmas rgbs] sem].
  match type of H with
  | context [composite_rays_semantic ?a ?b ?al ?ts ?sg ?ch ?K ?dl ?ws ?dp ?im ?T] =>
      pose proof (Hsem a b al ts sg ch K dl ws dp im T) as Hl;
      destruct (composite_rays_semantic a b al ts sg ch K dl ws dp im T)
        as [[[[alive' ts'] ws'] dp'] im']
  end.
  injection H as <-. simpl in *. rewrite <- Hl. apply length_filter.
Qed.

(** X6.  When the inference compositors keep the length of [rays_alive]
    (they write into it in place), every round of an inference loop over
    [N] rays marches at most [N] samples ([n_alive * n_step <= N]), the
    number of alive rays never grows from one round to the next, and at
    most [N] rays are alive at the end. *)
Theorem round_budget self rays_o rays_d K nears fars o r :
  composites_in_place →
  march_loop (rgb_round self rays_o rays_d nears fars o)
    (Z.of_nat (length rays_o)) (max_steps o) 0
    (initial_state (length rays_o) 3 nears) [] = inr r
  ∨ march_loop (semantic_round self rays_o rays_d K nears fars o)
      (Z.of_nat (length rays_o)) (max_steps o) 0
      (initial_state (length rays_o) (Z.to_nat K) nears) [] = inr r →
  Forall (within_budget (Z.of_nat (length rays_o))) (rounds r)
  ∧ alive_decreasing (Z.of_nat (length rays_o)) (rounds r)
  ∧ length (rays_alive (final_state r)) ≤ length rays_o.
Proof.
  intros Hk [H|H].
  - apply march_loop_budget in H as (new & Hr & Hb & Hd & Hf);
      [|intros; by eapply rgb_round_alive|rewrite initial_state_alive; lia].
    rewrite initial_state_alive in Hd, Hf. simpl in Hr. by rewrite Hr.
  - apply march_loop_budget in H as (new & Hr & Hb & Hd & Hf);
      [|intros; by eapply semantic_round_alive|rewrite initial_state_alive; lia].
    rewrite initial_state_alive in Hd, Hf. simpl in Hr. by rewrite Hr.
Qed.

End BudgetFacts.

(** ** Valid voxels and the bookkeeping of the updater *)

Lemma same_configuration_refl self : same_configuration self self.
Proof. by repeat split. Qed.

Lemma same_configuration_set_extra self e :
  same_configuration self (set_extra self e).
Proof. by repeat split. Qed.

Lemma same_configuration_trans s1 s2 s3 :
  same_configuration s1 s2 → same_configuration s2 s3 →
  same_configuration s1 s3.
Proof.
  unfold same_configuration. intros H1 H2.
  destruct H1 as (?&?&?&?&?&?&?&?&?&?), H2 as (?&?&?&?&?&?&?&?&?&?).
  repeat split; congruence.
Qed.

Lemma fmul_pos_valid old (d : Q) :
  (0 < d)%Q → fge old fzero = true → fge (fmul old (FFin d)) fzero = true.
Proof.
  intros Hd. unfold fge. destruct old as [a|[]|]; simpl; try done.
  - intros Ha. apply Qle_bool_iff in Ha. apply Qle_bool_iff.
    apply Qmult_le_0_compat; lra.
  - intros _. assert (qzero d = false) as ->.
    { unfold qzero. destruct (Qeq_bool d 0) eqn:E; [|done].
      apply Qeq_bool_iff in E. lra. }
    rewrite qneg_false by lra. done.
Qed.

Lemma fmul_decay_le old (d : Q) :
  (0 < d <= 1)%Q → fge old fzero = true → fle (fmul old (FFin d)) old = true.
Proof.
  intros Hd. unfold fge. destruct old as [a|[]|]; simpl; try done.
  - intros Ha. apply Qle_bool_iff in Ha. apply Qle_bool_iff. nra.
  - intros _. assert (qzero d = false) as ->.
    { unfold qzero. destruct (Qeq_bool d 0) eqn:E; [|done].
      apply Qeq_bool_iff in E. lra. }
    rewrite qneg_false by lra. done.
Qed.

Lemma fle_trans_zero x y :
  fle fzero x = true → fle x y = true → fle fzero y = true.
Proof.
  destruct x as [a|[]|], y as [b|[]|]; simpl; try done.
  intros H1 H2. apply Qle_bool_iff in H1, H2. apply Qle_bool_iff. lra.
Qed.

Lemma maximum_ge_l x y :
  is_nan x = false → is_nan y = false → fle x (maximum x y) = true.
Proof.
  intros Hx Hy.
  assert (Hm : maximum x y = if fle x y then y else x) by by destruct x, y.
  rewrite Hm. destruct (fle x y) eqn:E; [done|]. by apply fle_refl.
Qed.

Lemma fle_total x y :
  is_nan x = false → is_nan y = false → fle x y = false → fle y x = true.
Proof.
  destruct x as [a|[]|], y as [b|[]|]; simpl; try done.
  intros _ _ H. apply Qle_bool_false in H. apply Qle_bool_iff. lra.
Qed.

Lemma maximum_ge_r x y :
  is_nan x = false → is_nan y = false → fle y (maximum x y) = true.
Proof.
  intros Hx Hy.
  assert (Hm : maximum x y = if fle x y then y else x) by by destruct x, y.
  rewrite Hm. destruct (fle x y) eqn:E; [by apply fle_refl|].
  by apply fle_total.
Qed.

(** The ema update of one voxel under a decay in (0, 1]. *)
Lemma ema_cell_bounds (d : Q) old fresh :
  (0 < d <= 1)%Q → fge old fzero = true →
  fge (ema_cell (FFin d) old fresh) fzero = true
  ∧ fle (fmul old (FFin d)) (ema_cell (FFin d) old fresh) = true
  ∧ (fge fresh fzero = true → fle fresh (ema_cell (FFin d) old fresh) = true).
Proof.
  intros Hd Ho. unfold ema_cell, valid_mask. rewrite Ho. cbn [andb].
  pose proof (fmul_pos_valid old d ltac:(lra) Ho) as Hp.
  destruct (fge fresh fzero) eqn:Hf.
  - pose proof (fge_not_nan _ _ Hp) as N1.
    pose proof (fge_not_nan _ _ Hf) as N2.
    split; [|split].
    + unfold fge. eapply fle_trans_zero; [exact Hf|].
      by apply maximum_ge_r.
    + by apply maximum_ge_l.
    + intros _. by apply maximum_ge_r.
  - split; [done|]. split; [|done]. by apply fmul_decay_le.
Qed.

Section UpdaterEdges.
Context `{RM : RayMarching} `{F : NeRFField} `{TR : TorchRandom}.

(** X7.  Under a decay in (0, 1] a voxel that stores a value [>= 0]
    stores a value [>= 0] after [update_extra_state]: the new value is at
    least [old * decay], and at least the freshly queried density when
    that one is [>= 0].  A valid voxel never becomes a never-visible
    one. *)
Theorem update_keeps_valid_cells self g (d : Q) S self' g' e cas i old :
  (0 < d <= 1)%Q →
  update_extra_state self g (FFin d) S = inr (self', g') →
  extra self = Some e →
  cell (density_grid e) cas i = Some old →
  fge old fzero = true →
  ∃ tmp_grid e' fresh new,
    sweep self e g S = inr (tmp_grid, g')
    ∧ extra self' = Some e'
    ∧ cell tmp_grid cas i = Some fresh
    ∧ cell (density_grid e') cas i = Some new
    ∧ fge new fzero = true
    ∧ fle (fmul old (FFin d)) new = true
    ∧ (fge fresh fzero = true → fle fresh new = true).
Proof.
  intros Hd H He Hc Ho.
  destruct (update_cells _ _ _ _ _ _ _ He H) as (tmp & e' & Hs & He' & Hrule).
  destruct (Hrule cas i old Hc) as (fresh & Hf & Hn).
  exists tmp, e', fresh, (ema_cell (FFin d) old fresh).
  split; [done|]. split; [done|]. split; [done|]. split; [exact Hn|].
  by apply ema_cell_bounds.
Qed.

Lemma update_bookkeeping self g decay S self' g' e :
  update_extra_state self g decay S = inr (self', g') →
  extra self = Some e →
  ∃ e',
    extra self' = Some e'
    ∧ same_configuration self self'
    ∧ shape_of (density_grid e') = shape_of (density_grid e)
    ∧ iter_density e' = (iter_density e + 1)%Z
    ∧ local_step e' = 0%Z
    ∧ step_counter e' = step_counter e.
Proof.
  intros H He.
  destruct (update_extra_state_inr _ _ _ _ _ _ _ He H) as (tmp & Hs & ->).
  eexists. split; [reflexivity|]. split; [apply same_configuration_set_extra|].
  simpl. split; [|done].
  apply shape_of_ema_update. by eapply sweep_shape.
Qed.

(** X8.  Any number of calls of [update_extra_state] keeps the
    configuration of the renderer, the shape of the density grid and the
    step counters; [iter_density] counts the calls, and [local_step] is 0
    after the last of them. *)
Theorem updates_keep_shape_and_count self g calls self' g' e :
  update_many self g calls = inr (self', g') →
  extra self = Some e →
  ∃ e',
    extra self' = Some e'
    ∧ same_configuration self self'
    ∧ shape_of (density_grid e') = shape_of (density_grid e)
    ∧ iter_density e' = (iter_density e + Z.of_nat (length calls))%Z
    ∧ step_counter e' = step_counter e
    ∧ (calls ≠ [] → local_step e' = 0%Z).
Proof.
  revert self g e. induction calls as [|[decay size] calls IH];
    intros self g e H He; simpl in H.
  - injection H as <- <-. exists e. split; [done|].
    split; [apply same_configuration_refl|]. repeat split; try done; simpl; lia.
  - inv_bind H. destruct a as [self1 g1].
    destruct (update_bookkeeping _ _ _ _ _ _ _ Ha He)
      as (e1 & He1 & Hc1 & Hs1 & Hi1 & Hl1 & Hsc1).
    destruct (IH _ _ _ H He1) as (e' & He' & Hc & Hs & Hi & Hsc & Hl).
    exists e'. split; [done|].
    split; [by eapply same_configuration_trans|].
    split; [congruence|]. split; [simpl length; lia|].
    split; [congruence|]. intros _.
    destruct calls as [|c calls]; [|by apply Hl].
    simpl in H. injection H as <- <-. congruence.
Qed.

End UpdaterEdges.

(** ** Reset and the steady-state sweep *)

Lemma full_like_cell {A B} (v : B) (t : list (list A)) cas i x :
  cell t cas i = Some x → cell (full_like v t) cas i = Some v.
Proof.
  unfold cell, full_like, full_like1. intros H.
  rewrite list_lookup_fmap. destruct (t !! cas) as [row|]; [|done]. simpl in *.
  change (map (λ _ : A, v) row) with ((λ _ : A, v) <$> row).
  rewrite list_lookup_fmap, H. done.
Qed.

Lemma occupied_indices_none row :
  Forall (fun v => fgt v fzero = false) row → occupied_indices row = [].
Proof.
  unfold occupied_indices. intros H.
  assert (Hf : ∀ (k : nat) (l : list tfloat),
             Forall (fun v => fgt v fzero = false) l →
             filter (fun p : nat * tfloat => fgt p.2 fzero = true)
               (imap (fun i v => (k + i, v)) l) = []).
  { intros k l. revert k. induction l as [|v l IH]; intros k Hl; [done|].
    apply Forall_cons in Hl as [Hv Hl]. simpl.
    rewrite filter_cons_False by (simpl; congruence).
    rewrite <- (IH (S k) Hl). f_equal. apply imap_ext.
    intros i x _. simpl. f_equal. lia. }
  change (imap pair row) with (imap (fun i v => (0 + i, v)) row).
  by rewrite Hf.
Qed.

Section ResetFacts.
Context `{RM : RayMarching} `{F : NeRFField} `{TR : TorchRandom}.

(** X9.  [reset_extra_state] zeroes the whole density grid, the marks -1
    of never-visible voxels included, the mean density, the step counters
    and the three integer counters, but not the bitfield; the next
    [update_extra_state] therefore updates a voxel that was marked like any
    other one, from the value 0: with the value [fresh] that its sweep
    stores for the voxel in [tmp_grid], the voxel becomes
    [max(0 * decay, fresh)] if [fresh >= 0], and stays 0 otherwise. *)
Theorem reset_erases_marks self e cas i v :
  extra self = Some e →
  cell (density_grid e) cas i = Some v →
  ∃ e0,
    extra (reset_extra_state self) = Some e0
    ∧ cell (density_grid e0) cas i = Some fzero
    ∧ density_bitfield e0 = density_bitfield e
    ∧ mean_density e0 = fzero
    ∧ step_counter e0 = full_like 0%Z (step_counter e)
    ∧ iter_density e0 = 0%Z ∧ local_step e0 = 0%Z ∧ mean_count e0 = 0%Z
    ∧ ∀ g decay S self' g',
        update_extra_state (reset_extra_state self) g decay S = inr (self', g') →
        ∃ tmp_grid e' fresh,
          sweep (reset_extra_state self) e0 g S = inr (tmp_grid, g')
          ∧ cell tmp_grid cas i = Some fresh
          ∧ extra self' = Some e'
          ∧ cell (density_grid e') cas i
            = Some (if fge fresh fzero then maximum (fmul fzero decay) fresh
                    else fzero).
Proof.
  intros He Hc. unfold reset_extra_state. rewrite He.
  eexists. split; [reflexivity|]. simpl.
  split; [by eapply full_like_cell|]. repeat split.
  intros g decay S self' g' H.
  eapply update_cells in H as (tmp & e' & Hs & He' & Hrule); [|reflexivity].
  edestruct (Hrule cas i fzero) as (fresh & Hf & Hn).
  { simpl. by eapply full_like_cell. }
  exists tmp, e', fresh. split; [done|]. split; [done|]. split; [done|].
  rewrite Hn. done.
Qed.

Lemma partial_sweep_raises self e g cas cass tmp row :
  (∀ g n, ∃ err, randint1 g 0 0 n = inl err) →
  density_grid e !! Z.to_nat cas = Some row →
  Forall (fun v => fgt v fzero = false) row →
  ∃ err, partial_sweep self e g (cas :: cass) tmp = inl err.
Proof.
  intros Hrand Hrow Hocc. simpl.
  destruct (randint3 g 0 (grid_size self) _) as [err|[coords g1]]; [by eexists|].
  simpl. rewrite Hrow. simpl.
  rewrite (occupied_indices_none row Hocc).
  change (Z.of_nat (length (@nil Z))) with 0%Z.
  match goal with
  | |- context [randint1 ?a 0%Z 0%Z ?n] => destruct (Hrand a n) as [err ->]
  end.
  by eexists.
Qed.

(** X10.  From the 16th update on, the sweep samples among the occupied
    voxels of each cascade with [randint(0, occ_num)]: when the first
    cascade has no voxel above 0 (and [randint] refuses the empty range,
    as torch's does), [update_extra_state] raises instead of updating. *)
Theorem steady_state_update_needs_occupied_voxel self e g decay S row :
  (∀ g n, ∃ err, randint1 g 0 0 n = inl err) →
  extra self = Some e →
  (16 <= iter_density e)%Z →
  (0 < cascade self)%Z →
  density_grid e !! 0 = Some row →
  Forall (fun v => fgt v fzero = false) row →
  ∃ err, update_extra_state self g decay S = inl err.
Proof.
  intros Hrand He Hit Hcas Hrow Hocc.
  unfold update_extra_state. rewrite He. unfold sweep.
  destruct (Z.ltb_spec (iter_density e) 16) as [?|_]; [lia|].
  assert (Har : ∃ cass, arange (Z.to_nat (cascade self)) = 0%Z :: cass).
  { unfold arange. destruct (Z.to_nat (cascade self)) as [|n] eqn:E; [lia|].
    simpl. by eexists. }
  destruct Har as [cass ->].
  destruct (partial_sweep_raises self e g 0%Z cass
              (full_like (of_Z (-1)) (density_grid e)) row Hrand Hrow Hocc)
    as [err ->].
  by exists err.
Qed.

End ResetFacts.

(** ** The visibility pass *)

Lemma scatter_sums_length orig row indices mask row' :
  scatter_sums orig row indices mask = inr row' → length row' = length row.
Proof.
  revert row mask. induction indices as [|i indices IH];
    intros row [|m mask] H; simpl in *; try done.
  - by injection H as <-.
  - destruct (orig !! Z.to_nat i); [|done]. case_decide; [|done].
    rewrite (IH _ _ H). apply length_insert.
Qed.

Lemma scatter_add_shape count cas indices mask count' :
  scatter_add count cas indices mask = inr count' →
  shape_of count' = shape_of count.
Proof.
  unfold scatter_add.
  destruct (count !! Z.to_nat cas) as [row|] eqn:Hrow; [|done].
  intros H. inv_bind H. injection H as <-.
  unfold shape_of. rewrite list_fmap_insert.
  apply list_insert_id. rewrite list_lookup_fmap, Hrow. simpl.
  by rewrite (scatter_sums_length _ _ _ _ _ Ha).
Qed.

Lemma shape_of_full_like_eq {A B C} (v : C) (t1 : list (list A))
    (t2 : list (list B)) :
  shape_of t1 = shape_of t2 → full_like v t1 = full_like v t2.
Proof.
  unfold shape_of, full_like, full_like1. revert t2.
  induction t1 as [|r1 t1 IH]; intros [|r2 t2] H; simpl in *; try done.
  injection H as Hl Ht. f_equal; [|by apply IH].
  clear -Hl. revert r2 Hl. induction r1 as [|x r1 IH]; intros [|y r2] H;
    simpl in *; try done.
  f_equal. apply IH. lia.
Qed.

Lemma mark_untrained_cell_eq grid count cas i :
  cell (mark_untrained grid count) cas i
  = old ← cell grid cas i; c ← cell count cas i; Some (mark_cell old c).
Proof.
  unfold cell, mark_untrained. rewrite lookup_zip_with.
  destruct (grid !! cas) as [row|]; [|done]; simpl.
  destruct (count !! cas) as [crow|]; simpl.
  - by rewrite lookup_zip_with.
  - by destruct (row !! i).
Qed.

Lemma shape_of_mark_untrained grid count :
  shape_of count = shape_of grid →
  shape_of (mark_untrained grid count) = shape_of grid.
Proof.
  unfold shape_of, mark_untrained. revert count.
  induction grid as [|row grid IH]; intros [|crow count] H; simpl in *; try done.
  injection H as H1 H2. rewrite length_zip_with. f_equal; [lia|by apply IH].
Qed.

Lemma mark_cell_idempotent old c : mark_cell (mark_cell old c) c = mark_cell old c.
Proof. unfold mark_cell. by destruct (c =? 0)%Z. Qed.

Lemma mark_untrained_idempotent grid count :
  mark_untrained (mark_untrained grid count) count = mark_untrained grid count.
Proof.
  unfold mark_untrained. apply zip_with_idempotent.
  intros row crow. apply zip_with_idempotent. apply mark_cell_idempotent.
Qed.

Section VisibilityFacts.
Context `{RM : RayMarching}.

Lemma count_poses_shape size poses k hgs points cas indices start count count' :
  count_poses size poses k hgs points cas indices start count = inr count' →
  shape_of count' = shape_of count.
Proof.
  funelim (count_poses size poses k hgs points cas indices start count);
    intros Hr; try done.
  - by injection Hr as <-.
  - rewrite (H _ Hr). by eapply scatter_add_shape.
Qed.

Lemma count_poses_no_camera size k hgs points cas indices count :
  count_poses size [] k hgs points cas indices 0 count = inr count.
Proof. by simp count_poses. Qed.

Lemma count_cascades_shape self size poses k world indices cass count count' :
  count_cascades self size poses k world indices cass count = inr count' →
  shape_of count' = shape_of count.
Proof.
  revert count. induction cass as [|cas cass IH]; intros count H; simpl in *.
  - by injection H as <-.
  - inv_bind H. inv_bind H. rewrite (IH _ H). by eapply count_poses_shape.
Qed.

Lemma count_cascades_no_camera self size k world indices cass count count' :
  count_cascades self size [] k world indices cass count = inr count' →
  count' = count.
Proof.
  revert count. induction cass as [|cas cass IH]; intros count H; simpl in *.
  - by injection H as <-.
  - inv_bind H. rewrite count_poses_no_camera in H. by apply IH in H.
Qed.

Lemma count_blocks_shape self size poses k blocks count count' :
  count_blocks self size poses k blocks count = inr count' →
  shape_of count' = shape_of count.
Proof.
  revert count. induction blocks as [|[[xs ys] zs] blocks IH]; intros count H;
    simpl in *.
  - by injection H as <-.
  - inv_bind H. rewrite (IH _ H). by eapply count_cascades_shape.
Qed.

Lemma count_blocks_no_camera self size k blocks count count' :
  count_blocks self size [] k blocks count = inr count' → count' = count.
Proof.
  revert count. induction blocks as [|[[xs ys] zs] blocks IH]; intros count H;
    simpl in *.
  - by injection H as <-.
  - inv_bind H. apply count_cascades_no_camera in Ha as ->. by apply IH in H.
Qed.

Lemma mark_untrained_grid_inr self poses k S self' e :
  mark_untrained_grid self poses k S = inr self' →
  extra self = Some e →
  ∃ count,
    visibility_count self (density_grid e) poses k S = inr count
    ∧ shape_of count = shape_of (density_grid e)
    ∧ self' = set_extra self
        {| density_grid := mark_untrained (density_grid e) count;
           density_bitfield := density_bitfield e;
           mean_density := mean_density e;
           iter_density := iter_density e;
           step_counter := step_counter e;
           mean_count := mean_count e;
           local_step := local_step e |}.
Proof.
  unfold mark_untrained_grid, visibility_count. intros H He. rewrite He in H.
  inv_bind H. inv_bind H. inv_bind H. inv_bind H. injection H as <-.
  assert (a0 = a) as -> by congruence. assert (a1 = a) as -> by congruence.
  exists a2. rewrite Ha. simpl. split; [done|]. split; [|done].
  rewrite (count_blocks_shape _ _ _ _ _ _ _ Ha2). apply shape_of_full_like.
Qed.

End VisibilityFacts.

Section VisibilityTheorems.
Context `{RM : RayMarching}.

Lemma count_cascades_config self self' size poses k world indices cass count :
  bound self' = bound self → grid_size self' = grid_size self →
  count_cascades self' size poses k world indices cass count
  = count_cascades self size poses k world indices cass count.
Proof.
  intros Hb Hg. revert count. induction cass as [|cas cass IH]; intros count;
    simpl; [done|].
  rewrite Hb, Hg. destruct (py_div _ _) as [err|hgs]; [done|]. simpl.
  destruct (count_poses _ _ _ _ _ _ _ _ _) as [err|c]; [done|]. simpl.
  apply IH.
Qed.

Lemma count_blocks_config self self' size poses k blocks count :
  bound self' = bound self → grid_size self' = grid_size self →
  cascade self' = cascade self →
  count_blocks self' size poses k blocks count
  = count_blocks self size poses k blocks count.
Proof.
  intros Hb Hg Hc. revert count.
  induction blocks as [|[[xs ys] zs] blocks IH]; intros count; simpl; [done|].
  rewrite Hg, Hc, (count_cascades_config self self') by done.
  destruct (count_cascades _ _ _ _ _ _ _ _) as [err|c]; [done|]. simpl.
  apply IH.
Qed.

Lemma visibility_count_config self self' shape shape' poses k S :
  same_configuration self self' → shape_of shape' = shape_of shape →
  visibility_count self' shape' poses k S = visibility_count self shape poses k S.
Proof.
  intros (Hb & Hc & Hg & _) Hs. unfold visibility_count.
  rewrite Hg. rewrite (shape_of_full_like_eq 0%Z shape' shape Hs).
  destruct (torch_split _ _) as [err|X]; [done|]. simpl.
  by apply count_blocks_config.
Qed.

Lemma mark_untrained_grid_eq self poses k S e :
  extra self = Some e →
  mark_untrained_grid self poses k S
  = count ← visibility_count self (density_grid e) poses k S;
    mret (set_extra self
            {| density_grid := mark_untrained (density_grid e) count;
               density_bitfield := density_bitfield e;
               mean_density := mean_density e;
               iter_density := iter_density e;
               step_counter := step_counter e;
               mean_count := mean_count e;
               local_step := local_step e |}).
Proof.
  intros He. unfold mark_untrained_grid, visibility_count. rewrite He.
  destruct (torch_split _ _) as [err|X]; [done|]. simpl. done.
Qed.

(** X11.  [mark_untrained_grid] only marks: it keeps the configuration,
    the bitfield, the means, the counters and the shape of the grid, and
    every voxel either keeps its value or becomes -1. *)
Theorem visibility_pass_only_marks self poses k S self' e :
  mark_untrained_grid self poses k S = inr self' →
  extra self = Some e →
  ∃ e',
    extra self' = Some e'
    ∧ same_configuration self self'
    ∧ density_bitfield e' = density_bitfield e
    ∧ mean_density e' = mean_density e
    ∧ iter_density e' = iter_density e
    ∧ step_counter e' = step_counter e
    ∧ mean_count e' = mean_count e
    ∧ local_step e' = local_step e
    ∧ shape_of (density_grid e') = shape_of (density_grid e)
    ∧ ∀ cas i old,
        cell (density_grid e) cas i = Some old →
        cell (density_grid e') cas i = Some old
        ∨ cell (density_grid e') cas i = Some (of_Z (-1)).
Proof.
  intros H He.
  destruct (mark_untrained_grid_inr _ _ _ _ _ _ H He) as (count & _ & Hs & ->).
  eexists. split; [reflexivity|].
  split; [apply same_configuration_set_extra|]. simpl.
  repeat split; try done.
  - by apply shape_of_mark_untrained.
  - intros cas i old Hc. rewrite mark_untrained_cell_eq, Hc. simpl.
    destruct (shape_of_cell _ count _ _ _ (eq_sym Hs) Hc) as [c ->]. simpl.
    unfold mark_cell. destruct (c =? 0)%Z; eauto.
Qed.

(** X12.  Called with no camera pose, [mark_untrained_grid] marks every
    voxel of the grid as never visible. *)
Theorem no_camera_marks_every_voxel self k S self' e :
  mark_untrained_grid self [] k S = inr self' →
  extra self = Some e →
  ∃ e',
    extra self' = Some e'
    ∧ ∀ cas i old,
        cell (density_grid e) cas i = Some old →
        cell (density_grid e') cas i = Some (of_Z (-1)).
Proof.
  intros H He.
  destruct (mark_untrained_grid_inr _ _ _ _ _ _ H He) as (count & Hc & Hs & ->).
  eexists. split; [reflexivity|]. simpl.
  intros cas i old Hold.
  unfold visibility_count in Hc.
  inv_bind Hc. inv_bind Hc. inv_bind Hc.
  apply count_blocks_no_camera in Hc as ->.
  rewrite mark_untrained_cell_eq, Hold. simpl.
  by rewrite (full_like_cell 0%Z _ _ _ _ Hold).
Qed.

(** X13.  [mark_untrained_grid] is idempotent: a second call with the
    same poses, intrinsics and batch size returns the renderer the first
    call returned. *)
Theorem visibility_pass_idempotent self poses k S self' :
  mark_untrained_grid self poses k S = inr self' →
  mark_untrained_grid self' poses k S = inr self'.
Proof.
  intros H. destruct (extra self) as [e|] eqn:He.
  - destruct (mark_untrained_grid_inr _ _ _ _ _ _ H He) as (count & Hc & Hs & ->).
    erewrite mark_untrained_grid_eq by reflexivity. simpl.
    rewrite (visibility_count_config self _ (density_grid e)).
    + rewrite Hc. simpl. by rewrite mark_untrained_idempotent.
    + apply same_configuration_set_extra.
    + by apply shape_of_mark_untrained.
  - unfold mark_untrained_grid in H. rewrite He in H. injection H as <-.
    unfold mark_untrained_grid. by rewrite He.
Qed.

End VisibilityTheorems.

Section VisibilityThenUpdates.
Context `{RM : RayMarching} `{F : NeRFField} `{TR : TorchRandom}.

(** X14.  A voxel no camera covers (its count is 0) is -1 after
    [mark_untrained_grid] and is still -1 after any number of later calls
    of [update_extra_state]. *)
Theorem unseen_voxels_stay_marked self poses k S self1 g calls self2 g' e
    count cas i old :
  extra self = Some e →
  visibility_count self (density_grid e) poses k S = inr count →
  mark_untrained_grid self poses k S = inr self1 →
  update_many self1 g calls = inr (self2, g') →
  cell (density_grid e) cas i = Some old →
  cell count cas i = Some 0%Z →
  ∃ e2, extra self2 = Some e2
        ∧ cell (density_grid e2) cas i = Some (of_Z (-1)).
Proof.
  intros He Hc Hm Hu Hold Hz.
  destruct (mark_untrained_grid_inr _ _ _ _ _ _ Hm He) as (count' & Hc' & _ & ->).
  assert (count' = count) as -> by congruence.
  eapply (update_many_keeps _ _ _ _ _ _ cas i (of_Z (-1))); [exact Hu|reflexivity| |done].
  simpl. by apply (mark_untrained_cell _ _ _ _ old).
Qed.

End VisibilityThenUpdates.

(** ** The cascades of the constructor *)

Lemma py_min_small (a : Z) (q : Q) :
  (inject_Z a <= q)%Q → py_min (of_Z a) (FFin q) = of_Z a.
Proof.
  intros H. unfold py_min, flt, of_Z; simpl.
  assert (Qle_bool (inject_Z a) q = true) as -> by by apply Qle_bool_iff.
  by rewrite andb_false_r.
Qed.

Lemma py_min_large (a : Z) (q : Q) :
  (q <= inject_Z a)%Q → feqb (py_min (of_Z a) (FFin q)) (FFin q) = true.
Proof.
  intros H. unfold py_min, flt, feqb, of_Z; simpl.
  assert (E1 : Qle_bool q (inject_Z a) = true) by by apply Qle_bool_iff.
  rewrite E1; simpl.
  destruct (Qle_bool (inject_Z a) q) eqn:E2; simpl.
  - by rewrite E2, E1.
  - assert (Qle_bool q q = true) as ->; [|done].
    apply Qle_bool_iff. apply Qle_refl.
Qed.

Lemma Qceiling_nonneg (r : Q) : (0 <= r)%Q → (0 <= Qceiling r)%Z.
Proof.
  intros H. change 0%Z with (Qceiling 0). by apply Qceiling_resp_le.
Qed.

Section ConstructorFacts.
Context `{PM : PyMath}.

(** The laws of [math.log2] on a finite result. *)
Lemma math_log2_below (q r : Q) (k : Z) :
  (0 < q)%Q → (0 <= k)%Z → (q <= inject_Z (2 ^ k))%Q →
  math_log2 q = FFin r → (r <= inject_Z k)%Q.
Proof.
  intros Hq Hk Hle Hr.
  pose proof (math_log2_le k q Hk Hq Hle) as Hm. rewrite Hr in Hm.
  by apply Qle_bool_iff in Hm.
Qed.

Lemma math_log2_above (q r : Q) (k : Z) :
  (0 <= k)%Z → (inject_Z (2 ^ k) <= q)%Q →
  math_log2 q = FFin r → (inject_Z k <= r)%Q.
Proof.
  intros Hk Hle Hr.
  pose proof (math_log2_ge k q Hk Hle) as Hm. rewrite Hr in Hm.
  by apply Qle_bool_iff in Hm.
Qed.

Lemma math_log2_from_one (q : Q) :
  (1 <= q)%Q → ∃ r, math_log2 q = FFin r ∧ (0 <= r)%Q.
Proof.
  intros Hq. destruct (math_log2_finite q) as [r Hr]; [lra|].
  exists r. split; [done|].
  change 0%Q with (inject_Z 0). by apply (math_log2_above q r 0).
Qed.

Lemma init_inr b cuda density_scale min_near density_thresh bg_radius self :
  init b cuda density_scale min_near density_thresh bg_radius = inr self →
  ∃ q r,
    b = FFin q ∧ (0 < q)%Q
    ∧ math_log2 q = FFin r
    ∧ bound self = b
    ∧ cascade self = (1 + Qceiling r)%Z
    ∧ grid_size self = 128%Z
    ∧ training self = true
    ∧ extra self
      = (if cuda then Some (fresh_extra (1 + Qceiling r) 128) else None)
    ∧ (cuda = true → (0 <= 1 + Qceiling r)%Z).
Proof.
  unfold init. intros H. inv_bind H.
  destruct b as [q|[]|]; simpl in Ha; try done.
  destruct (Qle_bool q 0) eqn:E; [done|].
  apply Qle_bool_false in E.
  destruct (math_log2_finite q E) as [r Hr]. rewrite Hr in Ha.
  simpl in Ha. injection Ha as <-.
  inv_bind H. injection H as <-. exists q, r.
  cbn [bound cascade grid_size training extra].
  repeat split; try done.
  - destruct cuda; [|by injection Ha as <-].
    destruct (1 + Qceiling r <? 0)%Z; [done|]. by injection Ha as <-.
  - intros ->. destruct (Z.ltb_spec (1 + Qceiling r) 0); [done|lia].
Qed.

(** X15.  For a bound [>= 1] the constructor computes at least one
    cascade; the box [2 ** cas] of every cascade but the last lies within
    the bound (there [min(2 ** cas, bound)] is [2 ** cas]), and the bound
    is at most [2 ** cascade].  When the bound is a power of two [2 ** k],
    there are exactly [1 + k] cascades and the box of the last one is the
    bound.  Of [math.log2] only its laws are used; its rounding may leave
    the box of the last cascade short of a bound that is no power of
    two. *)
Theorem cascades_cover_the_bound (q : Q) cuda density_scale min_near
    density_thresh bg_radius self :
  (1 <= q)%Q →
  init (FFin q) cuda density_scale min_near density_thresh bg_radius = inr self →
  (1 <= cascade self)%Z
  ∧ (∀ cas, (0 <= cas < cascade self - 1)%Z →
       py_min (of_Z (2 ^ cas)) (bound self) = of_Z (2 ^ cas))
  ∧ (q <= inject_Z (2 ^ cascade self))%Q
  ∧ ∀ k, (0 <= k)%Z → (q == inject_Z (2 ^ k))%Q →
      cascade self = (1 + k)%Z
      ∧ feqb (py_min (of_Z (2 ^ (cascade self - 1))) (bound self)) (bound self)
        = true.
Proof.
  intros Hq H.
  destruct (init_inr _ _ _ _ _ _ _ H) as (q' & r & Eq & Hpos & Hr & Hb & Hc & _).
  injection Eq as <-. rewrite Hb, Hc.
  destruct (math_log2_from_one q Hq) as (r' & Hr' & Hr0).
  assert (r' = r) as -> by congruence.
  pose proof (Qceiling_nonneg r Hr0) as Hc0.
  split; [lia|]. split; [|split].
  - intros cas Hcas. apply py_min_small.
    destruct (Qlt_le_dec q (inject_Z (2 ^ cas))) as [Hlt|Hle]; [|done].
    pose proof (math_log2_below q r cas Hpos ltac:(lia)
                  (Qlt_le_weak _ _ Hlt) Hr) as Hle.
    apply Qceiling_resp_le in Hle. rewrite Qceiling_Z in Hle. lia.
  - destruct (Qlt_le_dec (inject_Z (2 ^ (1 + Qceiling r))) q) as [Hlt|Hle];
      [|done].
    pose proof (math_log2_above q r (1 + Qceiling r) ltac:(lia)
                  (Qlt_le_weak _ _ Hlt) Hr) as Hge.
    pose proof (Qle_ceiling r) as Hup.
    assert (Hcontra : (inject_Z (1 + Qceiling r) <= inject_Z (Qceiling r))%Q)
      by (eapply Qle_trans; [exact Hge|exact Hup]).
    rewrite <- Zle_Qle in Hcontra. lia.
  - intros k Hk Hqk.
    rewrite (math_log2_exact k q Hk Hqk) in Hr. injection Hr as <-.
    rewrite Qceiling_Z. split; [done|].
    replace (1 + k - 1)%Z with k by lia.
    apply py_min_large. rewrite Hqk. apply Qle_refl.
Qed.

(** X16.  Constructed with [cuda_ray=True] and a bound [>= 1], the
    renderer owns a zero density grid of [cascade] rows of [128 ** 3]
    voxels, a zero bitfield with exactly one bit per voxel, 16 zero step
    counters and zero counts. *)
Theorem constructed_buffers (q : Q) density_scale min_near density_thresh
    bg_radius :
  (1 <= q)%Q →
  ∃ self e,
    init (FFin q) true density_scale min_near density_thresh bg_radius = inr self
    ∧ extra self = Some e
    ∧ Z.of_nat (length (density_grid e)) = cascade self
    ∧ Forall (fun row => row = replicate (Z.to_nat (128 ^ 3)) fzero)
        (density_grid e)
    ∧ (8 * Z.of_nat (length (density_bitfield e)) = cascade self * 128 ^ 3)%Z
    ∧ Forall (fun b => b = 0%Z) (density_bitfield e)
    ∧ step_counter e = replicate 16 [0%Z; 0%Z]
    ∧ iter_density e = 0%Z ∧ local_step e = 0%Z ∧ mean_count e = 0%Z.
Proof.
  intros Hq.
  destruct (math_log2_from_one q Hq) as (r & Hr & Hr0).
  pose proof (Qceiling_nonneg r Hr0) as H0.
  unfold init. cbn [cascade_of].
  assert (Qle_bool q 0 = false) as ->.
  { destruct (Qle_bool q 0) eqn:E; [|done]. apply Qle_bool_iff in E. lra. }
  rewrite Hr. cbn [math_ceil mbind M_bind mret M_ret].
  destruct (Z.ltb_spec (1 + Qceiling r) 0) as [?|_]; [lia|].
  eexists _, _. split; [reflexivity|]. split; [reflexivity|].
  cbn [density_grid density_bitfield step_counter iter_density local_step
         mean_count fresh_extra cascade].
  rewrite !length_replicate.
  split; [lia|]. split; [by apply Forall_replicate|].
  split.
  - change (128 ^ 3)%Z with 2097152%Z.
    replace ((1 + Qceiling r) * 2097152)%Z
      with ((1 + Qceiling r) * 262144 * 8)%Z by lia.
    rewrite Z.div_mul by lia. lia.
  - split; [by apply Forall_replicate|]. done.
Qed.

End ConstructorFacts.

Section Constructed.
Context `{RM : RayMarching} `{F : NeRFField} `{PM : PyMath}.

(** X17.  A renderer constructed with [cuda_ray=False] (the default) is
    in training mode and cannot render a batch of at least one ray: the
    staged call raises [RuntimeError] when it allocates the semantic
    buffer if [semantic_class_length] is negative and [TypeError] in its
    first chunk otherwise; the other call raises [AttributeError] on
    [step_counter]. *)
Theorem default_renderer_cannot_render b density_scale min_near
    density_thresh bg_radius self rays_o rays_d K staged max_ray_batch kw :
  init b false density_scale min_near density_thresh bg_radius = inr self →
  0 < (shape2 rays_o).1 → 0 < (shape2 rays_o).2 →
  render self rays_o rays_d K staged max_ray_batch kw
  = Some (inl (if staged
               then if (K <? 0)%Z then negative_dimension else missing_argument
               else AttributeError "step_counter")).
Proof.
  intros H HB HN.
  destruct (init_inr _ _ _ _ _ _ _ H)
    as (q & r & _ & _ & _ & _ & _ & _ & Ht & He & _).
  rewrite (render_no_cuda self); [by rewrite Ht|..]; try done.
  - unfold cuda_ray. by rewrite He.
  - by left.
Qed.

End Constructed.


(** ** Inverse-CDF sampling *)

Lemma fsum_finite_from (a : Q) (l : list Q) :
  foldl fadd (FFin a) (FFin <$> l) = FFin (foldl Qplus a l).
Proof. revert a. induction l as [|x l IH]; intros a; simpl; [done|apply IH]. Qed.

Lemma fsum_finite (l : list Q) : fsum (FFin <$> l) = FFin (foldl Qplus 0%Q l).
Proof. apply fsum_finite_from. Qed.

Lemma cumsum_from_finite (a : Q) (l : list Q) :
  cumsum_from (FFin a) (FFin <$> l) = FFin <$> qcumsum_from a l.
Proof.
  revert a. induction l as [|x l IH]; intros a; simpl; [done|].
  by rewrite IH.
Qed.

Lemma foldl_Qplus_ge (a : Q) (l : list Q) :
  Forall (fun x => (0 < x)%Q) l → (a <= foldl Qplus a l)%Q.
Proof.
  revert a. induction l as [|x l IH]; intros a Hl; simpl; [lra|].
  apply Forall_cons in Hl as [Hx Hl]. specialize (IH (a + x)%Q Hl). lra.
Qed.

Lemma foldl_Qplus_scale (a r : Q) (l : list Q) :
  (foldl Qplus (a * r) ((fun w => w * r) <$> l) == foldl Qplus a l * r)%Q.
Proof.
  revert a. induction l as [|x l IH]; intros a; simpl; [lra|].
  rewrite <- IH.
  assert (Hgen : ∀ (b c : Q) (k : list Q), (b == c)%Q →
            (foldl Qplus b k == foldl Qplus c k)%Q).
  { intros b c k. revert b c. induction k as [|y k IHk]; intros b c E; simpl;
      [done|]. apply IHk. lra. }
  apply Hgen. ring.
Qed.

Lemma length_qcumsum_from (a : Q) (l : list Q) :
  length (qcumsum_from a l) = length l.
Proof. revert a. induction l as [|x l IH]; intros a; simpl; [done|by rewrite IH]. Qed.

(** The last running sum is the total. *)
Lemma qcumsum_from_last (a : Q) (l : list Q) :
  last (a :: qcumsum_from a l) = Some (foldl Qplus a l).
Proof.
  revert a. induction l as [|x l IH]; intros a; [done|].
  simpl qcumsum_from. rewrite last_cons_cons. apply IH.
Qed.

Lemma qcumsum_from_lower (a : Q) (l : list Q) j b :
  Forall (fun x => (0 < x)%Q) l →
  qcumsum_from a l !! j = Some b → (a < b)%Q.
Proof.
  revert a j. induction l as [|x l IH]; intros a j Hl Hj; [done|].
  apply Forall_cons in Hl as [Hx Hl]. destruct j as [|j]; simpl in Hj.
  - injection Hj as <-. lra.
  - specialize (IH _ _ Hl Hj). lra.
Qed.

Lemma qcumsum_from_increasing (a : Q) (l : list Q) :
  Forall (fun x => (0 < x)%Q) l → increasing (a :: qcumsum_from a l).
Proof.
  revert a. induction l as [|x l IH]; intros a Hl i j u v Hij Hi Hj.
  - destruct i, j; simpl in *; try done; lia.
  - pose proof Hl as Hl'. apply Forall_cons in Hl as [Hx Hl].
    destruct i as [|i].
    + injection Hi as <-. destruct j as [|j]; [lia|]. simpl in Hj.
      eapply (qcumsum_from_lower _ (x :: l)); [exact Hl'|exact Hj].
    + destruct j as [|j]; [lia|]. simpl in Hi, Hj.
      apply (IH (a + x)%Q Hl i j u v); [lia|done..].
Qed.

Lemma Qle_bool_true (a b : Q) : Qle_bool a b = true ↔ (a <= b)%Q.
Proof. apply Qle_bool_iff. Qed.

Lemma Qle_bool_false' (a b : Q) : Qle_bool a b = false ↔ (b < a)%Q.
Proof.
  split.
  - intros E. apply Qnot_le_lt. intros H. apply Qle_bool_iff in H. congruence.
  - intros H. destruct (Qle_bool a b) eqn:E; [|done].
    apply Qle_bool_iff in E. lra.
Qed.

(** [searchsorted(..., right=True)] on a sorted row: the entries before the
    returned position are at most [u], the ones from it on are larger. *)
Lemma searchsorted_right_spec (cq : list Q) (u : Q) :
  nondecreasing cq →
  ∃ n, searchsorted_right (FFin <$> cq) (FFin u) = Z.of_nat n ∧ n ≤ length cq
       ∧ (∀ j c, j < n → cq !! j = Some c → (c <= u)%Q)
       ∧ (∀ j c, n ≤ j → cq !! j = Some c → (u < c)%Q).
Proof.
  unfold searchsorted_right.
  induction cq as [|c cq IH]; intros Hs.
  - exists 0. repeat split; [done| |done]. intros j c Hj. lia.
  - destruct IH as (n & En & Hn & Hlo & Hhi).
    { intros i j a b Hij Hi Hj. apply (Hs (S i) (S j) a b); [lia|done..]. }
    apply (inj Z.of_nat) in En.
    rewrite fmap_cons, filter_cons.
    destruct (decide (fle (FFin c) (FFin u) = true)) as [E|E].
    + exists (S n). simpl in E. apply Qle_bool_true in E.
      repeat split.
      * simpl. by rewrite En.
      * simpl. lia.
      * intros j a Hj Ha. destruct j as [|j]; simpl in Ha.
        -- by injection Ha as <-.
        -- apply (Hlo j); [lia|done].
      * intros j a Hj Ha. destruct j as [|j]; [lia|]. simpl in Ha.
        apply (Hhi j); [lia|done].
    + exists 0. simpl in E. apply not_true_is_false, Qle_bool_false' in E.
      assert (n = 0) as ->.
      { destruct n as [|n]; [done|]. exfalso.
        destruct (lookup_lt_is_Some_2 cq 0) as [a Ha]; [lia|].
        assert ((a <= u)%Q) by (apply (Hlo 0); [lia|done]).
        assert ((c <= a)%Q) by (apply (Hs 0 1 c a); [lia|done..]).
        lra. }
      repeat split.
      * by rewrite En.
      * lia.
      * intros j a Hj. lia.
      * intros j a _ Ha. destruct j as [|j]; simpl in Ha.
        -- by injection Ha as <-.
        -- apply (Hhi j); [lia|done].
Qed.

Lemma gather1_finite (row : list Q) (i : nat) (v : Q) :
  row !! i = Some v → gather1 (FFin <$> row) (Z.of_nat i) = inr (FFin v).
Proof.
  intros H. unfold gather1.
  destruct (Z.ltb_spec (Z.of_nat i) 0) as [?|_]; [lia|].
  by rewrite Nat2Z.id, list_lookup_fmap, H.
Qed.

Lemma Qdiv_unit (x d : Q) :
  (0 <= x)%Q → (x <= d)%Q → (0 < d)%Q → (0 <= x / d)%Q ∧ (x / d <= 1)%Q.
Proof.
  intros Hx Hd Hp. split.
  - apply Qle_shift_div_l; [done|]. lra.
  - apply Qle_shift_div_r; [done|]. lra.
Qed.

Lemma lerp_between (a b t : Q) :
  (a <= b)%Q → (0 <= t)%Q → (t <= 1)%Q →
  (a <= a + t * (b + - a))%Q ∧ (a + t * (b + - a) <= b)%Q.
Proof.
  intros Hab H0 H1.
  assert ((0 <= t * (b + - a))%Q) by (apply Qmult_le_0_compat; lra).
  assert ((0 <= (1 - t) * (b + - a))%Q) by (apply Qmult_le_0_compat; lra).
  assert (((1 - t) * (b + - a) == (b + - a) - t * (b + - a))%Q) as E by ring.
  rewrite E in *. split; lra.
Qed.

Lemma qzero_pos (d : Q) : (0 < d)%Q → qzero d = false.
Proof.
  intros H. unfold qzero. destruct (Qeq_bool d 0) eqn:E; [|done].
  apply Qeq_bool_iff in E. lra.
Qed.

Lemma fmap_finite (f : tfloat → tfloat) (g : Q → Q) (l : list Q) :
  (∀ x, f (FFin x) = FFin (g x)) → f <$> (FFin <$> l) = FFin <$> (g <$> l).
Proof.
  intros H. induction l as [|x l IH]; [done|].
  rewrite !fmap_cons, IH, H. done.
Qed.

Lemma foldl_Qplus_proper (b c : Q) (k : list Q) :
  (b == c)%Q → (foldl Qplus b k == foldl Qplus c k)%Q.
Proof.
  revert b c. induction k as [|y k IHk]; intros b c E; simpl; [done|].
  apply IHk. lra.
Qed.

(** The cdf of finite non-negative weights is finite, starts at [0], is
    strictly increasing and ends at [1]. *)
Lemma cdf_of_finite (ws : list Q) :
  ws ≠ [] → Forall (fun w => (0 <= w)%Q) ws →
  ∃ cq last_c,
    cdf_of (FFin <$> ws) = FFin <$> cq ∧ length cq = S (length ws)
    ∧ increasing cq ∧ cq !! 0 = Some 0%Q
    ∧ last cq = Some last_c ∧ (last_c == 1)%Q.
Proof.
  intros Hne Hpos. destruct ws as [|w0 ws]; [done|]. clear Hne.
  apply Forall_cons in Hpos as [Hw0 Hws].
  set (eps := (1 # 100000)%Q). assert ((0 < eps)%Q) as Heps by done.
  set (v0 := (w0 + eps)%Q). set (vs := (fun w => (w + eps)%Q) <$> ws).
  assert ((0 < v0)%Q) as Hv0 by (unfold v0; lra).
  assert (Forall (fun x => (0 < x)%Q) vs) as Hvs.
  { unfold vs. apply Forall_fmap. eapply Forall_impl; [exact Hws|].
    intros x Hx. cbn beta in Hx. change (0 < x + eps)%Q. lra. }
  set (total := foldl Qplus (0 + v0)%Q vs).
  assert ((0 < total)%Q) as Htot.
  { pose proof (foldl_Qplus_ge (0 + v0)%Q vs Hvs). unfold total. lra. }
  set (r := (/ total)%Q).
  assert ((0 < r)%Q) as Hr by (by apply Qinv_lt_0_compat).
  set (p0 := (v0 * r)%Q). set (ps := (fun w => (w * r)%Q) <$> vs).
  assert ((0 < p0)%Q) as Hp0 by (by apply Qmult_lt_0_compat).
  assert (Forall (fun x => (0 < x)%Q) ps) as Hps.
  { unfold ps. apply Forall_fmap. eapply Forall_impl; [exact Hvs|].
    intros x Hx. cbn beta in Hx. change (0 < x * r)%Q.
    by apply Qmult_lt_0_compat. }
  exists (0%Q :: p0 :: qcumsum_from p0 ps), (foldl Qplus p0 ps).
  split; [|split; [|split; [|split; [done|split]]]].
  - unfold cdf_of.
    assert (((fun w => fadd w pdf_eps) <$> (FFin <$> (w0 :: ws)))
            = FFin <$> (v0 :: vs)) as ->.
    { apply (fmap_finite _ (fun w => (w + eps)%Q) (w0 :: ws)). done. }
    rewrite fsum_finite. change (foldl Qplus 0%Q (v0 :: vs)) with total.
    assert (((fun w => fdiv w (FFin total)) <$> (FFin <$> (v0 :: vs)))
            = FFin <$> (p0 :: ps)) as ->.
    { apply (fmap_finite _ (fun w => (w * r)%Q) (v0 :: vs)). intros x.
      cbn [fdiv]. by rewrite (qzero_pos total Htot). }
    rewrite fmap_cons. cbn [cumsum]. rewrite cumsum_from_finite. done.
  - simpl. unfold ps, vs. by rewrite length_qcumsum_from, !length_fmap.
  - intros i j a b Hij Hi Hj. destruct j as [|j]; [lia|]. simpl in Hj.
    destruct i as [|i].
    + injection Hi as <-. destruct j as [|j]; simpl in Hj.
      * by injection Hj as <-.
      * pose proof (qcumsum_from_lower p0 ps j b Hps Hj). lra.
    + simpl in Hi.
      apply (qcumsum_from_increasing p0 ps Hps i j a b); [lia|done..].
  - rewrite last_cons_cons. apply qcumsum_from_last.
  - unfold p0, ps. rewrite foldl_Qplus_scale.
    rewrite (foldl_Qplus_proper v0 (0 + v0)%Q vs) by lra.
    fold total. unfold r. apply Qmult_inv_r. lra.
Qed.

Lemma nondecreasing_head_last (bs : list Q) i lo hi b :
  nondecreasing bs → head bs = Some lo → last bs = Some hi →
  bs !! i = Some b → (lo <= b)%Q ∧ (b <= hi)%Q.
Proof.
  intros Hs Hlo Hhi Hb. rewrite head_lookup in Hlo.
  rewrite last_lookup in Hhi.
  pose proof (lookup_lt_Some _ _ _ Hb). split.
  - apply (Hs 0 i); [lia|done..].
  - apply (Hs i (pred (length bs))); [lia|done..].
Qed.

(** The deterministic samples [linspace(0.5 / n, 1 - 0.5 / n, n)] lie in
    the unit interval. *)
Lemma linspace_unit_interval (n : Z) :
  (1 <= n)%Z →
  ∃ us,
    (half ← py_div (FFin (1 # 2)) (of_Z n);
     linspace (fadd fzero half) (fsub fone half) n) = inr (FFin <$> us)
    ∧ length us = Z.to_nat n ∧ unit_interval us.
Proof.
  intros Hn. unfold py_div, of_Z.
  assert ((1 <= inject_Z n)%Q) as Hq.
  { change 1%Q with (inject_Z 1). by rewrite <- Zle_Qle. }
  assert (feqb (FFin (inject_Z n)) fzero = false) as ->.
  { unfold feqb, fzero. cbn [fle]. apply andb_false_iff. left.
    apply Qle_bool_false'. lra. }
  cbn [mbind M_bind mret M_ret fdiv]. rewrite qzero_pos by lra.
  set (h := ((1 # 2) / inject_Z n)%Q).
  assert ((0 < h)%Q ∧ (h <= 1 # 2)%Q) as [Hh0 Hh1].
  { unfold h. split.
    - apply Qlt_shift_div_l; lra.
    - apply Qle_shift_div_r; lra. }
  cbn [fadd fsub fneg fzero fone]. unfold linspace.
  destruct (Z.ltb_spec n 0) as [?|_]; [lia|].
  destruct (Z.eqb_spec n 1) as [->|Hn1].
  - exists [(0 + h)%Q]. split; [done|]. split; [done|].
    constructor; [|constructor]. split; lra.
  - set (start := (0 + h)%Q). set (d := (1 + - h + - start)%Q).
    assert ((0 <= d)%Q) by (unfold d, start; lra).
    assert ((1 <= inject_Z (n - 1))%Q) as Hm.
    { change 1%Q with (inject_Z 1). rewrite <- Zle_Qle. lia. }
    set (e := (d / inject_Z (n - 1))%Q).
    assert ((0 <= e)%Q) as He by (apply Qle_shift_div_l; lra).
    assert ((e * inject_Z (n - 1) == d)%Q) as Hed.
    { unfold e. rewrite Qmult_comm. apply Qmult_div_r. lra. }
    exists ((fun k => (start + inject_Z k * e)%Q) <$> arange (Z.to_nat n)).
    split; [|split].
    + f_equal. rewrite <- list_fmap_compose. apply list_fmap_ext.
      intros i k _. cbn [compose fdiv of_Z fsub fadd fneg].
      rewrite qzero_pos by lra. reflexivity.
    + unfold arange. by rewrite !length_fmap, length_seq.
    + unfold unit_interval, arange. rewrite <- list_fmap_compose.
      apply Forall_fmap, Forall_forall. intros k Hk%elem_of_seq.
      cbn [compose].
      assert ((0 <= inject_Z (Z.of_nat k))%Q) as Hk0.
      { change 0%Q with (inject_Z 0). rewrite <- Zle_Qle. lia. }
      assert ((inject_Z (Z.of_nat k) <= inject_Z (n - 1))%Q) as Hk1.
      { rewrite <- Zle_Qle. lia. }
      assert ((0 <= inject_Z (Z.of_nat k) * e)%Q)
        by (by apply Qmult_le_0_compat).
      assert ((0 <= (inject_Z (n - 1) - inject_Z (Z.of_nat k)) * e)%Q) as Hm'
        by (apply Qmult_le_0_compat; lra).
      assert (((inject_Z (n - 1) - inject_Z (Z.of_nat k)) * e
               == d - inject_Z (Z.of_nat k) * e)%Q) as Er.
      { rewrite <- Hed. ring. }
      rewrite Er in Hm'. unfold d, start in *. split; lra.
Qed.

Lemma Forall2_replicate_r {A B} (P : A → B → Prop) (l : list A) (y : B) :
  (∀ x, x ∈ l → P x y) → Forall2 P l (replicate (length l) y).
Proof.
  induction l as [|x l IH]; intros H; simpl; constructor.
  - apply H. left.
  - apply IH. intros x' Hx'. apply H. by right.
Qed.

Lemma finite_replicate (k : nat) (us : list Q) :
  replicate k (FFin <$> us) = finite (replicate k us).
Proof. unfold finite. by rewrite fmap_replicate. Qed.

Lemma length_finite (t : list (list Q)) : length (finite t) = length t.
Proof. unfold finite. by rewrite length_fmap. Qed.

(** The inversion of one sample on a strictly increasing cdf from 0 to 1:
    both gathers succeed, and the sample lies between two consecutive bin
    edges. *)
Lemma sample_between (T : nat) (bs cq : list Q) (u : Q) :
  cdf_row T cq → nondecreasing bs → length bs = T →
  (0 <= u)%Q → (u < 1)%Q →
  ∃ cb ca bb ba s j,
    gather_pair (FFin <$> cq)
      (Z.max 0 (searchsorted_right (FFin <$> cq) (FFin u) - 1),
       Z.min (Z.of_nat T - 1) (searchsorted_right (FFin <$> cq) (FFin u)))
    = inr (FFin cb, FFin ca)
    ∧ gather_pair (FFin <$> bs)
        (Z.max 0 (searchsorted_right (FFin <$> cq) (FFin u) - 1),
         Z.min (Z.of_nat T - 1) (searchsorted_right (FFin <$> cq) (FFin u)))
      = inr (FFin bb, FFin ba)
    ∧ fadd (FFin bb)
        (fmul (fdiv (fsub (FFin u) (FFin cb))
                 (if flt (fsub (FFin ca) (FFin cb)) pdf_eps then fone
                  else fsub (FFin ca) (FFin cb)))
           (fsub (FFin ba) (FFin bb))) = FFin s
    ∧ bs !! j = Some bb ∧ bs !! S j = Some ba
    ∧ (bb <= s)%Q ∧ (s <= ba)%Q.
Proof.
  intros (HT & Hinc & H0 & lc & Hlast & E1) Hbs Hlen Hu0 Hu1. subst T.
  destruct (searchsorted_right_spec cq u) as (n & En & Hn & Hlo & Hhi).
  { intros i j a b Hij Hi Hj. destruct (decide (i = j)) as [->|Hne].
    - assert (a = b) as -> by congruence. lra.
    - apply Qlt_le_weak, (Hinc i j); [lia|done..]. }
  assert (1 ≤ n) as Hn1.
  { destruct n as [|n]; [|lia]. exfalso.
    assert ((u < 0)%Q) by (apply (Hhi 0); [lia|done]). lra. }
  assert (n < length cq) as Hn2.
  { destruct (decide (n = length cq)) as [->|]; [|lia]. exfalso.
    rewrite last_lookup in Hlast.
    assert ((lc <= u)%Q) by (apply (Hlo (pred (length cq))); [lia|done]).
    lra. }
  destruct (lookup_lt_is_Some_2 cq (n - 1)) as [cb Hcb]; [lia|].
  destruct (lookup_lt_is_Some_2 cq n) as [ca Hca]; [lia|].
  destruct (lookup_lt_is_Some_2 bs (n - 1)) as [bb Hbb]; [lia|].
  destruct (lookup_lt_is_Some_2 bs n) as [ba Hba]; [lia|].
  assert ((cb <= u)%Q) by (apply (Hlo (n - 1)); [lia|done]).
  assert ((u < ca)%Q) by (apply (Hhi n); [lia|done]).
  assert ((bb <= ba)%Q) by (apply (Hbs (n - 1) n); [lia|done..]).
  set (d := (ca + - cb)%Q). assert ((0 < d)%Q) by (unfold d; lra).
  set (x := (u + - cb)%Q). assert ((0 <= x)%Q) by (unfold x; lra).
  assert ((x <= d)%Q) by (unfold x, d; lra).
  assert (∃ t, fdiv (FFin x)
                 (if flt (FFin d) pdf_eps then fone else FFin d) = FFin t
               ∧ (0 <= t)%Q ∧ (t <= 1)%Q) as (t & Et & Ht0 & Ht1).
  { destruct (flt (FFin d) pdf_eps) eqn:Ef.
    - exists (x / 1)%Q. split; [done|].
      unfold flt, pdf_eps in Ef. cbn [fle] in Ef.
      apply andb_true_iff in Ef as [Ef _]. apply Qle_bool_true in Ef.
      apply Qdiv_unit; [done| |lra].
      assert ((1 # 100000 <= 1)%Q) by (unfold Qle; simpl; lia). lra.
    - exists (x / d)%Q. split.
      + cbn [fdiv]. by rewrite qzero_pos.
      + by apply Qdiv_unit. }
  exists cb, ca, bb, ba, (bb + t * (ba + - bb))%Q, (n - 1).
  rewrite En.
  replace (Z.max 0 (Z.of_nat n - 1)) with (Z.of_nat (n - 1)) by lia.
  replace (Z.min (Z.of_nat (length cq) - 1) (Z.of_nat n)) with (Z.of_nat n)
    by lia.
  replace (S (n - 1)) with n by lia.
  unfold gather_pair. cbn [fst snd].
  rewrite (gather1_finite cq (n - 1) cb Hcb), (gather1_finite cq n ca Hca),
    (gather1_finite bs (n - 1) bb Hbb), (gather1_finite bs n ba Hba).
  cbn [mbind M_bind mret M_ret fsub fneg fadd]. fold d x. rewrite Et.
  cbn [fmul fadd].
  destruct (lerp_between bb ba t) as [? ?]; [done..|].
  repeat split; done.
Qed.

Lemma row_in_range (T : nat) (bs cq us : list Q) :
  cdf_row T cq → nondecreasing bs → length bs = T → unit_interval us →
  ∃ cdf_g bins_g samples,
    mapM (gather_pair (FFin <$> cq)) (row_inds_g T (FFin <$> cq) (FFin <$> us))
      = inr cdf_g
    ∧ mapM (gather_pair (FFin <$> bs)) (row_inds_g T (FFin <$> cq) (FFin <$> us))
      = inr bins_g
    ∧ row_samples (FFin <$> us) cdf_g bins_g = FFin <$> samples
    ∧ length samples = length us ∧ in_range bs samples.
Proof.
  intros Hc Hbs Hlen Hus.
  induction Hus as [|u us [Hu0 Hu1] Hus (cg & bg & samples & E1 & E2 & E3 & Hl & Hr)].
  - exists [], [], []. repeat split; try done. intros lo hi _ _. constructor.
  - destruct (sample_between T bs cq u Hc Hbs Hlen Hu0 Hu1)
      as (cb & ca & bb & ba & s & j & G1 & G2 & Es & Hbb & Hba & Hs1 & Hs2).
    exists ((FFin cb, FFin ca) :: cg), ((FFin bb, FFin ba) :: bg), (s :: samples).
    unfold row_inds_g in *. rewrite !fmap_cons. cbn [zip_with mapM].
    rewrite G1, G2. cbn [mbind M_bind].
    rewrite E1, E2. cbn [mbind M_bind mret M_ret].
    split; [done|]. split; [done|]. split; [|split].
    + unfold row_samples in *. rewrite !fmap_cons. cbn [zip_with fst snd].
      rewrite Es. f_equal. exact E3.
    + simpl. lia.
    + intros lo hi Hlo Hhi. constructor; [|by apply Hr].
      destruct (nondecreasing_head_last bs j lo hi bb Hbs Hlo Hhi Hbb).
      destruct (nondecreasing_head_last bs (S j) lo hi ba Hbs Hlo Hhi Hba).
      split; lra.
Qed.

Lemma map2M_zip_with {A B C} (f : A → B → C) (l1 : list A) (l2 : list B) :
  length l1 = length l2 → map2M f l1 l2 = inr (zip_with f l1 l2).
Proof.
  revert l2. induction l1 as [|a l1 IH]; intros [|b l2] H; simpl in *;
    try done.
  rewrite IH by lia. done.
Qed.

Lemma expand_dim_id {A} (l : list A) (n : nat) :
  length l = n → expand_dim l n = inr l.
Proof. intros H. unfold expand_dim. by rewrite decide_True. Qed.

Lemma expand_rows_id {A} (t : list (list A)) (B T : nat) :
  length t = B → Forall (fun row => length row = T) t →
  expand_rows t B T = inr t.
Proof.
  intros HB HT. unfold expand_rows. rewrite (expand_dim_id t B HB).
  cbn [mbind M_bind mret M_ret].
  clear HB. induction HT as [|row t Hrow HT IH]; [done|].
  cbn [mapM]. rewrite (expand_dim_id row T Hrow).
  cbn [mbind M_bind mret M_ret]. fold (mapM (fun row : list A => expand_dim row T)).
  rewrite IH. done.
Qed.

Lemma rows_in_range (T : nat) (bss cqs uss : list (list Q)) :
  Forall2 (fun bs cq => cdf_row T cq ∧ nondecreasing bs ∧ length bs = T)
    bss cqs →
  Forall2 (fun _ us => unit_interval us) cqs uss →
  ∃ cdf_g bins_g samples,
    gather_pairs (finite cqs) (inds_g_of T (finite cqs) (finite uss))
      = inr cdf_g
    ∧ gather_pairs (finite bss) (inds_g_of T (finite cqs) (finite uss))
      = inr bins_g
    ∧ length (inds_g_of T (finite cqs) (finite uss)) = length bss
    ∧ samples_of (finite uss) cdf_g bins_g = finite samples
    ∧ Forall2 (fun us row => length row = length us) uss samples
    ∧ Forall2 in_range bss samples.
Proof.
  intros H. revert uss.
  induction H as [|bs cq bss cqs (Hc & Hbs & Hlen) Hrows IH]; intros uss Hu.
  - apply Forall2_nil_inv_l in Hu as ->. exists [], [], []. by repeat split.
  - apply Forall2_cons_inv_l in Hu as (us & uss' & Hus & Huss & ->).
    destruct (IH uss' Huss) as (cg & bg & rest & E1 & E2 & El & E3 & Hl & Hr).
    destruct (row_in_range T bs cq us Hc Hbs Hlen Hus)
      as (rcg & rbg & row & R1 & R2 & R3 & Rl & Rr).
    exists (rcg :: cg), (rbg :: bg), (row :: rest).
    unfold gather_pairs, inds_g_of, samples_of, zip2d, map2d, finite,
      row_inds_g, row_samples in *.
    repeat (rewrite ?fmap_cons; cbn [zip_with zipM]).
    rewrite R1, R2. cbn [mbind M_bind]. rewrite E1, E2.
    cbn [mbind M_bind mret M_ret].
    split; [done|]. split; [done|]. split; [simpl; by rewrite El|].
    split; [|split; by constructor].
    repeat (rewrite ?fmap_cons; cbn [zip_with]).
    rewrite R3. f_equal. exact E3.
Qed.

Lemma cdf_rows (T : nat) (bss wss : list (list Q)) :
  Forall2 (samplable T) bss wss →
  ∃ cqs,
    cdf_of <$> finite wss = finite cqs
    ∧ Forall2 (fun bs cq => cdf_row T cq ∧ nondecreasing bs ∧ length bs = T)
        bss cqs
    ∧ length cqs = length wss.
Proof.
  induction 1 as [|bs ws bss wss (Hne & Hlb & Hlw & Hpos & Hbs) Hrows
                    (cqs & E & Hc & Hl)].
  - by exists [].
  - destruct (cdf_of_finite ws Hne Hpos) as (cq & lc & Ec & Hlc & Hinc & H0 & Hlast & E1).
    exists (cq :: cqs). unfold finite in *. rewrite !fmap_cons, Ec, E.
    split; [done|]. split; [|simpl; lia].
    constructor; [|done]. split; [|done].
    split; [lia|]. split; [done|]. split; [done|]. by exists lc.
Qed.

Lemma shape2_rows (T : nat) (cqs : list (list Q)) :
  Forall (fun cq => length cq = T) cqs →
  cqs = [] ∨ (shape2 (finite cqs)).2 = T.
Proof.
  intros H. destruct H as [|cq cqs Hcq _]; [by left|right].
  unfold shape2, finite. simpl. by rewrite length_fmap.
Qed.

(** The part of [sample_pdf] after the uniform samples are taken, on rows
    that can be sampled. *)
Lemma sample_pdf_in_range (T : nat) (bss wss uss : list (list Q)) (n : Z) :
  Forall2 (samplable T) bss wss →
  Forall2 (fun _ us => unit_interval us) wss uss →
  ∃ samples,
    sample_pdf (finite bss) (finite wss) n false (finite uss)
      = inr (finite samples)
    ∧ Forall2 (fun us row => length row = length us) uss samples
    ∧ Forall2 in_range bss samples.
Proof.
  intros Hrows Hu.
  destruct (cdf_rows T bss wss Hrows) as (cqs & Ec & Hc & Hlc).
  assert (Forall2 (fun _ us => unit_interval us) cqs uss) as Hu'.
  { apply Forall2_same_length_lookup. split.
    - apply Forall2_length in Hu. lia.
    - intros i cq us _ Hus.
      destruct (Forall2_lookup_r _ _ _ _ _ Hu Hus) as (ws & _ & ?). done. }
  assert (Forall (fun cq => length cq = T) cqs) as HT.
  { eapply Forall2_Forall_r; [exact Hc|]. apply Forall_true.
    by intros bs cq ((? & _) & _). }
  assert (Forall (fun row : list tfloat => length row = T) (finite bss)) as HTb.
  { unfold finite. apply Forall_fmap.
    eapply Forall2_Forall_l; [exact Hc|]. apply Forall_true.
    intros bs cq (_ & _ & ?). simpl. by rewrite length_fmap. }
  unfold sample_pdf. rewrite Ec. cbn [mbind M_bind mret M_ret].
  rewrite map2M_zip_with
    by (rewrite !length_finite; apply Forall2_length in Hu'; lia).
  cbn [mbind M_bind mret M_ret].
  destruct (shape2_rows T cqs HT) as [-> | ->].
  - apply Forall2_nil_inv_r in Hc as ->. apply Forall2_nil_inv_l in Hu' as ->.
    exists []. by repeat split.
  - destruct (rows_in_range T bss cqs uss Hc Hu')
      as (cg & bg & samples & E1 & E2 & El & E3 & Hl & Hr).
    unfold inds_g_of in E1, E2, El. rewrite E1. cbn [mbind M_bind].
    rewrite expand_rows_id by (rewrite ?length_finite; done).
    cbn [mbind M_bind]. rewrite E2. cbn [mbind M_bind mret M_ret].
    exists samples. split; [|done]. f_equal. exact E3.
Qed.

Lemma sample_pdf_det (bins weights draw : list (list tfloat)) (n : Z)
  (row : list tfloat) :
  (half ← py_div (FFin (1 # 2)) (of_Z n);
   linspace (fadd fzero half) (fsub fone half) n) = inr row →
  sample_pdf bins weights n true draw
  = sample_pdf bins weights n false (replicate (length weights) row).
Proof.
  intros H. unfold sample_pdf.
  destruct (py_div (FFin (1 # 2)) (of_Z n)) as [err|half]; [done|].
  cbn [mbind M_bind mret M_ret] in H |- *. rewrite H.
  cbn [mbind M_bind mret M_ret]. by rewrite length_fmap.
Qed.

Lemma length_cumsum_from acc l : length (cumsum_from acc l) = length l.
Proof. revert acc. induction l as [|x l IH]; intros acc; simpl; [done|]. by rewrite IH. Qed.

Lemma length_cdf_of (ws : list tfloat) :
  ws ≠ [] → length (cdf_of ws) = S (length ws).
Proof.
  destruct ws as [|w ws]; [done|]. intros _. unfold cdf_of. simpl.
  by rewrite length_cumsum_from, !length_fmap.
Qed.

Lemma searchsorted_right_bounds (cdf : list tfloat) (u : tfloat) :
  (0 <= searchsorted_right cdf u <= Z.of_nat (length cdf))%Z.
Proof.
  unfold searchsorted_right.
  pose proof (length_filter (fun c => fle c u = true) cdf). lia.
Qed.

Lemma gather1_total (row : list tfloat) (i : Z) :
  (0 <= i < Z.of_nat (length row))%Z → ∃ v, gather1 row i = inr v.
Proof.
  intros H. unfold gather1. destruct (Z.ltb_spec i 0); [lia|].
  destruct (lookup_lt_is_Some_2 row (Z.to_nat i)) as [v ->]; [lia|]. by exists v.
Qed.

Lemma mapM_length {A B} (f : A → M B) (l : list A) (r : list B) :
  mapM f l = inr r → length r = length l.
Proof. intros H. apply mapM_inr in H. symmetry. by eapply Forall2_length. Qed.

Lemma gather_pair_total (row : list tfloat) (p : Z * Z) :
  (0 <= p.1 < Z.of_nat (length row))%Z → (0 <= p.2 < Z.of_nat (length row))%Z →
  ∃ v, gather_pair row p = inr v.
Proof.
  intros H1 H2. unfold gather_pair.
  destruct (gather1_total row p.1 H1) as [lo ->].
  destruct (gather1_total row p.2 H2) as [hi ->]. by eexists.
Qed.

Lemma mapM_total {A B} (P : A → Prop) (f : A → M B) (l : list A) :
  (∀ x, P x → ∃ y, f x = inr y) → Forall P l →
  ∃ r, mapM f l = inr r ∧ length r = length l.
Proof.
  intros Hf. induction 1 as [|x l Hx _ (r & E & Hl)].
  - by exists [].
  - destruct (Hf x Hx) as [y Hy]. exists (y :: r).
    cbn [mapM]. rewrite Hy. cbn [mbind M_bind].
    fold (mapM f). rewrite E. split; [done|]. simpl. by rewrite Hl.
Qed.

(** The pairs gathered for one row of samples. *)
Lemma gather_row_total (T : nat) (row : list tfloat) (inds : list Z) :
  length row = S T →
  Forall (fun i => (0 <= i <= Z.of_nat (S T))%Z) inds →
  ∃ out,
    mapM (gather_pair row)
      (zip_with pair ((fun i => Z.max 0 (i - 1)) <$> inds)
         ((fun i => Z.min (Z.of_nat (S T) - 1) i) <$> inds)) = inr out
    ∧ length out = length inds.
Proof.
  intros Hrow Hinds.
  destruct (mapM_total
              (fun p : Z * Z => (0 <= p.1 < Z.of_nat (length row))%Z
                                ∧ (0 <= p.2 < Z.of_nat (length row))%Z)
              (gather_pair row)
              (zip_with pair ((fun i => Z.max 0 (i - 1)) <$> inds)
                 ((fun i => Z.min (Z.of_nat (S T) - 1) i) <$> inds)))
    as (out & E & Hl).
  - intros p [H1 H2]. by apply gather_pair_total.
  - rewrite Hrow. clear Hrow.
    induction Hinds as [|i inds Hi _ IH]; [constructor|].
    cbn [fmap list_fmap zip_with]. constructor; [simpl; lia|exact IH].
  - exists out. split; [done|].
    rewrite Hl, length_zip_with, !length_fmap. lia.
Qed.

Lemma row_inds_bounds (T : nat) (cdf u : list tfloat) :
  length cdf = S T →
  Forall (fun i => (0 <= i <= Z.of_nat (S T))%Z) (searchsorted_right cdf <$> u).
Proof.
  intros H. apply Forall_fmap, Forall_true. intros x. simpl.
  rewrite <- H. apply searchsorted_right_bounds.
Qed.

(** The gathers and the final expression of [sample_pdf] on tensors of the
    shapes the function is written for. *)
Lemma rows_shape (T n : nat) (cdf bins u : list (list tfloat)) :
  Forall (fun row => length row = S T) cdf →
  length bins = length cdf → Forall (fun row => length row = S T) bins →
  length u = length cdf → Forall (fun row => length row = n) u →
  ∃ cdf_g bins_g,
    gather_pairs cdf (inds_g_of (S T) cdf u) = inr cdf_g
    ∧ gather_pairs bins (inds_g_of (S T) cdf u) = inr bins_g
    ∧ length (inds_g_of (S T) cdf u) = length cdf
    ∧ length (samples_of u cdf_g bins_g) = length cdf
    ∧ Forall (fun row => length row = n) (samples_of u cdf_g bins_g).
Proof.
  intros Hc. revert bins u.
  induction Hc as [|crow cdf Hcrow Hc IH]; intros bins u Hlb Hb Hlu Hu.
  - destruct bins; [|done]. destruct u; [|done]. by exists [], [].
  - destruct bins as [|brow bins]; [done|]. destruct u as [|us u]; [done|].
    apply Forall_cons in Hb as [Hbrow Hb]. apply Forall_cons in Hu as [Hus Hu].
    simpl in Hlb, Hlu.
    destruct (IH bins u ltac:(lia) Hb ltac:(lia) Hu)
      as (cg & bg & E1 & E2 & El & Els & Hs).
    destruct (gather_row_total T crow (searchsorted_right crow <$> us) Hcrow
                (row_inds_bounds T crow us Hcrow)) as (rcg & R1 & L1).
    destruct (gather_row_total T brow (searchsorted_right crow <$> us) Hbrow
                (row_inds_bounds T crow us Hcrow)) as (rbg & R2 & L2).
    rewrite length_fmap in L1, L2.
    exists (rcg :: cg), (rbg :: bg).
    unfold gather_pairs, inds_g_of, samples_of, zip2d, map2d in *.
    repeat (rewrite ?fmap_cons; cbn [zip_with zipM]).
    rewrite R1, R2. cbn [mbind M_bind]. rewrite E1, E2.
    cbn [mbind M_bind mret M_ret].
    split; [done|]. split; [done|]. split; [simpl; by rewrite El|].
    repeat (rewrite ?fmap_cons; cbn [zip_with]).
    split; [simpl; by rewrite Els|].
    constructor; [|exact Hs].
    rewrite !length_zip_with, !length_fmap. lia.
Qed.

Lemma sample_pdf_shape (B T n : nat) (bins weights u : list (list tfloat))
  (n_samples : Z) :
  1 <= T →
  length bins = B → Forall (fun row => length row = S T) bins →
  length weights = B → Forall (fun row => length row = T) weights →
  length u = B → Forall (fun row => length row = n) u →
  ∃ samples,
    sample_pdf bins weights n_samples false u = inr samples
    ∧ length samples = B ∧ Forall (fun row => length row = n) samples.
Proof.
  intros HT Hlb Hb Hlw Hw Hlu Hu.
  assert (Hc : Forall (fun row => length row = S T) (cdf_of <$> weights)).
  { apply Forall_fmap. eapply Forall_impl; [exact Hw|].
    intros ws Hws. simpl. rewrite length_cdf_of; [by rewrite Hws|].
    destruct ws; [simpl in Hws; lia|done]. }
  assert (Hlc : length (cdf_of <$> weights) = B) by by rewrite length_fmap.
  unfold sample_pdf. cbn [mbind M_bind mret M_ret].
  rewrite map2M_zip_with by lia. cbn [mbind M_bind mret M_ret].
  destruct (rows_shape T n (cdf_of <$> weights) bins u Hc ltac:(lia) Hb
              ltac:(lia) Hu) as (cg & bg & E1 & E2 & El & Els & Hs).
  destruct (cdf_of <$> weights) as [|crow cdf] eqn:Ecdf.
  - simpl in Hlc. subst B. destruct bins; [|done]. destruct u; [|done].
    by exists [].
  - assert (HT2 : (shape2 (crow :: cdf)).2 = S T).
    { apply Forall_cons in Hc as [Hcrow _]. done. }
    rewrite HT2. unfold inds_g_of in E1, E2, El. rewrite E1.
    cbn [mbind M_bind]. rewrite El.
    rewrite (expand_rows_id bins _ (S T)); [|lia|done].
    cbn [mbind M_bind]. rewrite E2. cbn [mbind M_bind mret M_ret].
    eexists. split; [reflexivity|].
    unfold samples_of in Els, Hs. split; [by rewrite Els|exact Hs].
Qed.

(** X18.  With [det=False], on a batch of [B] rows of [T + 1] bin edges
    and [T >= 1] weights, whatever floats they hold (NaN and the
    infinities included), [sample_pdf] raises nothing and returns [B] rows
    of [n_samples] samples each, [n_samples] being the number of draws
    [torch.rand] made per row. *)
Theorem random_samples_shape (B T n : nat)
  (bins weights draw : list (list tfloat)) :
  1 <= T →
  length bins = B → Forall (fun row => length row = S T) bins →
  length weights = B → Forall (fun row => length row = T) weights →
  length draw = B → Forall (fun row => length row = n) draw →
  ∃ samples,
    sample_pdf bins weights (Z.of_nat n) false draw = inr samples
    ∧ length samples = B ∧ Forall (fun row => length row = n) samples.
Proof. apply sample_pdf_shape. Qed.

(** X19.  With [det=True] and [n_samples >= 1], on a batch of [B] rows of
    [T + 1] bin edges and [T >= 1] weights, whatever floats they hold,
    [sample_pdf] raises nothing and returns [B] rows of [n_samples] samples
    each, the same for every state of the random generator. *)
Theorem deterministic_samples_shape (B T n : nat)
  (bins weights : list (list tfloat)) :
  1 <= T → 1 <= n →
  length bins = B → Forall (fun row => length row = S T) bins →
  length weights = B → Forall (fun row => length row = T) weights →
  ∃ samples,
    (∀ draw, sample_pdf bins weights (Z.of_nat n) true draw = inr samples)
    ∧ length samples = B ∧ Forall (fun row => length row = n) samples.
Proof.
  intros HT Hn Hlb Hb Hlw Hw.
  destruct (linspace_unit_interval (Z.of_nat n) ltac:(lia))
    as (us & Eu & Hlu & _).
  destruct (sample_pdf_shape B T n bins weights
              (replicate (length weights) (FFin <$> us)) (Z.of_nat n)
              HT Hlb Hb Hlw Hw) as (samples & E & Hl & Hs).
  { by rewrite length_replicate. }
  { apply Forall_replicate. rewrite length_fmap. lia. }
  exists samples. split; [|done].
  intros draw. by rewrite (sample_pdf_det _ _ draw _ (FFin <$> us) Eu).
Qed.

(** X20.  Asking for no sample: with [det=True] the expression
    [0.5 / n_samples] raises [ZeroDivisionError] whatever the tensors are,
    while with [det=False] rows that can be sampled give one empty row of
    samples each. *)
Theorem zero_samples_requested (T : nat) (bss wss : list (list Q))
  (bins weights draw : list (list tfloat)) :
  Forall2 (samplable T) bss wss →
  sample_pdf bins weights 0 true draw = inl ZeroDivisionError
  ∧ sample_pdf (finite bss) (finite wss) 0 false
      (replicate (length wss) []) = inr (replicate (length bss) []).
Proof.
  intros Hrows. split; [done|].
  destruct (sample_pdf_in_range T bss wss (replicate (length wss) []) 0 Hrows)
    as (samples & E & Hl & Hr).
  { apply Forall2_replicate_r. intros. constructor. }
  change (replicate (length wss) []) with (replicate (length wss) (FFin <$> []))
    at 1.
  rewrite finite_replicate, E. f_equal.
  assert (length samples = length bss) as Hlen.
  { symmetry. by eapply Forall2_length. }
  assert (samples = replicate (length bss) []) as ->.
  { rewrite <- Hlen. apply list_eq_same_length with (length samples);
      [by rewrite length_replicate|done|].
    intros i x y Hi Hx Hy. apply lookup_replicate in Hy as [-> _].
    destruct (Forall2_lookup_r _ _ _ _ _ Hl Hx) as (us' & Hus' & El).
    apply lookup_replicate in Hus' as [-> _]. by destruct x. }
  unfold finite. by rewrite fmap_replicate.
Qed.

Lemma gather_pair_nil (i : Z * Z) : ∃ err, gather_pair [] i = inl err.
Proof.
  unfold gather_pair, gather1. destruct (i.1 <? 0)%Z; by eexists.
Qed.

Lemma sample_pdf_no_weights (bins weights u : list (list tfloat)) (n : Z) :
  (1 <= n)%Z → Forall (fun us => length us = Z.to_nat n) u →
  ∃ err, sample_pdf bins ([] :: weights) n false u = inl err.
Proof.
  intros Hn Hu. unfold sample_pdf. rewrite fmap_cons.
  change (cdf_of []) with (@nil tfloat). cbn [mbind M_bind mret M_ret].
  destruct u as [|urow u]; [by eexists|].
  apply Forall_cons in Hu as [Hrow _].
  destruct urow as [|u0 urow]; [simpl in Hrow; lia|].
  cbn [map2M].
  destruct (map2M _ _ u) as [err|rest]; [by eexists|].
  cbn [mbind M_bind mret M_ret].
  unfold gather_pairs, zip2d, map2d.
  repeat (rewrite ?fmap_cons; cbn [zip_with zipM mapM]).
  match goal with
  | |- context [gather_pair [] ?i] =>
      destruct (gather_pair_nil i) as [err ->]
  end.
  by exists err.
Qed.

(** X21.  Rows without any weight cannot be sampled: as soon as one sample
    per row is requested, [sample_pdf] raises (the gather indexes an empty
    cdf), with [det=True] and with drawn samples alike. *)
Theorem no_weights_cannot_be_sampled (bins weights draw : list (list tfloat))
  (n : Z) (det : bool) :
  (1 <= n)%Z → weights ≠ [] → Forall (fun ws => ws = []) weights →
  Forall (fun us => length us = Z.to_nat n) draw →
  ∃ err, sample_pdf bins weights n det draw = inl err.
Proof.
  intros Hn Hne Hw Hd. destruct weights as [|ws weights]; [done|].
  apply Forall_cons in Hw as [-> _].
  destruct det; [|by apply sample_pdf_no_weights].
  destruct (half ← py_div (FFin (1 # 2)) (of_Z n);
            linspace (fadd fzero half) (fsub fone half) n) as [err|row] eqn:E.
  - exists err. unfold sample_pdf.
    destruct (py_div (FFin (1 # 2)) (of_Z n)) as [err'|half].
    + cbn [mbind M_bind] in E |- *. congruence.
    + cbn [mbind M_bind] in E |- *. rewrite E. done.
  - rewrite (sample_pdf_det _ _ draw n row E).
    apply sample_pdf_no_weights; [done|].
    apply Forall_replicate.
    destruct (py_div (FFin (1 # 2)) (of_Z n)) as [err'|half]; [done|].
    cbn [mbind M_bind] in E. unfold linspace in E.
    destruct (Z.ltb_spec n 0) as [?|_]; [lia|].
    destruct (Z.eqb_spec n 1) as [->|Hn1].
    + by injection E as <-.
    + injection E as <-. unfold arange. by rewrite !length_fmap, length_seq.
Qed.

(* ===================================================================== *)
(** ** Concrete runs *)
(* ===================================================================== *)

#[local] Existing Instance Toy.toy_raymarching.
#[local] Existing Instance Toy.toy_field.
#[local] Existing Instance Toy.toy_random.
#[local] Existing Instance Toy.toy_math.



(** C2.  The staged branch cannot be compared with the single call: on a
    renderer without [cuda_ray] a staged render of three rays in chunks of
    two raises [TypeError] in its first chunk, because the chunk's call of
    [run_cuda] passes no [semantic_class_length] (the call of the other
    branch does).  With [cuda_ray] set, [staged] is ignored and nothing is
    chunked; without it the single call raises [AttributeError]. *)
Theorem staged_render_raises :
  render (Toy.toy_renderer false false) Toy.toy_rays Toy.toy_rays 2 true 2
    Toy.no_kwargs
  = Some (inl (TypeError
       "run_cuda() missing 1 required positional argument: 'semantic_class_length'"))
  ∧ render (Toy.toy_renderer true false) Toy.toy_rays Toy.toy_rays 2 true 2
      Toy.no_kwargs
    = render (Toy.toy_renderer true false) Toy.toy_rays Toy.toy_rays 2 false
        4096 Toy.no_kwargs
  ∧ render (Toy.toy_renderer false false) Toy.toy_rays Toy.toy_rays 2 false
      4096 Toy.no_kwargs
    = Some (inl (AttributeError "density_bitfield")).
Proof.
  split; [|split].
  - apply render_staged_raises; [reflexivity|lia|simpl; lia..].
  - by apply render_staged_ignored.
  - reflexivity.
Qed.

(** C3 on an inference run of three rays. *)
Lemma semantic_not_composited_witness :
  ∃ self' results' cs,
    rays_semantic (Toy.toy_renderer true false) ∅ Toy.toy_rays Toy.toy_rays 2
      (bind_kwargs (Toy.steps_kwargs 4)) = inr (self', results')
    ∧ results' !! "semantic" = Some (RVector (view2 1 3 cs)).
Proof.
  destruct (rays_semantic (Toy.toy_renderer true false) ∅ Toy.toy_rays
              Toy.toy_rays 2 (bind_kwargs (Toy.steps_kwargs 4)))
    as [e|[s r]] eqn:E; [vm_compute in E; discriminate|].
  destruct (semantic_not_composited _ _ _ _ _ _ _ _ E)
    as (ws & ds & cs & _ & Hs & _).
  exists s, r, cs. split; [reflexivity|exact Hs].
Defined.

(** C4 on an inference run of three rays with the default background. *)
Lemma image_background_mix_witness :
  ∃ self' results' ws img image,
    rays_rgb (Toy.toy_renderer true false) ∅ Toy.toy_rays Toy.toy_rays 2
      (bind_kwargs (Toy.steps_kwargs 4)) = inr (self', results')
    ∧ results' !! "image" = Some (RVector (view2 1 3 image))
    ∧ length image = 3
    ∧ per_ray_mix img ws (BgScalar fone) image.
Proof.
  destruct (rays_rgb (Toy.toy_renderer true false) ∅ Toy.toy_rays
              Toy.toy_rays 2 (bind_kwargs (Toy.steps_kwargs 4)))
    as [e|[s r]] eqn:E; [vm_compute in E; discriminate|].
  destruct (image_background_mix _ _ _ _ _ _ _ _ E)
    as (ws & ds & img & image & bg & _ & Hi & Hlen & Hbg & Hmix & _).
  exists s, r, ws, img, image. split; [reflexivity|]. split; [exact Hi|].
  split; [exact Hlen|]. rewrite Hbg in Hmix. exact Hmix.
Defined.

(** [bg_color] is broadcast as torch broadcasts it.  On the three rays of
    the toy scene a tensor of one element is the background of every entry
    of the image, and so is a number; a tensor of four channels cannot be
    added to the three channels of the image, and a background of two rows
    cannot be multiplied with the weights of three rays.  On a single ray
    a background of two rows broadcasts to an image of two rows, which the
    view of the image as [1, 1, 3] refuses. *)
Example bg_color_broadcasting :
  rays_rgb (Toy.toy_renderer true false) ∅ Toy.toy_rays Toy.toy_rays 2
    (bind_kwargs (Toy.bg_kwargs (BgChannels [Toy.half]) 4))
  = rays_rgb (Toy.toy_renderer true false) ∅ Toy.toy_rays Toy.toy_rays 2
      (bind_kwargs (Toy.bg_kwargs (BgScalar Toy.half) 4))
  ∧ (∃ r, rays_rgb (Toy.toy_renderer true false) ∅ Toy.toy_rays Toy.toy_rays 2
            (bind_kwargs (Toy.bg_kwargs (BgChannels [Toy.half]) 4)) = inr r)
  ∧ rays_rgb (Toy.toy_renderer true false) ∅ Toy.toy_rays Toy.toy_rays 2
      (bind_kwargs (Toy.bg_kwargs (BgChannels [fone; fone; fone; fone]) 4))
    = inl (RuntimeError "The size of tensor a must match the size of tensor b")
  ∧ rays_rgb (Toy.toy_renderer true false) ∅ Toy.toy_rays Toy.toy_rays 2
      (bind_kwargs
         (Toy.bg_kwargs (BgPerRay [[fone; fone; fone]; [fone; fone; fone]]) 4))
    = inl (RuntimeError "The size of tensor a must match the size of tensor b")
  ∧ rays_rgb (Toy.toy_renderer true false) ∅ [[Toy.ray0]] [[Toy.ray0]] 2
      (bind_kwargs
         (Toy.bg_kwargs (BgPerRay [[fone; fone; fone]; [fone; fone; fone]]) 4))
    = inl (RuntimeError "shape is invalid for input size").
Proof.
  split; [vm_compute; reflexivity|].
  split; [eexists; vm_compute; reflexivity|].
  repeat split; vm_compute; reflexivity.
Qed.

(** C5 on the 2 x 2 x 2 grid, at the voxel that stores 1. *)
Lemma ema_update_rule_witness :
  ∃ self' e' fresh,
    update_extra_state (Toy.toy_renderer true false) tt (FFin (19 # 20)) 128
      = inr (self', tt)
    ∧ extra self' = Some e'
    ∧ cell (density_grid e') 0 1
      = Some (if fge fone fzero && fge fresh fzero
              then maximum (fmul fone (FFin (19 # 20))) fresh else fone).
Proof.
  destruct (update_extra_state (TR := Toy.toy_random)
              (Toy.toy_renderer true false) tt
              (FFin (19 # 20)) 128) as [e|[s []]] eqn:E;
    [vm_compute in E; discriminate|].
  destruct (ema_update_rule (RM := Toy.toy_raymarching) (F := Toy.toy_field)
              (TR := Toy.toy_random) (Toy.toy_renderer true false) tt (FFin (19 # 20))
              128 s tt Toy.toy_extra eq_refl E) as (tmp & e' & _ & He' & Hrule).
  destruct (Hrule 0 1 fone eq_refl) as (fresh & _ & Hc).
  exists s, e', fresh. split; [reflexivity|]. split; [exact He'|exact Hc].
Defined.

(** C6 on the 2 x 2 x 2 grid, at the voxel 2 that stores -1. *)
Lemma never_visible_cells_kept_witness :
  ∃ self' e',
    update_extra_state (Toy.toy_renderer true false) tt (FFin (19 # 20)) 128
      = inr (self', tt)
    ∧ extra self' = Some e'
    ∧ cell (density_grid e') 0 2 = Some (of_Z (-1)).
Proof.
  destruct (update_extra_state (TR := Toy.toy_random)
              (Toy.toy_renderer true false) tt
              (FFin (19 # 20)) 128) as [e|[s []]] eqn:E;
    [vm_compute in E; discriminate|].
  destruct (never_visible_cells_kept
              (RM := Toy.toy_raymarching) (F := Toy.toy_field)
              (TR := Toy.toy_random)) as (Hkeep & _).
  destruct (Hkeep (Toy.toy_renderer true false) tt (FFin (19 # 20)) 128%Z s tt
              Toy.toy_extra 0 2 (of_Z (-1)) E eq_refl eq_refl eq_refl)
    as (e' & He' & Hc).
  exists s, e'. split; [reflexivity|]. split; [exact He'|exact Hc].
Defined.



(** The cap at work: of three rays the one of odd index never retires;
    with [max_steps = 4] the RGB loop runs a round of one step (three rays
    alive) and a round of three steps (one ray alive) and stops at the cap
    with that ray still alive. *)
Example inference_loop_stops_at_cap :
  ∃ r,
    march_loop
      (rgb_round (Toy.toy_renderer true false) [Toy.ray0; Toy.ray0; Toy.ray0]
         [Toy.ray0; Toy.ray0; Toy.ray0] [fone; fone; fone]
         [FFin 6; FFin 6; FFin 6] (bind_kwargs (Toy.steps_kwargs 4)))
      3 4 0 (initial_state 3 3 [fone; fone; fone]) [] = inr r
    ∧ final_step r = 4%Z
    ∧ rays_alive (final_state r) = [1%Z]
    ∧ round_n_step <$> rounds r = [1%Z; 3%Z]
    ∧ weights_sum (final_state r) = [FFin (1 # 2); FFin (4 # 4); FFin (1 # 2)].
Proof.
  eexists. split; [vm_compute; reflexivity|]. vm_compute. repeat split.
Qed.

(** C10 on an inference render of three rays. *)
Lemma returned_depth_is_semantic_depth_witness :
  ∃ self2 results depth,
    render (Toy.toy_renderer true false) Toy.toy_rays Toy.toy_rays 2 false 4096
      (Toy.steps_kwargs 4) = Some (inr (self2, results))
    ∧ results !! "depth" = Some (RScalar (view2 1 3 depth)).
Proof.
  destruct (render (Toy.toy_renderer true false) Toy.toy_rays Toy.toy_rays 2
              false 4096 (Toy.steps_kwargs 4)) as [[e|[s r]]|] eqn:E;
    [vm_compute in E; discriminate| |vm_compute in E; discriminate].
  destruct (returned_depth_is_semantic_depth
              (RM := Toy.toy_raymarching) (F := Toy.toy_field))
    as [Hrun Hrender].
  pose proof (Hrender _ _ _ _ _ _ _ _ _ E ltac:(simpl; lia) ltac:(simpl; lia))
    as Hcall.
  destruct (Hrun _ _ _ _ _ _ _ Hcall)
    as (self1 & results1 & ws & ds & cs & depth & _ & _ & _ & _ & Hd & _).
  exists s, r, depth. split; [reflexivity|exact Hd].
Defined.

(** The rows of the scene can be sampled. *)
Lemma scene_rows_samplable : Forall2 (samplable 3) Scene.bins Scene.weights.
Proof.
  constructor; [|constructor]. split; [discriminate|]. split; [reflexivity|].
  split; [reflexivity|]. split; [repeat constructor; discriminate|].
  intros i j a b Hij Hi Hj.
  destruct i as [|[|[|i]]], j as [|[|[|j]]]; simpl in Hi, Hj;
    try discriminate; try lia;
    injection Hi as <-; injection Hj as <-; discriminate.
Defined.

(** X1 on renders of three rays without the buffers: a staged one with a
    negative number of classes, a staged one with two classes, and one in
    a single call. *)
Lemma render_without_cuda_ray_raises_witness :
  render (Toy.toy_renderer false false) Toy.toy_rays Toy.toy_rays (-1) true 2
    (Toy.steps_kwargs 4) = Some (inl negative_dimension)
  ∧ render (Toy.toy_renderer false false) Toy.toy_rays Toy.toy_rays 2 true 2
      (Toy.steps_kwargs 4) = Some (inl missing_argument)
  ∧ render (Toy.toy_renderer false false) Toy.toy_rays Toy.toy_rays 2 false
      4096 (Toy.steps_kwargs 4)
    = Some (inl (AttributeError "density_bitfield")).
Proof.
  split; [|split].
  - apply (render_without_cuda_ray_raises
             (RM := Toy.toy_raymarching) (F := Toy.toy_field)
             (Toy.toy_renderer false false) Toy.toy_rays Toy.toy_rays (-1) true
             2 (Toy.steps_kwargs 4));
      [reflexivity|simpl; lia|simpl; lia|right; reflexivity].
  - apply (render_without_cuda_ray_raises
             (RM := Toy.toy_raymarching) (F := Toy.toy_field)
             (Toy.toy_renderer false false) Toy.toy_rays Toy.toy_rays 2 true
             2 (Toy.steps_kwargs 4));
      [reflexivity|simpl; lia|simpl; lia|right; reflexivity].
  - apply (render_without_cuda_ray_raises
             (RM := Toy.toy_raymarching) (F := Toy.toy_field)
             (Toy.toy_renderer false false) Toy.toy_rays Toy.toy_rays 2 false
             4096 (Toy.steps_kwargs 4));
      [reflexivity|simpl; lia|simpl; lia|right; reflexivity].
Defined.

(** X2 on a batch of two rows without rays, with two classes and with a
    negative number of classes. *)
Lemma staged_render_of_no_rays_witness :
  render (Toy.toy_renderer false false) [[]; []] [[]; []] 2 true 2
    Toy.no_kwargs
  = Some (inr (Toy.toy_renderer false false,
        <["semantic" := RVector [[]; []]]>
          (<["image" := RVector [[]; []]]>
             (<["depth" := RScalar [[]; []]]> ∅))))
  ∧ render (Toy.toy_renderer false false) [[]; []] [[]; []] (-1) true 2
      Toy.no_kwargs
    = Some (inl negative_dimension).
Proof.
  split.
  - apply (staged_render_of_no_rays
             (RM := Toy.toy_raymarching) (F := Toy.toy_field)
             (Toy.toy_renderer false false) [[]; []] [[]; []] 2 2
             Toy.no_kwargs); reflexivity.
  - apply (staged_render_of_no_rays
             (RM := Toy.toy_raymarching) (F := Toy.toy_field)
             (Toy.toy_renderer false false) [[]; []] [[]; []] (-1) 2
             Toy.no_kwargs); reflexivity.
Defined.

(** X3 on an inference render of three rays. *)
Lemma inference_render_keeps_renderer_witness :
  ∃ self' results,
    render (Toy.toy_renderer true false) Toy.toy_rays Toy.toy_rays 2 false 4096
      (Toy.steps_kwargs 4) = Some (inr (self', results))
    ∧ self' = Toy.toy_renderer true false.
Proof.
  destruct (render (Toy.toy_renderer true false) Toy.toy_rays Toy.toy_rays 2
              false 4096 (Toy.steps_kwargs 4)) as [[e|[s r]]|] eqn:E;
    [vm_compute in E; discriminate| |vm_compute in E; discriminate].
  exists s, r. split; [reflexivity|].
  exact (inference_render_keeps_renderer
           (RM := Toy.toy_raymarching) (F := Toy.toy_field)
           (Toy.toy_renderer true false) Toy.toy_rays Toy.toy_rays 2 false 4096
           (Toy.steps_kwargs 4) s r eq_refl E).
Defined.

(** X4 on a training call with three rays. *)
Lemma training_render_uses_two_slots_witness :
  ∃ self2 results e2,
    run_cuda (Toy.toy_renderer true true) Toy.toy_rays Toy.toy_rays 2
      (bind_kwargs Toy.no_kwargs) = inr (self2, results)
    ∧ extra self2 = Some e2
    ∧ local_step e2 = 2%Z
    ∧ step_counter e2 !! 2 = Some [0%Z; 0%Z].
Proof.
  destruct (run_cuda (Toy.toy_renderer true true) Toy.toy_rays Toy.toy_rays 2
              (bind_kwargs Toy.no_kwargs)) as [e|[s r]] eqn:E;
    [vm_compute in E; discriminate|].
  destruct (training_render_uses_two_slots
              (RM := Toy.toy_raymarching) (F := Toy.toy_field)
              (Toy.toy_renderer true true) Toy.toy_rays Toy.toy_rays 2
              (bind_kwargs Toy.no_kwargs) s r eq_refl E)
    as (e0 & e2 & He0 & He2 & Hl & _ & Hk & _).
  injection He0 as <-.
  exists s, r, e2. split; [reflexivity|]. split; [exact He2|].
  split; [exact Hl|]. apply (Hk 2); vm_compute; discriminate.
Defined.

(** X5 on an inference call with three rays. *)
Lemma returned_keys_witness :
  ∃ self2 results,
    run_cuda (Toy.toy_renderer true false) Toy.toy_rays Toy.toy_rays 2
      (bind_kwargs (Toy.steps_kwargs 4)) = inr (self2, results)
    ∧ dom results = ∅ ∪ {["depth"; "image"; "semantic"]}.
Proof.
  destruct (run_cuda (Toy.toy_renderer true false) Toy.toy_rays Toy.toy_rays 2
              (bind_kwargs (Toy.steps_kwargs 4))) as [e|[s r]] eqn:E;
    [vm_compute in E; discriminate|].
  destruct (returned_keys (RM := Toy.toy_raymarching) (F := Toy.toy_field)
              (Toy.toy_renderer true false) Toy.toy_rays Toy.toy_rays 2
              (bind_kwargs (Toy.steps_kwargs 4)) s r E) as [Hdom _].
  exists s, r. split; [reflexivity|exact Hdom].
Defined.

(** X6 on the RGB loop of three rays, of which two retire in the first
    round. *)
Lemma round_budget_witness :
  ∃ r,
    march_loop
      (rgb_round (Toy.toy_renderer true false) [Toy.ray0; Toy.ray0; Toy.ray0]
         [Toy.ray0; Toy.ray0; Toy.ray0] [fone; fone; fone]
         [FFin 6; FFin 6; FFin 6] (bind_kwargs (Toy.steps_kwargs 4)))
      3 4 0 (initial_state 3 3 [fone; fone; fone]) [] = inr r
    ∧ Forall (within_budget 3) (rounds r)
    ∧ alive_decreasing 3 (rounds r).
Proof.
  destruct (march_loop
      (rgb_round (Toy.toy_renderer true false) [Toy.ray0; Toy.ray0; Toy.ray0]
         [Toy.ray0; Toy.ray0; Toy.ray0] [fone; fone; fone]
         [FFin 6; FFin 6; FFin 6] (bind_kwargs (Toy.steps_kwargs 4)))
      3 4 0 (initial_state 3 3 [fone; fone; fone]) []) as [e|r] eqn:E;
    [vm_compute in E; discriminate|].
  destruct (round_budget (RM := Toy.toy_raymarching) (F := Toy.toy_field)
              (Toy.toy_renderer true false) [Toy.ray0; Toy.ray0; Toy.ray0]
              [Toy.ray0; Toy.ray0; Toy.ray0] 2 [fone; fone; fone]
              [FFin 6; FFin 6; FFin 6] (bind_kwargs (Toy.steps_kwargs 4)) r)
    as (Hb & Hd & _).
  - split; intros; simpl; apply length_fmap.
  - left. exact E.
  - exists r. split; [reflexivity|]. split; [exact Hb|exact Hd].
Defined.

(** X7 on the 2 x 2 x 2 grid, at the voxel that stores 1, with decay
    0.95. *)
Lemma update_keeps_valid_cells_witness :
  ∃ self' e' new,
    update_extra_state (Toy.toy_renderer true false) tt (FFin (19 # 20)) 128
      = inr (self', tt)
    ∧ extra self' = Some e'
    ∧ cell (density_grid e') 0 1 = Some new
    ∧ fge new fzero = true.
Proof.
  destruct (update_extra_state (TR := Toy.toy_random)
              (Toy.toy_renderer true false) tt
              (FFin (19 # 20)) 128) as [e|[s []]] eqn:E;
    [vm_compute in E; discriminate|].
  destruct (update_keeps_valid_cells
              (RM := Toy.toy_raymarching) (F := Toy.toy_field)
              (TR := Toy.toy_random) (Toy.toy_renderer true false) tt
              (19 # 20)%Q 128 s tt Toy.toy_extra 0 1 fone)
    as (tmp & e' & fresh & new & _ & He' & _ & Hn & Hv & _);
    [split; reflexivity || discriminate|exact E|reflexivity|reflexivity
    |reflexivity|].
  exists s, e', new. split; [reflexivity|]. split; [exact He'|].
  split; [exact Hn|exact Hv].
Defined.

(** X8 on two updates of the 2 x 2 x 2 grid. *)
Lemma updates_keep_shape_and_count_witness :
  ∃ self' e',
    update_many (Toy.toy_renderer true false) tt
      [(FFin (19 # 20), 128%Z); (fone, 128%Z)] = inr (self', tt)
    ∧ extra self' = Some e'
    ∧ shape_of (density_grid e') = [8]
    ∧ iter_density e' = 2%Z.
Proof.
  destruct (update_many (TR := Toy.toy_random) (Toy.toy_renderer true false) tt
              [(FFin (19 # 20), 128%Z); (fone, 128%Z)]) as [e|[s []]] eqn:E;
    [vm_compute in E; discriminate|].
  destruct (updates_keep_shape_and_count
              (RM := Toy.toy_raymarching) (F := Toy.toy_field)
              (TR := Toy.toy_random) (Toy.toy_renderer true false) tt
              [(FFin (19 # 20), 128%Z); (fone, 128%Z)] s tt Toy.toy_extra E
              eq_refl)
    as (e' & He' & _ & Hs & Hi & _).
  exists s, e'. split; [reflexivity|]. split; [exact He'|].
  split; [exact Hs|exact Hi].
Defined.

(** X9 on the 2 x 2 x 2 grid, at the voxel 2 that stores -1, and on the
    update that follows the reset. *)
Lemma reset_erases_marks_witness :
  ∃ e0 self' tmp_grid e' fresh,
    extra (reset_extra_state (Toy.toy_renderer true false)) = Some e0
    ∧ cell (density_grid e0) 0 2 = Some fzero
    ∧ density_bitfield e0 = [0%Z]
    ∧ update_extra_state (reset_extra_state (Toy.toy_renderer true false)) tt
        (FFin (19 # 20)) 128 = inr (self', tt)
    ∧ sweep (reset_extra_state (Toy.toy_renderer true false)) e0 tt 128
      = inr (tmp_grid, tt)
    ∧ cell tmp_grid 0 2 = Some fresh
    ∧ extra self' = Some e'
    ∧ cell (density_grid e') 0 2
      = Some (if fge fresh fzero
              then maximum (fmul fzero (FFin (19 # 20))) fresh else fzero).
Proof.
  destruct (reset_erases_marks
              (RM := Toy.toy_raymarching) (F := Toy.toy_field)
              (TR := Toy.toy_random) (Toy.toy_renderer true false)
              Toy.toy_extra 0 2 (of_Z (-1)) eq_refl eq_refl)
    as (e0 & He0 & Hc & Hb & _ & _ & _ & _ & _ & Hnext).
  destruct (update_extra_state (TR := Toy.toy_random)
              (reset_extra_state (Toy.toy_renderer true false)) tt
              (FFin (19 # 20)) 128) as [err|[s []]] eqn:E;
    [vm_compute in E; discriminate|].
  destruct (Hnext tt (FFin (19 # 20)) 128%Z s tt E)
    as (tmp & e' & fresh & Hs & Hf & He' & Hcell).
  exists e0, s, tmp, e', fresh.
  split; [exact He0|]. split; [exact Hc|]. split; [exact Hb|].
  split; [reflexivity|]. split; [exact Hs|]. split; [exact Hf|].
  split; [exact He'|exact Hcell].
Defined.

(** X10 on the 2 x 2 x 2 grid after 16 updates, with no voxel above 0. *)
Lemma steady_state_update_needs_occupied_voxel_witness :
  ∃ err, update_extra_state Scene.starved tt fone 128 = inl err.
Proof.
  apply (steady_state_update_needs_occupied_voxel
           (RM := Toy.toy_raymarching) (F := Toy.toy_field)
           (TR := Toy.toy_random) Scene.starved
           (Build_extra_state [replicate 8 fzero] [0%Z] fzero 16
              (replicate 16 [0%Z; 0%Z]) 0 0)
           tt fone 128 (replicate 8 fzero)).
  - intros g n. eexists. reflexivity.
  - reflexivity.
  - simpl. lia.
  - simpl. lia.
  - reflexivity.
  - repeat constructor.
Defined.

(** X11 on the 2 x 2 x 2 grid seen by one camera, at the voxel 7 that the
    camera covers. *)
Lemma visibility_pass_only_marks_witness :
  ∃ self' e',
    mark_untrained_grid (Toy.toy_renderer true false) [Scene.camera]
      Scene.pinhole 64 = inr self'
    ∧ extra self' = Some e'
    ∧ shape_of (density_grid e') = [8]
    ∧ (cell (density_grid e') 0 7 = Some Toy.quarter
       ∨ cell (density_grid e') 0 7 = Some (of_Z (-1))).
Proof.
  destruct (mark_untrained_grid (Toy.toy_renderer true false) [Scene.camera]
              Scene.pinhole 64) as [e|s] eqn:E;
    [vm_compute in E; discriminate|].
  destruct (visibility_pass_only_marks (RM := Toy.toy_raymarching)
              (Toy.toy_renderer true false) [Scene.camera] Scene.pinhole 64 s
              Toy.toy_extra E eq_refl)
    as (e' & He' & _ & _ & _ & _ & _ & _ & _ & Hs & Hc).
  exists s, e'. split; [reflexivity|]. split; [exact He'|].
  split; [exact Hs|]. apply Hc. reflexivity.
Defined.

(** X12 on the 2 x 2 x 2 grid, at the voxel that stores 1. *)
Lemma no_camera_marks_every_voxel_witness :
  ∃ self' e',
    mark_untrained_grid (Toy.toy_renderer true false) [] Scene.pinhole 64
      = inr self'
    ∧ extra self' = Some e'
    ∧ cell (density_grid e') 0 1 = Some (of_Z (-1)).
Proof.
  destruct (mark_untrained_grid (Toy.toy_renderer true false) []
              Scene.pinhole 64) as [e|s] eqn:E;
    [vm_compute in E; discriminate|].
  destruct (no_camera_marks_every_voxel (RM := Toy.toy_raymarching)
              (Toy.toy_renderer true false) Scene.pinhole 64 s
              Toy.toy_extra E eq_refl) as (e' & He' & Hc).
  exists s, e'. split; [reflexivity|]. split; [exact He'|].
  apply (Hc 0 1 fone). reflexivity.
Defined.

(** X13 on the 2 x 2 x 2 grid seen by one camera. *)
Lemma visibility_pass_idempotent_witness :
  ∃ self',
    mark_untrained_grid (Toy.toy_renderer true false) [Scene.camera]
      Scene.pinhole 64 = inr self'
    ∧ mark_untrained_grid self' [Scene.camera] Scene.pinhole 64 = inr self'.
Proof.
  destruct (mark_untrained_grid (Toy.toy_renderer true false) [Scene.camera]
              Scene.pinhole 64) as [e|s] eqn:E;
    [vm_compute in E; discriminate|].
  exists s. split; [reflexivity|].
  exact (visibility_pass_idempotent (RM := Toy.toy_raymarching)
           (Toy.toy_renderer true false) [Scene.camera] Scene.pinhole 64 s E).
Defined.

(** X14 on the 2 x 2 x 2 grid: the voxel 1 lies behind the camera, and two
    updates later it is still -1. *)
Lemma unseen_voxels_stay_marked_witness :
  ∃ self1 self2 e2,
    mark_untrained_grid (Toy.toy_renderer true false) [Scene.camera]
      Scene.pinhole 64 = inr self1
    ∧ update_many self1 tt [(FFin (19 # 20), 128%Z); (fone, 128%Z)]
      = inr (self2, tt)
    ∧ extra self2 = Some e2
    ∧ cell (density_grid e2) 0 1 = Some (of_Z (-1)).
Proof.
  destruct (mark_untrained_grid (Toy.toy_renderer true false) [Scene.camera]
              Scene.pinhole 64) as [e|s1] eqn:E1;
    [vm_compute in E1; discriminate|].
  destruct (update_many (TR := Toy.toy_random) s1 tt
              [(FFin (19 # 20), 128%Z); (fone, 128%Z)]) as [e|[s2 []]] eqn:E2.
  { vm_compute in E1. injection E1 as <-. vm_compute in E2. discriminate. }
  destruct (unseen_voxels_stay_marked
              (RM := Toy.toy_raymarching) (F := Toy.toy_field)
              (TR := Toy.toy_random) (Toy.toy_renderer true false)
              [Scene.camera] Scene.pinhole 64 s1 tt
              [(FFin (19 # 20), 128%Z); (fone, 128%Z)] s2 tt Toy.toy_extra
              [[0; 0; 0; 0; 1; 1; 1; 1]%Z] 0 1 fone eq_refl eq_refl E1 E2
              eq_refl eq_refl) as (e2 & He2 & Hc).
  exists s1, s2, e2. split; [reflexivity|]. split; [exact E2|].
  split; [exact He2|exact Hc].
Defined.

(** X15 on [NeRFRenderer(bound=4)]: three cascades, of which the last
    has the box 4. *)
Lemma cascades_cover_the_bound_witness :
  ∃ self,
    init (FFin 4) false fone (FFin (1 # 5)) (FFin (1 # 100)) (of_Z (-1))
      = inr self
    ∧ cascade self = 3%Z
    ∧ py_min (of_Z (2 ^ 1)) (bound self) = of_Z (2 ^ 1)
    ∧ feqb (py_min (of_Z (2 ^ (cascade self - 1))) (bound self)) (bound self)
      = true.
Proof.
  destruct (init (PM := Toy.toy_math) (FFin 4) false fone (FFin (1 # 5))
              (FFin (1 # 100)) (of_Z (-1))) as [e|s] eqn:E;
    [vm_compute in E; discriminate|].
  destruct (cascades_cover_the_bound (PM := Toy.toy_math) 4%Q false fone
              (FFin (1 # 5)) (FFin (1 # 100)) (of_Z (-1)) s)
    as (H1 & Hin & _ & Hpow); [discriminate|exact E|].
  destruct (Hpow 2%Z ltac:(lia) ltac:(reflexivity)) as [Hc Hlast].
  exists s. split; [reflexivity|]. split; [exact Hc|].
  split; [|exact Hlast]. apply Hin. rewrite Hc. lia.
Defined.

(** X16 on [NeRFRenderer(bound=1, cuda_ray=True)]. *)
Lemma constructed_buffers_witness :
  ∃ self e,
    init (FFin 1) true fone (FFin (1 # 5)) (FFin (1 # 100)) (of_Z (-1))
      = inr self
    ∧ extra self = Some e
    ∧ Z.of_nat (length (density_grid e)) = cascade self
    ∧ (8 * Z.of_nat (length (density_bitfield e)) = cascade self * 128 ^ 3)%Z.
Proof.
  destruct (constructed_buffers (PM := Toy.toy_math) 1%Q fone (FFin (1 # 5))
              (FFin (1 # 100)) (of_Z (-1)))
    as (s & e & Hi & He & Hg & _ & Hb & _); [discriminate|].
  exists s, e. split; [exact Hi|]. split; [exact He|].
  split; [exact Hg|exact Hb].
Defined.

(** X17 on [NeRFRenderer()] and renders of three rays: in a single call,
    and staged with a negative number of classes. *)
Lemma default_renderer_cannot_render_witness :
  ∃ self,
    init (of_Z 1) false fone (FFin (1 # 5)) (FFin (1 # 100)) (of_Z (-1))
      = inr self
    ∧ render self Toy.toy_rays Toy.toy_rays 2 false 4096 Toy.no_kwargs
      = Some (inl (AttributeError "step_counter"))
    ∧ render self Toy.toy_rays Toy.toy_rays (-1) true 4096 Toy.no_kwargs
      = Some (inl negative_dimension).
Proof.
  destruct (init (PM := Toy.toy_math) (of_Z 1) false fone (FFin (1 # 5))
              (FFin (1 # 100)) (of_Z (-1))) as [e|s] eqn:E;
    [vm_compute in E; discriminate|].
  exists s. split; [reflexivity|]. split.
  - apply (default_renderer_cannot_render
             (RM := Toy.toy_raymarching) (F := Toy.toy_field)
             (PM := Toy.toy_math)
             (of_Z 1) fone (FFin (1 # 5)) (FFin (1 # 100)) (of_Z (-1)) s
             Toy.toy_rays Toy.toy_rays 2 false 4096 Toy.no_kwargs E);
      simpl; lia.
  - apply (default_renderer_cannot_render
             (RM := Toy.toy_raymarching) (F := Toy.toy_field)
             (PM := Toy.toy_math)
             (of_Z 1) fone (FFin (1 # 5)) (FFin (1 # 100)) (of_Z (-1)) s
             Toy.toy_rays Toy.toy_rays (-1) true 4096 Toy.no_kwargs E);
      simpl; lia.
Defined.

(** X18 on one row of three bin edges, two weights and two draws, and on
    the same row with a NaN among the weights. *)
Lemma random_samples_shape_witness :
  (∃ samples,
     sample_pdf (finite Scene.bins) (finite Scene.weights) 2 false
       (finite Scene.draws) = inr samples
     ∧ length samples = 1 ∧ Forall (fun row => length row = 2) samples)
  ∧ ∃ samples,
      sample_pdf (finite Scene.bins) [[FNaN; fone]] 2 false
        (finite Scene.draws) = inr samples
      ∧ length samples = 1 ∧ Forall (fun row => length row = 2) samples.
Proof.
  split.
  - apply (random_samples_shape 1 2 2 (finite Scene.bins)
             (finite Scene.weights) (finite Scene.draws));
      [lia|reflexivity|repeat constructor|reflexivity|repeat constructor
      |reflexivity|repeat constructor].
  - apply (random_samples_shape 1 2 2 (finite Scene.bins) [[FNaN; fone]]
             (finite Scene.draws));
      [lia|reflexivity|repeat constructor|reflexivity|repeat constructor
      |reflexivity|repeat constructor].
Defined.

(** X19 on one row of three bin edges and two deterministic samples. *)
Lemma deterministic_samples_shape_witness :
  ∃ samples,
    (∀ draw, sample_pdf (finite Scene.bins) (finite Scene.weights) 2 true draw
             = inr samples)
    ∧ length samples = 1 ∧ Forall (fun row => length row = 2) samples.
Proof.
  apply (deterministic_samples_shape 1 2 2 (finite Scene.bins)
           (finite Scene.weights));
    [lia|lia|reflexivity|repeat constructor|reflexivity|repeat constructor].
Defined.

(** X20 on one row of three bin edges. *)
Lemma zero_samples_requested_witness :
  sample_pdf (finite Scene.bins) (finite Scene.weights) 0 true []
    = inl ZeroDivisionError
  ∧ sample_pdf (finite Scene.bins) (finite Scene.weights) 0 false [[]]
    = inr [[]].
Proof.
  apply (zero_samples_requested 3 Scene.bins Scene.weights (finite Scene.bins)
           (finite Scene.weights) []).
  exact scene_rows_samplable.
Defined.

(** X21 on one row with one bin edge and no weight. *)
Lemma no_weights_cannot_be_sampled_witness :
  ∃ err, sample_pdf [[fzero]] [[]] 1 true [] = inl err.
Proof.
  apply (no_weights_cannot_be_sampled [[fzero]] [[]] [] 1 true).
  - lia.
  - discriminate.
  - repeat constructor.
  - constructor.
Defined.
